(** * The artist similarity graph and the Dacus number of [app.py]

    A shallow embedding of [build_graph] and [calculate_dacus_number]
    (app.py, lines 1488-1503 and 1551-1604) together with the parts of
    pandas and networkx these two functions call; of the drawing of the
    path ([visualize_artist_network] and the lines of [dacus_game_page]
    that prepare it); of the functions that feed the graph
    ([get_all_prediction_files], [load_predictions] and the lines of
    [main] that call them); and of the feedback files ([save_feedback],
    [save_public_feedback], [load_public_feedback],
    [get_public_feedback_stats]).

    - A table cell is a Python string or the missing value (NaN, taken as
      one object); a table is a list of column names and a list of rows of
      cells. Numbers and booleans, and so the columns that [pd.read_csv]
      types as such, are outside the model.
    - A column of strings is of dtype [object], the dtype on which pandas
      offers the [.str] accessor; a column that is read without a single
      value is of dtype [float64]. [build_graph] is the graph that the
      function returns when [.str] is there; [Typed.build_graph] takes
      the dtypes with the tables and raises where pandas does.
    - A string is a sequence of code points below 256.
    - The order in which Python iterates a [set] is not fixed by the
      language; [build_graph] and the view of a subgraph take it as a
      parameter.
    - A networkx [Graph] is its two insertion-ordered dictionaries [_node]
      and [_adj], kept as association lists.
    - [nx.shortest_path] without a weight is
      [nx.bidirectional_shortest_path]: a breadth-first search from both
      ends, embedded here loop by loop.
    - Exceptions are explicit: a call returns a value, raises, or (for the
      two [while] loops, which are run on fuel) runs out of fuel.
    - Files are seen through what [glob.glob], [os.path.exists] and
      [pd.read_csv] make of them, and a save is the frame that is handed
      to [to_csv]; [strptime], [strftime] and the layout of the drawing
      are parameters. *)

From Stdlib Require Import QArith.QArith_base Strings.Ascii Sorting.Sorted.
From stdpp Require Import base option list strings gmap.

Local Open Scope string_scope.
Local Open Scope list_scope.
Local Open Scope nat_scope.

(** ** Python values that occur as table cells and as graph nodes *)

Inductive value :=
  | VStr (s : string)
  | VNaN.

Global Instance value_eq_dec : EqDecision value.
Proof. solve_decision. Defined.

Definition value_to_option (v : value) : option string :=
  match v with VStr s => Some s | VNaN => None end.

Definition value_of_option (o : option string) : value :=
  match o with Some s => VStr s | None => VNaN end.

Global Instance value_countable : Countable value.
Proof.
  apply (inj_countable' value_to_option value_of_option).
  by intros [].
Defined.

(** The fixed reference artist of [calculate_dacus_number]. *)
Definition reference : value := VStr "Lucy Dacus".

(** ** Exceptions and outcomes *)

Inductive exn :=
  | NodeNotFound
  | NetworkXNoPath
  | KeyError
  | AttributeError.

Inductive outcome (A : Type) :=
  | Return (a : A)
  | Raise (e : exn)
  | OutOfFuel.
Arguments Return {A} a.
Arguments Raise {A} e.
Arguments OutOfFuel {A}.

Global Instance exn_eq_dec : EqDecision exn.
Proof. solve_decision. Defined.

Global Instance outcome_bind : MBind outcome := λ A B k m,
  match m with
  | Return a => k a
  | Raise e => Raise e
  | OutOfFuel => OutOfFuel
  end.

(** [try: body except e: handler]. *)
Definition try_except {A} (body : outcome A) (e : exn) (handler : outcome A)
  : outcome A :=
  match body with
  | Raise e' => if decide (e' = e) then handler else Raise e'
  | r => r
  end.

(** ** Insertion-ordered dictionaries *)

Section dict.
Context {K V : Type} `{EqDecision K}.

Fixpoint dict_get (k : K) (d : list (K * V)) : option V :=
  match d with
  | [] => None
  | (k', v) :: d' => if decide (k = k') then Some v else dict_get k d'
  end.

Definition dict_in (k : K) (d : list (K * V)) : bool :=
  bool_decide (is_Some (dict_get k d)).

(** [d[k] = v]: an existing key keeps its position, a new key goes last. *)
Fixpoint dict_set (k : K) (v : V) (d : list (K * V)) : list (K * V) :=
  match d with
  | [] => [(k, v)]
  | (k', v') :: d' =>
      if decide (k = k') then (k, v) :: d' else (k', v') :: dict_set k v d'
  end.

Definition keys (d : list (K * V)) : list K := d.*1.
End dict.

(** ** networkx: [Graph], [add_nodes_from], [add_edge] *)

Inductive attr_val :=
  | AStr (s : string)
  | ANum (q : Q).

Definition attrs := list (string * attr_val).

(** [d.update(new)] on attribute dictionaries. *)
Definition attrs_update (d new : attrs) : attrs :=
  foldl (fun acc kv => dict_set kv.1 kv.2 acc) d new.

Record Graph := {
  g_node : list (value * attrs);
  g_adj : list (value * list (value * attrs))
}.

(** [nx.Graph()] *)
Definition empty_graph : Graph := {| g_node := []; g_adj := [] |}.

(** [n in G] *)
Definition has_node (G : Graph) (n : value) : bool := dict_in n (g_node G).

(** [G.has_edge(u, v)] *)
Definition has_edge (G : Graph) (u v : value) : bool :=
  match dict_get u (g_adj G) with
  | Some nbrs => dict_in v nbrs
  | None => false
  end.

(** The first lines of [add_node], [add_nodes_from] and [add_edge]:
    a node that is not yet in [_node] gets an empty adjacency dictionary
    and an empty attribute dictionary. *)
Definition ensure_node (n : value) (G : Graph) : Graph :=
  if has_node G n then G
  else {| g_node := dict_set n [] (g_node G);
          g_adj := dict_set n [] (g_adj G) |}.

(** One round of the loop of [G.add_nodes_from(nodes, **attr)]. *)
Definition add_node (attr : attrs) (G : Graph) (n : value) : Graph :=
  let G1 := ensure_node n G in
  {| g_node := dict_set n (attrs_update (default [] (dict_get n (g_node G1))) attr)
                 (g_node G1);
     g_adj := g_adj G1 |}.

Definition add_nodes_from (nodes : list value) (attr : attrs) (G : Graph) : Graph :=
  foldl (add_node attr) G nodes.

(** [G.add_edge(u, v, **attr)] *)
Definition add_edge (u v : value) (attr : attrs) (G : Graph) : Graph :=
  let G1 := ensure_node v (ensure_node u G) in
  let adj_u := default [] (dict_get u (g_adj G1)) in
  let datadict := attrs_update (default [] (dict_get v adj_u)) attr in
  let adj1 := dict_set u (dict_set v datadict adj_u) (g_adj G1) in
  let adj_v := default [] (dict_get v adj1) in
  {| g_node := g_node G1;
     g_adj := dict_set v (dict_set u datadict adj_v) adj1 |}.

(** ** networkx: [bidirectional_shortest_path] *)

(** What scanning one level of a fringe ends with: the two searches met in
    [w], or the level is exhausted and the next fringe is ready. *)
Inductive scan :=
  | Found (seen : gmap value (option value)) (w : value)
  | Continue (seen : gmap value (option value)) (fringe : list value).

(** The inner loop [for w in Gsucc[v]: ...] of one direction. [seen] is the
    dictionary of this direction ([pred] forwards, [succ] backwards) and
    [other] the dictionary of the opposite direction. *)
Fixpoint scan_nbrs (v : value) (ws : list value)
    (seen other : gmap value (option value)) (fringe : list value) : scan :=
  match ws with
  | [] => Continue seen fringe
  | w :: ws' =>
      let '(seen', fringe') :=
        match seen !! w with
        | None => (<[w := Some v]> seen, fringe ++ [w])
        | Some _ => (seen, fringe)
        end in
      match other !! w with
      | Some _ => Found seen' w
      | None => scan_nbrs v ws' seen' other fringe'
      end
  end.

(** The outer loop [for v in this_level: ...]. *)
Fixpoint scan_level (adj : list (value * list (value * attrs)))
    (level : list value) (seen other : gmap value (option value))
    (fringe : list value) : outcome scan :=
  match level with
  | [] => Return (Continue seen fringe)
  | v :: level' =>
      match dict_get v adj with
      | None => Raise KeyError
      | Some nbrs =>
          match scan_nbrs v (keys nbrs) seen other fringe with
          | Found seen' w => Return (Found seen' w)
          | Continue seen' fringe' => scan_level adj level' seen' other fringe'
          end
      end
  end.

Definition search_result : Type :=
  gmap value (option value) * gmap value (option value) * value.

(** [while forward_fringe and reverse_fringe: ...], then
    [raise nx.NetworkXNoPath]. *)
Fixpoint search_loop (fuel : nat) (adj : list (value * list (value * attrs)))
    (pred succ : gmap value (option value))
    (forward_fringe reverse_fringe : list value) : outcome search_result :=
  match forward_fringe, reverse_fringe with
  | [], _ | _, [] => Raise NetworkXNoPath
  | _, _ =>
      match fuel with
      | 0 => OutOfFuel
      | S fuel' =>
          if (length forward_fringe <=? length reverse_fringe)%nat then
            r ← scan_level adj forward_fringe pred succ [];
            match r with
            | Found pred' w => Return (pred', succ, w)
            | Continue pred' fringe' =>
                search_loop fuel' adj pred' succ fringe' reverse_fringe
            end
          else
            r ← scan_level adj reverse_fringe succ pred [];
            match r with
            | Found succ' w => Return (pred, succ', w)
            | Continue succ' fringe' =>
                search_loop fuel' adj pred succ' forward_fringe fringe'
            end
      end
  end.

(** Every round of the loop that does not leave it puts a new node into
    [pred] or [succ], so twice the number of nodes bounds the rounds. *)
Definition search_fuel (G : Graph) : nat := 2 * length (g_adj G) + 1.

(** [_bidirectional_pred_succ(G, source, target)] *)
Definition bidirectional_pred_succ (G : Graph) (source target : value)
  : outcome search_result :=
  if decide (target = source) then
    Return ({[target := None]}, {[source := None]}, source)
  else
    search_loop (search_fuel G) (g_adj G)
      {[source := None]} {[target := None]} [source] [target].

(** [while w is not None: path.append(w); w = m[w]], entered with a node. *)
Fixpoint follow (fuel : nat) (m : gmap value (option value)) (w : value)
  : outcome (list value) :=
  match fuel with
  | 0 => OutOfFuel
  | S fuel' =>
      match m !! w with
      | None => Raise KeyError
      | Some None => Return [w]
      | Some (Some v) => l ← follow fuel' m v; Return (w :: l)
      end
  end.

(** [bidirectional_shortest_path(G, source, target)]. The second loop
    starts from [succ[path[-1]]]; the last element of the reversed [path]
    is the node [w] that the first loop appended first. *)
Definition bidirectional_shortest_path (G : Graph) (source target : value)
  : outcome (list value) :=
  if negb (has_node G source) || negb (has_node G target) then Raise NodeNotFound
  else
    '(pred, succ, w) ← bidirectional_pred_succ G source target;
    back ← follow (S (size pred)) pred w;
    let path := reverse back in
    match succ !! w with
    | None => Raise KeyError
    | Some None => Return path
    | Some (Some w') =>
        rest ← follow (S (size succ)) succ w';
        Return (path ++ rest)
    end.

(** [nx.shortest_path(G, source=..., target=...)]: no weight is given, so
    the method is the unweighted one. *)
Definition shortest_path (G : Graph) (source target : value)
  : outcome (list value) :=
  bidirectional_shortest_path G source target.

(** ** [calculate_dacus_number] *)

Definition calculate_dacus_number (artist_name : value) (G : Graph)
  : outcome (option Z * option (list value)) :=
  try_except
    (if negb (has_node G artist_name) then Return (None, None)
     else if decide (artist_name = reference) then
       Return (Some 0%Z, Some [reference])
     else
       path ← shortest_path G artist_name reference;
       let dacus_number := (Z.of_nat (length path) - 1)%Z in
       Return (Some dacus_number, Some path))
    NetworkXNoPath
    (Return (None, None)).

(** ** Python strings: [str.strip] and [str.split] *)

(** [str.isspace] on one character. A character of a Rocq string is a code
    point below 256; among these Python counts as white space the code
    points 9 to 13, 28 to 32, 133 and 160. *)
Definition str_isspace (c : ascii) : bool :=
  let n := nat_of_ascii c in
  ((9 <=? n) && (n <=? 13) || (28 <=? n) && (n <=? 32)
   || (n =? 133) || (n =? 160))%nat.

Fixpoint str_lstrip (s : string) : string :=
  match s with
  | "" => ""
  | String c s' => if str_isspace c then str_lstrip s' else s
  end.

Definition str_rstrip (s : string) : string :=
  String.rev (str_lstrip (String.rev s)).

(** [s.strip()] *)
Definition str_strip (s : string) : string := str_rstrip (str_lstrip s).

(** [s.split(sep)] for a separator that is not empty: the pieces between
    the occurrences of [sep], found from left to right. [skip] counts the
    characters of a separator that still have to be passed over and [cur]
    holds the piece read so far, last character first. *)
Fixpoint str_split_go (sep : string) (skip : nat) (cur : string) (s : string)
  : list string :=
  match s with
  | "" => [String.rev cur]
  | String c s' =>
      match skip with
      | S k => str_split_go sep k cur s'
      | 0 =>
          if String.prefix sep s then
            String.rev cur :: str_split_go sep (String.length sep - 1) "" s'
          else str_split_go sep 0 (String c cur) s'
      end
  end.

Definition str_split (sep s : string) : list string := str_split_go sep 0 "" s.

(** ** pandas: tables and the [Series] methods that [build_graph] calls *)

Record DataFrame := {
  columns : list string;
  rows : list (list value)
}.

(** [name in df.columns] *)
Definition has_column (name : string) (df : DataFrame) : bool :=
  bool_decide (name ∈ columns df).

Fixpoint column_index (name : string) (cols : list string) : option nat :=
  match cols with
  | [] => None
  | c :: cols' =>
      if decide (name = c) then Some 0 else S <$> column_index name cols'
  end.

(** [row[name]]; a row that is too short is padded with missing values. *)
Definition cell (df : DataFrame) (name : string) (row : list value) : value :=
  match column_index name (columns df) with
  | Some i => default VNaN (row !! i)
  | None => VNaN
  end.

(** [df[name]] *)
Definition column (name : string) (df : DataFrame) : list value :=
  cell df name <$> rows df.

(** [series.isin(values)] *)
Definition series_isin (values : list value) (series : list value) : list bool :=
  (λ v, bool_decide (v ∈ values)) <$> series.

(** [series == s] *)
Definition series_eq (s : string) (series : list value) : list bool :=
  (λ v, bool_decide (v = VStr s)) <$> series.

(** [df[mask]] *)
Definition df_mask (df : DataFrame) (mask : list bool) : DataFrame :=
  {| columns := columns df;
     rows := (filter (λ rm, Is_true rm.2) (zip (rows df) mask)).*1 |}.

(** [series.dropna()] *)
Definition dropna (series : list value) : list value :=
  filter (λ v, v ≠ VNaN) series.

(** [series.str.split(sep)]: a string becomes the list of its pieces, a
    missing value stays missing ([None]). *)
Definition series_str_split (sep : string) (series : list value)
  : list (option (list string)) :=
  (λ v, match v with VStr s => Some (str_split sep s) | VNaN => None end)
    <$> series.

(** [series.explode()]: one entry per element of a list; an empty list and a
    missing value give one missing value. *)
Definition explode (series : list (option (list string))) : list value :=
  mjoin ((λ o, match o with
               | Some [] | None => [VNaN]
               | Some l => VStr <$> l
               end) <$> series).

(** [series.str.strip()] *)
Definition series_str_strip (series : list value) : list value :=
  (λ v, match v with VStr s => VStr (str_strip s) | VNaN => VNaN end)
    <$> series.

(** ** [build_graph]

    The definitions of this section are for tables whose columns are of
    dtype [object], so that every call of [.str] succeeds: they give the
    graph that [build_graph] returns when it returns. When it raises
    instead is the matter of [Typed.build_graph] below. *)

Section build_graph.
(** [set(series)] keeps one copy of every value; the order in which a
    Python set is then iterated is not fixed by the language, so it is a
    parameter: [set_order l] lists the distinct values of [l] in the
    order of iteration. *)
Variable set_order : list value → list value.

(** The artists of the rows selected by [mask], as in
    [df[mask]['Artist Name(s)'].str.split(',').explode().str.strip()]. *)
Definition artist_names (df : DataFrame) (mask : list bool) : list value :=
  series_str_strip (explode (series_str_split ","
    (column "Artist Name(s)" (df_mask df mask)))).

Definition liked_artists (df : DataFrame) : list value :=
  if has_column "playlist_origin" df && has_column "Artist Name(s)" df then
    set_order (artist_names df
      (series_isin [VStr "df_liked"; VStr "df_fav_albums"]
         (column "playlist_origin" df)))
  else [].

Definition similar_artists_liked (df_liked_similar : DataFrame) : list value :=
  if has_column "Similar Artists" df_liked_similar then
    set_order (series_str_strip (explode (series_str_split ","
      (dropna (column "Similar Artists" df_liked_similar)))))
  else [].

Definition nmf_artists (df : DataFrame) : list value :=
  set_order (artist_names df (series_eq "df_nmf" (column "playlist_origin" df))).

Definition not_liked_artists (df : DataFrame) : list value :=
  set_order (artist_names df
    (series_eq "df_not_liked" (column "playlist_origin" df))).

(** The rounds of [for s in similar: G.add_edge(artist, s, weight=1.0)]. *)
Definition add_similar_edges (artist : value) (similar : list string)
    (G : Graph) : Graph :=
  foldl (λ G s, add_edge artist (VStr s) [("weight", ANum 1)] G) G similar.

(** One round of [for _, row in df_liked_similar.iterrows(): ...]. *)
Definition add_row_edges (df_liked_similar : DataFrame) (G : Graph)
    (row : list value) : Graph :=
  let artist := cell df_liked_similar "Artist" row in
  match cell df_liked_similar "Similar Artists" row with
  | VStr similar_artists =>
      let similar := str_split ", " similar_artists in
      add_similar_edges artist similar G
  | VNaN => G
  end.

(** The block under [# Add edges based on similarity (from liked)]. *)
Definition add_similarity_edges (df_liked_similar : DataFrame) (G : Graph)
  : Graph :=
  if has_column "Artist" df_liked_similar
     && has_column "Similar Artists" df_liked_similar then
    foldl (add_row_edges df_liked_similar) G (rows df_liked_similar)
  else G.

Definition build_graph (df df_liked_similar : DataFrame) (include_nmf : bool)
  : Graph :=
  let G := empty_graph in
  (* Add nodes for liked artists *)
  let G := add_nodes_from (liked_artists df) [("type", AStr "liked")] G in
  (* Add nodes for similar artists (from liked) *)
  let G := add_nodes_from (similar_artists_liked df_liked_similar)
             [("type", AStr "similar_liked")] G in
  (* Add edges based on similarity (from liked) *)
  let G := add_similarity_edges df_liked_similar G in
  (* Optionally include NMF and not-liked artists (without adding edges) *)
  if include_nmf && has_column "playlist_origin" df
     && has_column "Artist Name(s)" df then
    let G := add_nodes_from (nmf_artists df) [("type", AStr "nmf")] G in
    add_nodes_from (not_liked_artists df) [("type", AStr "not_liked")] G
  else G.
End build_graph.

(** ** The dtype of a column

    pandas keeps a dtype for every column, and a series has the [.str]
    accessor only if its dtype is [object]: on a series of another dtype
    [.str] raises [AttributeError], also when the series has no element.
    A column of strings, and any column of a table without rows, is of
    dtype [object]; a column that [pd.read_csv] reads without a single
    value, every cell missing in one row or more, is of dtype [float64].
    [build_graph] above is the graph that the function returns when both
    columns on which it calls [.str] are of dtype [object]. The
    definitions of this part take, with each table, the names of its
    columns of dtype [float64], whose cells are all missing, and raise
    where pandas raises. *)

(** The columns to which [pd.read_csv] gives the dtype [float64], for a
    file that is read to the table [df]. *)
Definition read_csv_floats (df : DataFrame) : list string :=
  filter (λ c, rows df ≠ [] ∧ Forall (λ v, v = VNaN) (column c df))
    (columns df).

(** [series.str] for a series of the column [name]: a selection of rows
    or [dropna] keep the dtype of the column. *)
Definition str_accessor (floats : list string) (name : string)
    (series : list value) : outcome (list value) :=
  if decide (name ∈ floats) then Raise AttributeError else Return series.

Module Typed.
Section build_graph.
Variable set_order : list value → list value.

(** [df[mask]['Artist Name(s)'].str.split(',').explode().str.strip()]:
    the second [.str] is on a series of lists that [explode] has taken
    apart, which is of dtype [object]. *)
Definition artist_names (df : DataFrame) (df_floats : list string)
    (mask : list bool) : outcome (list value) :=
  series ← str_accessor df_floats "Artist Name(s)"
              (column "Artist Name(s)" (df_mask df mask));
  Return (series_str_strip (explode (series_str_split "," series))).

(** [build_graph(df, df_liked_similar, include_nmf)], for tables with the
    [float64] columns [df_floats] and [similar_floats]. *)
Definition build_graph (df : DataFrame) (df_floats : list string)
    (df_liked_similar : DataFrame) (similar_floats : list string)
    (include_nmf : bool) : outcome Graph :=
  let G := empty_graph in
  (* Add nodes for liked artists *)
  liked_artists ←
    (if has_column "playlist_origin" df && has_column "Artist Name(s)" df then
       names ← artist_names df df_floats
                  (series_isin [VStr "df_liked"; VStr "df_fav_albums"]
                     (column "playlist_origin" df));
       Return (set_order names)
     else Return []);
  let G := add_nodes_from liked_artists [("type", AStr "liked")] G in
  (* Add nodes for similar artists (from liked) *)
  similar_artists_liked ←
    (if has_column "Similar Artists" df_liked_similar then
       series ← str_accessor similar_floats "Similar Artists"
                   (dropna (column "Similar Artists" df_liked_similar));
       Return (set_order
                 (series_str_strip (explode (series_str_split "," series))))
     else Return []);
  let G := add_nodes_from similar_artists_liked
             [("type", AStr "similar_liked")] G in
  (* Add edges based on similarity (from liked) *)
  let G := add_similarity_edges df_liked_similar G in
  (* Optionally include NMF and not-liked artists (without adding edges) *)
  if include_nmf && has_column "playlist_origin" df
     && has_column "Artist Name(s)" df then
    nmf_artists ← artist_names df df_floats
                     (series_eq "df_nmf" (column "playlist_origin" df));
    not_liked_artists ← artist_names df df_floats
                           (series_eq "df_not_liked"
                              (column "playlist_origin" df));
    let G := add_nodes_from (set_order nmf_artists) [("type", AStr "nmf")] G in
    Return (add_nodes_from (set_order not_liked_artists)
              [("type", AStr "not_liked")] G)
  else Return G.
End build_graph.
End Typed.

(** * Vocabulary of the specification *)

(** ** Well-formed graphs

    Every [Graph] that networkx builds keeps its two dictionaries on the
    same keys and, being undirected, stores every edge in both adjacency
    dictionaries. *)

Record graph_wf (G : Graph) : Prop := {
  wf_keys : keys (g_adj G) = keys (g_node G);
  wf_sym : ∀ u v, has_edge G u v → has_edge G v u
}.

(** A test that can be run on a given graph. *)
Definition graph_wfb (G : Graph) : bool :=
  bool_decide (keys (g_adj G) = keys (g_node G))
  && forallb (λ un, forallb (λ v, has_edge G v un.1) (keys un.2)) (g_adj G).

(** The graphs that the calls of networkx in [build_graph] can build. *)
Inductive nx_graph : Graph → Prop :=
  | nx_empty : nx_graph empty_graph
  | nx_add_node G attr n : nx_graph G → nx_graph (add_node attr G n)
  | nx_add_edge G u v attr : nx_graph G → nx_graph (add_edge u v attr G).

(** ** Orders of iteration of a set *)

(** [set_order] iterates a set: every value of the series once. *)
Definition set_order_ok (set_order : list value → list value) : Prop :=
  ∀ l, NoDup (set_order l) ∧ ∀ x, x ∈ set_order l ↔ x ∈ l.

(** One such order: first occurrences, in the order of the series. *)
Definition first_occurrence_order (l : list value) : list value :=
  remove_dups l.

(** Another one: the reverse of it. *)
Definition last_first_order (l : list value) : list value :=
  reverse (remove_dups l).

(** ** Walks, and the trees that the two searches grow *)

(** Consecutive elements of [p] are joined by an edge of [G]. *)
Fixpoint is_walk (G : Graph) (p : list value) : Prop :=
  match p with
  | [] => True
  | x :: p' =>
      match p' with
      | [] => True
      | y :: _ => has_edge G x y ∧ is_walk G p'
      end
  end.

(** There is a path from [a] to [b] in [G]. *)
Definition connected (G : Graph) (a b : value) : Prop :=
  ∃ p, head p = Some a ∧ last p = Some b ∧ is_walk G p.

(** [chain m w l]: following the entries of [m] from [w] visits [l] and
    ends in the entry that holds [None]. *)
Inductive chain (m : gmap value (option value)) : value → list value → Prop :=
  | chain_root r : m !! r = Some None → chain m r [r]
  | chain_step w v l :
      m !! w = Some (Some v) → chain m v l → chain m w (w :: l).

(** The dictionary of one direction of the search is a tree in [G] rooted
    in [root]: from each of its keys the entries lead to [root] along a
    walk without repetition. *)
Definition tree_inv (G : Graph) (root : value)
    (m : gmap value (option value)) : Prop :=
  ∀ w, is_Some (m !! w) →
    has_node G w ∧
    ∃ l, chain m w l ∧ NoDup l ∧ last l = Some root ∧
         (∀ x, x ∈ l → is_Some (m !! x)) ∧ is_walk G l.

Definition disjoint_keys (m1 m2 : gmap value (option value)) : Prop :=
  ∀ x, is_Some (m1 !! x) → m2 !! x = None.

(** [w] is the one key that [m1] and [m2] share. *)
Definition meet_at (m1 m2 : gmap value (option value)) (w : value) : Prop :=
  is_Some (m1 !! w) ∧ is_Some (m2 !! w) ∧
  ∀ x, is_Some (m1 !! x) → is_Some (m2 !! x) → x = w.

(** What [calculate_dacus_number] promises about a path it returns. *)
Definition simple_path (G : Graph) (a b : value) (p : list value) : Prop :=
  head p = Some a ∧ last p = Some b ∧ is_walk G p ∧ NoDup p.

(** ** Distances, for the levels of the search *)

(** A walk of at most [n] edges leads from [a] to [b]. *)
Definition within (G : Graph) (n : nat) (a b : value) : Prop :=
  ∃ p, head p = Some a ∧ last p = Some b ∧ is_walk G p ∧ length p ≤ S n.

(** The dictionary holds every node within [n] edges of [root]. *)
Definition ball_inv (G : Graph) (root : value)
    (m : gmap value (option value)) (n : nat) : Prop :=
  ∀ x, within G n root x → is_Some (m !! x).

(** Every key outside the fringe has all its neighbours among the keys. *)
Definition closed_inv (G : Graph) (m : gmap value (option value))
    (fringe : list value) : Prop :=
  ∀ x, is_Some (m !! x) →
    x ∈ fringe ∨ ∀ y, has_edge G x y → is_Some (m !! y).

(** Following the entries from any key takes at most [n] steps. *)
Definition depth_inv (m : gmap value (option value)) (n : nat) : Prop :=
  ∀ x l, chain m x l → length l ≤ S n.

(** ** Graphs and tables to run the code on *)

(** A small graph to run the search on: Lucy Dacus - Julien Baker -
    boygenius, and Mitski on her own. *)
Definition example_graph : Graph :=
  add_node [] (add_edge (VStr "Julien Baker") (VStr "boygenius") []
    (add_edge (VStr "Lucy Dacus") (VStr "Julien Baker") [] empty_graph))
    (VStr "Mitski").

(** A graph that holds Mitski and nobody else. *)
Definition mitski_graph : Graph := add_node [] empty_graph (VStr "Mitski").

(** ** Nodes, their tags and their degrees; the edges of a table *)

(** [G.nodes[n].get('type')] *)
Definition node_type (G : Graph) (n : value) : option attr_val :=
  dict_get n (g_node G) ≫= dict_get "type".

(** The four category tags of the data model. *)
Definition category_tags : list attr_val :=
  [AStr "liked"; AStr "similar_liked"; AStr "nmf"; AStr "not_liked"].

(** A node name is trimmed when [strip] leaves it as it is. *)
Definition trimmed_name (n : value) : Prop :=
  ∃ s, n = VStr s ∧ str_strip s = s.

(** The invariant of the data model: every node is a trimmed name and
    carries one of the four tags. *)
Definition node_invariant (G : Graph) : Prop :=
  ∀ n, has_node G n →
    trimmed_name n ∧ ∃ t, node_type G n = Some t ∧ t ∈ category_tags.

(** [G.degree(n)]: the number of neighbours, a loop counted twice. *)
Definition degree (G : Graph) (n : value) : option nat :=
  nbrs ← dict_get n (g_adj G);
  Some (length nbrs + (if dict_in n nbrs then 1 else 0)).

(** [n] is a node with degree 0 that takes part in no edge. *)
Definition isolated (G : Graph) (n : value) : Prop :=
  has_node G n ∧ degree G n = Some 0 ∧
  ∀ y, ¬ has_edge G n y ∧ ¬ has_edge G y n.

(** The pairs that one row of the similarity table joins by an edge. *)
Definition row_pairs (df_liked_similar : DataFrame) (row : list value)
  : list (value * value) :=
  match cell df_liked_similar "Similar Artists" row with
  | VStr similar_artists =>
      (λ s, (cell df_liked_similar "Artist" row, VStr s))
        <$> str_split ", " similar_artists
  | VNaN => []
  end.

(** The pairs that the whole table joins, in the order of the calls of
    [add_edge]. *)
Definition similarity_pairs (df_liked_similar : DataFrame)
  : list (value * value) :=
  if has_column "Artist" df_liked_similar
     && has_column "Similar Artists" df_liked_similar then
    mjoin (row_pairs df_liked_similar <$> rows df_liked_similar)
  else [].

(** [x] is an end of one of the pairs. *)
Definition endpoint (pairs : list (value * value)) (x : value) : Prop :=
  ∃ pr, pr ∈ pairs ∧ (x = pr.1 ∨ x = pr.2).

(** [G.add_edges_from(pairs, **attr)] *)
Definition add_edges_from (pairs : list (value * value)) (attr : attrs)
    (G : Graph) : Graph :=
  foldl (λ G pr, add_edge pr.1 pr.2 attr G) G pairs.

(** The table with the same columns and the rows [rs]. *)
Definition with_rows (df : DataFrame) (rs : list (list value)) : DataFrame :=
  {| columns := columns df; rows := rs |}.

(** The ratings table holds both columns that [build_graph] reads. *)
Definition has_rating_columns (df : DataFrame) : bool :=
  has_column "playlist_origin" df && has_column "Artist Name(s)" df.

(** A table without columns and without rows. *)
Definition empty_table : DataFrame := {| columns := []; rows := [] |}.

(** Tables that lack a column, and one with a missing field. *)
Definition ratings_without_origin : DataFrame :=
  {| columns := ["Artist Name(s)"]; rows := [[VStr "Lucy Dacus"]] |}.

Definition similar_without_list : DataFrame :=
  {| columns := ["Artist"]; rows := [[VStr "Lucy Dacus"]] |}.

Definition similar_without_artist : DataFrame :=
  {| columns := ["Similar Artists"]; rows := [[VStr "Julien Baker"]] |}.

(** A similarity file in which no artist has a list: the header
    [Artist,Similar Artists] and the line [Mitski,]. *)
Definition similar_all_missing : DataFrame :=
  {| columns := ["Artist"; "Similar Artists"]; rows := [[VStr "Mitski"; VNaN]] |}.

Definition similar_with_gap : DataFrame :=
  {| columns := ["Artist"; "Similar Artists"];
     rows := [[VStr "Lucy Dacus"; VStr "Julien Baker"];
              [VStr "Mitski"; VNaN]] |}.

(** The example of the specification: Lucy Dacus is liked; Julien Baker
    and Phoebe Bridgers are similar to her, boygenius to Julien Baker. *)
Definition spec_ratings : DataFrame :=
  {| columns := ["Artist Name(s)"; "playlist_origin"];
     rows := [[VStr "Lucy Dacus"; VStr "df_liked"]] |}.

Definition spec_similar : DataFrame :=
  {| columns := ["Artist"; "Similar Artists"];
     rows := [[VStr "Lucy Dacus"; VStr "Julien Baker, Phoebe Bridgers"];
              [VStr "Julien Baker"; VStr "boygenius"]] |}.

(** Phoebe Bridgers comes from the NMF playlist and is also listed as
    similar to Lucy Dacus. *)
Definition nmf_ratings : DataFrame :=
  {| columns := ["Artist Name(s)"; "playlist_origin"];
     rows := [[VStr "Lucy Dacus"; VStr "df_liked"];
              [VStr "Phoebe Bridgers"; VStr "df_nmf"];
              [VStr "Mitski"; VStr "df_not_liked"]] |}.

Definition nmf_similar : DataFrame :=
  {| columns := ["Artist"; "Similar Artists"];
     rows := [[VStr "Lucy Dacus"; VStr "Phoebe Bridgers"]] |}.

(** A similarity table whose artist is not among the liked ones and whose
    list has a blank before a comma. *)
Definition blank_similar : DataFrame :=
  {| columns := ["Artist"; "Similar Artists"];
     rows := [[VStr "Mitski"; VStr "Japanese Breakfast , Big Thief"]] |}.

(** * The path visualisation of [dacus_game_page]
    (app.py, lines 1470-1483 and 1505-1549)

    The page takes the path that [calculate_dacus_number] returned,
    collects its nodes and up to three neighbours of each, cuts the graph
    down to these nodes and hands the result, with the path, to
    [visualize_artist_network]. *)

(** [list(G.neighbors(n))]: the keys of the adjacency dictionary of [n];
    [None] when [n] is not in the graph, where networkx raises
    [NetworkXError]. *)
Definition neighbors (G : Graph) (n : value) : option (list value) :=
  keys <$> dict_get n (g_adj G).

(** The loop over [path] that collects up to three neighbours of every
    node of the path into the set [context_nodes]. *)
Fixpoint context_nodes (G : Graph) (path : list value)
    (acc : gset value) : option (gset value) :=
  match path with
  | [] => Some acc
  | node :: path' =>
      nbrs ← neighbors G node;
      context_nodes G path' (acc ∪ list_to_set (take 3 nbrs))
  end.

(** [path_nodes.union(context_nodes)] *)
Definition all_viz_nodes (G : Graph) (path : list value) : option (gset value) :=
  ctx ← context_nodes G path ∅;
  Some (list_to_set path ∪ ctx).

(** [G.subgraph(nodes)]: the nodes of [G] that are in [nodes] and the
    edges of [G] between them. The lists follow the order of [G]; the
    order in which networkx iterates the view is that of [subgraph_view]
    below. *)
Definition subgraph (G : Graph) (nodes : gset value) : Graph :=
  {| g_node := filter (λ kv, kv.1 ∈ nodes) (g_node G);
     g_adj := (λ kv, (kv.1, filter (λ kv', kv'.1 ∈ nodes) kv.2))
                <$> filter (λ kv, kv.1 ∈ nodes) (g_adj G) |}.

(** A dictionary of the graph as the view shows it ([FilterAtlas] and
    [FilterAdjacency] of networkx): the entries whose key is in the set
    [nodes]. Iterating it goes through the set when the set has fewer
    than half as many elements as the dictionary, and through the
    dictionary otherwise; [set_iter] is the order in which Python
    iterates the set. *)
Definition filter_atlas {V : Type} (set_iter : gset value → list value)
    (nodes : gset value) (atlas : list (value * V)) : list (value * V) :=
  if 2 * size nodes <? length atlas then
    omap (λ n, (λ v, (n, v)) <$> dict_get n atlas) (set_iter nodes)
  else filter (λ kv, kv.1 ∈ nodes) atlas.

(** [G.subgraph(nodes)] with the dictionaries in the order in which the
    view is iterated: the view keeps the set of the [nodes] that are in
    [G]; the neighbours of a node are filtered by a test without a set
    and keep the order of [G]. *)
Definition subgraph_view (set_iter : gset value → list value) (G : Graph)
    (nodes : gset value) : Graph :=
  let induced_nodes : gset value :=
    filter (λ n, Is_true (dict_in n (g_adj G))) nodes in
  {| g_node := filter_atlas set_iter induced_nodes (g_node G);
     g_adj := (λ kv, (kv.1, filter (λ kv', kv'.1 ∈ induced_nodes) kv.2))
                <$> filter_atlas set_iter induced_nodes (g_adj G) |}.

(** The inner loop of [G.edges()] for the node [n]: the neighbours that
    have not been reported from their own side. *)
Definition edges_of (seen : list value) (n : value) (nbrs : list value)
  : list (value * value) :=
  (λ nbr, (n, nbr)) <$> filter (λ nbr, nbr ∉ seen) nbrs.

(** [G.edges()]: every edge once. *)
Fixpoint edges_go (seen : list value) (adj : list (value * list (value * attrs)))
  : list (value * value) :=
  match adj with
  | [] => []
  | (n, nbrs) :: adj' => edges_of seen n (keys nbrs) ++ edges_go (n :: seen) adj'
  end.

Definition edges (G : Graph) : list (value * value) := edges_go [] (g_adj G).

(** [list(zip(path[:-1], path[1:]))] *)
Fixpoint path_edges (path : list value) : list (value * value) :=
  match path with
  | [] => []
  | x :: path' =>
      match path' with
      | [] => []
      | y :: _ => (x, y) :: path_edges path'
      end
  end.

Section visualize.
(** The coordinates are floating-point numbers that [nx.spring_layout]
    computes; both are parameters here. *)
Variable coord : Type.
Variable spring_layout : Graph → list (value * (coord * coord)).

(** The three kinds of [go.Scatter] of the figure: the grey line of an
    edge, the markers with the names of the nodes, the red line of an edge
    of the path. *)
Inductive trace :=
  | EdgeLine (x0 y0 x1 y1 : coord)
  | NodeMarkers (x y : list coord) (text : list value)
  | PathLine (x0 y0 x1 y1 : coord).

(** [pos[n]] *)
Definition pos_get (pos : list (value * (coord * coord))) (n : value)
  : outcome (coord * coord) :=
  match dict_get n pos with
  | Some xy => Return xy
  | None => Raise KeyError
  end.

(** The loops [for edge in ...] that draw one line per edge. *)
Fixpoint line_traces (line : coord → coord → coord → coord → trace)
    (pos : list (value * (coord * coord))) (es : list (value * value))
  : outcome (list trace) :=
  match es with
  | [] => Return []
  | edge :: es' =>
      '(x0, y0) ← pos_get pos edge.1;
      '(x1, y1) ← pos_get pos edge.2;
      rest ← line_traces line pos es';
      Return (line x0 y0 x1 y1 :: rest)
  end.

(** The loop [for node in G.nodes()] that fills the node trace. *)
Fixpoint node_trace (pos : list (value * (coord * coord))) (nodes : list value)
    (x y : list coord) (text : list value) : outcome trace :=
  match nodes with
  | [] => Return (NodeMarkers x y text)
  | node :: nodes' =>
      '(xn, yn) ← pos_get pos node;
      node_trace pos nodes' (x ++ [xn]) (y ++ [yn]) (text ++ [node])
  end.

(** [visualize_artist_network(G, path)]: the [data] of the figure. *)
Definition visualize_artist_network (G : Graph) (path : list value)
  : outcome (list trace) :=
  let pos := spring_layout G in
  edge_trace ← line_traces EdgeLine pos (edges G);
  node_tr ← node_trace pos (keys (g_node G)) [] [] [];
  path_trace ← line_traces PathLine pos (path_edges path);
  Return (edge_trace ++ [node_tr] ++ path_trace).

End visualize.

(** ** Vocabulary for the figure *)

(** No key occurs twice in the dictionaries of the graph, as in every
    Python dictionary. *)
Definition keys_unique (G : Graph) : Prop := NoDup (keys (g_node G)).

(** [set_iter] iterates a set: every element once. *)
Definition set_iter_ok (set_iter : gset value → list value) : Prop :=
  ∀ X, NoDup (set_iter X) ∧ ∀ x, x ∈ set_iter X ↔ x ∈ X.

(** The layout has a position for exactly the nodes of the graph. *)
Definition layout_ok {coord : Type}
    (spring_layout : Graph → list (value * (coord * coord))) : Prop :=
  ∀ G n, is_Some (dict_get n (spring_layout G)) ↔ has_node G n.

(** The trace [t] is a line of the kind [line]. *)
Definition drawn_with {coord : Type}
    (line : coord → coord → coord → coord → trace coord) (t : trace coord)
  : Prop :=
  ∃ x0 y0 x1 y1, t = line x0 y0 x1 y1.

(** A layout to run the code on: every node at the same place. *)
Definition flat_layout (G : Graph) : list (value * (Z * Z)) :=
  (λ n, (n, (0%Z, 0%Z))) <$> keys (g_node G).

(** * The feedback files
    (app.py, lines 369-532: the definitions of [save_feedback],
    [load_feedback] and [load_public_feedback] that are in force, the
    later ones)

    The functions read a CSV file, compute a frame and write it back. The
    file is seen here through what [os.path.exists] and [pd.read_csv] make
    of it, and a save is the frame [combined_feedback] that it hands to
    [to_csv]. *)

(** The file is not there; or [read_csv] parses it to a frame, here a
    frame of strings and missing values: a file with a column that
    [read_csv] types as numbers or booleans is outside the model; or
    [read_csv] raises, and then [recovered] is what the second attempt of
    the loaders returns, if it returns. *)
Inductive csv_file :=
  | NoFile
  | Readable (df : DataFrame)
  | Unreadable (recovered : option DataFrame).

(** [pd.DataFrame(columns=cols)] *)
Definition empty_frame (cols : list string) : DataFrame :=
  {| columns := cols; rows := [] |}.

(** [df[name]], which raises [KeyError] for a name that is no column. *)
Definition getitem (name : string) (df : DataFrame) : outcome (list value) :=
  if has_column name df then Return (column name df) else Raise KeyError.

(** [series == scalar]: a missing value equals nothing, not even a
    missing value. *)
Definition series_eq_value (scalar : value) (series : list value) : list bool :=
  (λ c, match c, scalar with
        | VStr a, VStr b => bool_decide (a = b)
        | _, _ => false
        end) <$> series.

(** [mask1 & mask2] and [~mask] *)
Definition mask_and (mask1 mask2 : list bool) : list bool :=
  zip_with andb mask1 mask2.

Definition mask_not (mask : list bool) : list bool := negb <$> mask.

(** The cells of [row], a row of [df], under the columns [cols]. *)
Definition realign (df : DataFrame) (cols : list string) (row : list value)
  : list value :=
  (λ c, cell df c row) <$> cols.

(** [pd.concat([a, b], ignore_index=True)]: the columns of [a], then the
    columns that only [b] has; the rows of [a], then the rows of [b],
    every cell under its column name and a missing value where a frame
    lacks a column. *)
Definition df_concat (a b : DataFrame) : DataFrame :=
  let cols := columns a ++ filter (λ c, c ∉ columns a) (columns b) in
  {| columns := cols;
     rows := (realign a cols <$> rows a) ++ (realign b cols <$> rows b) |}.

(** [df.empty]: no rows or no columns. *)
Definition df_empty (df : DataFrame) : bool :=
  bool_decide (rows df = []) || bool_decide (columns df = []).

(** [review if review else ""]: [None] and the empty string give the
    empty string, every other value itself. *)
Definition review_cell (review : option value) : value :=
  match review with
  | None | Some (VStr "") => VStr ""
  | Some v => v
  end.

(** The rows of [df] that are selected by
    [(df['Album Name'] == album_name) & (df['Artist'] == artist)]. *)
Definition album_mask (df : DataFrame) (album_name artist : value)
  : outcome (list bool) :=
  names ← getitem "Album Name" df;
  artists ← getitem "Artist" df;
  Return (mask_and (series_eq_value album_name names)
            (series_eq_value artist artists)).

(** [save_feedback(album_name, artist, feedback, review)]: the frame that
    is written to [feedback/feedback.csv]. Any exception between the read
    and the [concat] is caught, and the new row is written alone. *)
Definition save_feedback (file : csv_file) (album_name artist : value)
    (feedback : string) (review : option value) : DataFrame :=
  let new_feedback :=
    {| columns := ["Album Name"; "Artist"; "Feedback"; "Review"];
       rows := [[album_name; artist; VStr feedback; review_cell review]] |} in
  match file with
  | Readable existing_feedback =>
      match album_mask existing_feedback album_name artist with
      | Return mask =>
          let existing_feedback := df_mask existing_feedback (mask_not mask) in
          df_concat existing_feedback new_feedback
      | _ => new_feedback
      end
  | Unreadable _ => new_feedback
  | NoFile => new_feedback
  end.

(** [save_public_feedback(album_name, artist, feedback, username, review)]:
    the frame that is written to [feedback/public_feedback.csv];
    [timestamp] is the formatted [datetime.now()]. *)
Definition save_public_feedback (file : csv_file) (album_name artist : value)
    (feedback username timestamp : string) (review : option value)
  : DataFrame :=
  let new_feedback :=
    {| columns := ["Album Name"; "Artist"; "Feedback"; "Username";
                   "Timestamp"; "Review"];
       rows := [[album_name; artist; VStr feedback; VStr username;
                 VStr timestamp; review_cell review]] |} in
  match file with
  | Readable existing_feedback => df_concat existing_feedback new_feedback
  | Unreadable _ => new_feedback
  | NoFile => new_feedback
  end.

(** [load_public_feedback()] *)
Definition load_public_feedback (file : csv_file) : DataFrame :=
  match file with
  | Readable df => df
  | Unreadable (Some df) => df
  | Unreadable None | NoFile =>
      empty_frame ["Album Name"; "Artist"; "Feedback"; "Username";
                   "Timestamp"; "Review"]
  end.

(** [series.value_counts().to_dict().get(s, 0)]: how often the string [s]
    occurs in the series. *)
Definition value_count (s : string) (series : list value) : nat :=
  length (filter (λ c, c = VStr s) series).

(** The dictionary that [get_public_feedback_stats] returns. *)
Record feedback_stats := {
  stat_like : nat;
  stat_mid : nat;
  stat_dislike : nat;
  stat_total : nat
}.

(** [get_public_feedback_stats(album_name, artist)] *)
Definition get_public_feedback_stats (file : csv_file)
    (album_name artist : value) : outcome feedback_stats :=
  let public_feedback_df := load_public_feedback file in
  mask ← album_mask public_feedback_df album_name artist;
  let album_feedback := df_mask public_feedback_df mask in
  if df_empty album_feedback then
    Return {| stat_like := 0; stat_mid := 0; stat_dislike := 0; stat_total := 0 |}
  else
    feedback ← getitem "Feedback" album_feedback;
    Return {| stat_like := value_count "like" feedback;
              stat_mid := value_count "mid" feedback;
              stat_dislike := value_count "dislike" feedback;
              stat_total := length (rows album_feedback) |}.

(** ** Vocabulary for the feedback files *)

(** The row carries the key [(album_name, artist)] in [df]. *)
Definition has_key (df : DataFrame) (album_name artist : string)
    (row : list value) : Prop :=
  cell df "Album Name" row = VStr album_name ∧ cell df "Artist" row = VStr artist.

Global Instance has_key_dec df album_name artist row :
  Decision (has_key df album_name artist row).
Proof. unfold has_key. apply _. Defined.

(** The test of one row by [album_mask]. *)
Definition key_test (df : DataFrame) (album artist : value)
    (row : list value) : bool :=
  match cell df "Album Name" row, album with
  | VStr a, VStr b => bool_decide (a = b)
  | _, _ => false
  end &&
  match cell df "Artist" row, artist with
  | VStr a, VStr b => bool_decide (a = b)
  | _, _ => false
  end.

(** A feedback file to run the code on. *)
Definition example_feedback : DataFrame :=
  {| columns := ["Album Name"; "Artist"; "Feedback"; "Review"];
     rows := [[VStr "Historian"; VStr "Lucy Dacus"; VStr "like"; VStr "great"];
              [VStr "Punisher"; VStr "Phoebe Bridgers"; VStr "mid"; VNaN]] |}.

Definition example_public_feedback : DataFrame :=
  {| columns := ["Album Name"; "Artist"; "Feedback"; "Username";
                 "Timestamp"; "Review"];
     rows := [[VStr "Historian"; VStr "Lucy Dacus"; VStr "like";
               VStr "Anonymous"; VStr "2025-01-03 10:00:00"; VNaN];
              [VStr "Historian"; VStr "Lucy Dacus"; VStr "meh";
               VStr "Ann"; VStr "2025-01-04 10:00:00"; VNaN];
              [VStr "Punisher"; VStr "Phoebe Bridgers"; VStr "dislike";
               VStr "Bob"; VStr "2025-01-05 10:00:00"; VStr "no"]] |}.

(** * The prediction files
    (app.py, lines 226-281: [get_all_prediction_files] and
    [load_predictions]; lines 1797-1808 of [main])

    Both functions are cached by [st.cache_data]: what is modelled is one
    run of the body. The folder is seen through the list that [glob.glob]
    returns, in the order in which it returns it, and paths are POSIX
    paths. *)

(** [os.path.basename(path)] *)
Definition basename (path : string) : string :=
  default "" (last (str_split "/" path)).

(** [os.path.basename(file).split('_')[0]] *)
Definition date_str (file : string) : string :=
  default "" (head (str_split "_" (basename file))).

(** [max(files)] on strings: the first of the greatest, [None] for no
    file. *)
Definition str_max (files : list string) : option string :=
  match files with
  | [] => None
  | file :: files =>
      Some (foldl (λ m file, if String.ltb m file then file else m) file files)
  end.

(** [df[name] = v] for a name that is no column of [df]: a new last
    column that holds [v] in every row. *)
Definition assign_column (name : string) (v : value) (df : DataFrame)
  : DataFrame :=
  {| columns := columns df ++ [name];
     rows := (λ row, realign df (columns df) row ++ [v]) <$> rows df |}.

(** The rows whose key is not in [seen] and not the key of an earlier
    row. *)
Fixpoint drop_seen (key : list value → list value) (seen : list (list value))
    (rs : list (list value)) : list (list value) :=
  match rs with
  | [] => []
  | row :: rs =>
      if decide (key row ∈ seen) then drop_seen key seen rs
      else row :: drop_seen key (key row :: seen) rs
  end.

(** [df.drop_duplicates(subset=subset, keep='first')]: two missing values
    count as equal. *)
Definition drop_duplicates (subset : list string) (df : DataFrame)
  : outcome DataFrame :=
  if forallb (λ c, has_column c df) subset then
    Return (with_rows df
              (drop_seen (λ row, (λ c, cell df c row) <$> subset) [] (rows df)))
  else Raise KeyError.

(** What can go wrong in [load_predictions]: [read_csv] raises; a column
    of the subset is missing; the name of the file does not start with a
    date. *)
Inductive load_exn :=
  | ReadCsvError
  | LoadKeyError
  | ValueError.

(** [load_predictions] returns [None], or a pair, or raises. *)
Inductive load_result :=
  | NoPredictions
  | Loaded (predictions_df : DataFrame) (analysis_date : string)
  | LoadRaise (e : load_exn).

(** An entry of [file_dates]: the file, [date_obj] and [formatted_date]. *)
Definition file_date : Type := string * Z * string.

(** [file_dates.sort(key=lambda x: x[1], reverse=True)]: the sort is
    stable, so an entry goes before the entries that are not newer and
    come after it in the list. *)
Fixpoint insert_newest (x : file_date) (sorted : list file_date)
  : list file_date :=
  match sorted with
  | [] => [x]
  | y :: sorted' =>
      if decide (y.1.2 ≤ x.1.2)%Z then x :: sorted
      else y :: insert_newest x sorted'
  end.

Definition sort_newest_first (file_dates : list file_date) : list file_date :=
  foldr insert_newest [] file_dates.

Section prediction_files.
(** [datetime.strptime(s, '%m-%d-%y')], which gives the first moment of a
    day, seen as the number of the day, and [None] where it raises
    [ValueError]; [strftime] with the formats ['%B %d, %Y'] and
    ['%Y-%m-%d']; and [pd.read_csv(path)], [None] where it raises. *)
Variable strptime : string → option Z.
Variable strftime_long strftime_iso : Z → string.
Variable read_csv : string → option DataFrame.

(** [get_all_prediction_files()], for the list [prediction_files] of the
    files that match. *)
Definition get_all_prediction_files (prediction_files : list string)
  : list file_date :=
  match prediction_files with
  | [] => []
  | _ =>
      let file_dates :=
        foldl (λ file_dates file,
                 match strptime (date_str file) with
                 | Some date_obj =>
                     file_dates ++ [(file, date_obj, strftime_long date_obj)]
                 | None => file_dates
                 end) [] prediction_files in
      sort_newest_first file_dates
  end.

(** [load_predictions(file_path)] *)
Definition load_predictions (prediction_files : list string)
    (file_path : option string) : load_result :=
  let file_path :=
    match file_path with
    | Some file_path => Some file_path
    | None => str_max prediction_files
    end in
  match file_path with
  | None => NoPredictions
  | Some file_path =>
      match read_csv file_path with
      | None => LoadRaise ReadCsvError
      | Some predictions_df =>
          let predictions_df :=
            if has_column "playlist_origin" predictions_df then predictions_df
            else assign_column "playlist_origin" (VStr "unknown") predictions_df in
          let predictions_df :=
            if has_column "Artist Name(s)" predictions_df then predictions_df
            else assign_column "Artist Name(s)" (VStr "Unknown Artist")
                   predictions_df in
          match drop_duplicates ["Artist"; "Album Name"] predictions_df with
          | Return predictions_df =>
              match strptime (date_str file_path) with
              | Some date_obj => Loaded predictions_df (strftime_iso date_obj)
              | None => LoadRaise ValueError
              end
          | _ => LoadRaise LoadKeyError
          end
      end
  end.

(** [file_dates[0][0] if file_dates else None] *)
Definition latest_file (file_dates : list file_date) : option string :=
  match file_dates with
  | x :: _ => Some x.1.1
  | [] => None
  end.
End prediction_files.

(** ** Vocabulary for the prediction files *)

(** The key by which [load_predictions] tells albums apart. *)
Definition album_key (df : DataFrame) (row : list value) : list value :=
  [cell df "Artist" row; cell df "Album Name" row].

(** The first row of [df] with the key [k]. *)
Definition first_with_key (df : DataFrame) (k : list value)
  : option (list value) :=
  head (filter (λ row, album_key df row = k) (rows df)).

(** A parser to run the code on: it reads two digits for the month, the
    day and the year, and numbers the days by year, month and day. *)
Definition digit (c : ascii) : option Z :=
  let n := nat_of_ascii c in
  if (48 <=? n) && (n <=? 57) then Some (Z.of_nat (n - 48)) else None.

Definition example_strptime (s : string) : option Z :=
  match s with
  | String m1 (String m2 (String "-" (String d1 (String d2 (String "-"
      (String y1 (String y2 ""))))))) =>
      m1 ← digit m1; m2 ← digit m2; d1 ← digit d1; d2 ← digit d2;
      y1 ← digit y1; y2 ← digit y2;
      Some (((y1 * 10 + y2) * 100 + (m1 * 10 + m2)) * 100 + (d1 * 10 + d2))%Z
  | _ => None
  end.

(** A folder, and the frame of its newest file. *)
Definition example_folder : list string :=
  ["predictions/12-27-24_Album_Recommendations.csv";
   "predictions/notes_Album_Recommendations.csv";
   "predictions/01-03-25_Album_Recommendations.csv"].

Definition example_predictions : DataFrame :=
  {| columns := ["Artist"; "Album Name"; "playlist_origin"];
     rows := [[VStr "Lucy Dacus"; VStr "Historian"; VStr "df_liked"];
              [VStr "Mitski"; VStr "Puberty 2"; VStr "df_nmf"];
              [VStr "Lucy Dacus"; VStr "Historian"; VStr "df_not_liked"]] |}.

Definition example_read_csv (path : string) : option DataFrame :=
  if decide (path = "predictions/01-03-25_Album_Recommendations.csv")
  then Some example_predictions else None.


(** * Facts about dictionaries *)

Section dict_facts.
Context {K V : Type} `{EqDecision K}.
Implicit Types (k : K) (v : V) (d : list (K * V)).

Lemma dict_get_keys k d : is_Some (dict_get k d) ↔ k ∈ keys d.
Proof.
  unfold keys. induction d as [|[k' v'] d IH]; simpl.
  - split; [by intros [? ?]|by intros ?%elem_of_nil].
  - rewrite elem_of_cons. destruct (decide (k = k')) as [->|Hne].
    + split; eauto.
    + rewrite IH. naive_solver.
Qed.

Lemma dict_in_keys k d : dict_in k d ↔ k ∈ keys d.
Proof. unfold dict_in. by rewrite bool_decide_spec, dict_get_keys. Qed.

Lemma dict_get_None_keys k d : dict_get k d = None ↔ k ∉ keys d.
Proof. by rewrite <-dict_get_keys, eq_None_not_Some. Qed.

Lemma dict_get_set_eq k v d : dict_get k (dict_set k v d) = Some v.
Proof.
  induction d as [|[k' v'] d IH]; simpl.
  - by rewrite decide_True.
  - destruct (decide (k = k')) as [->|Hne]; simpl.
    + by rewrite decide_True.
    + by rewrite decide_False.
Qed.

Lemma dict_get_set_ne k k' v d :
  k ≠ k' → dict_get k' (dict_set k v d) = dict_get k' d.
Proof.
  intros Hne. induction d as [|[k0 v0] d IH]; simpl.
  - by rewrite decide_False.
  - destruct (decide (k = k0)) as [->|Hne0]; simpl.
    + by rewrite !decide_False.
    + by rewrite IH.
Qed.

Lemma dict_get_set k k' v d :
  dict_get k' (dict_set k v d) = if decide (k = k') then Some v else dict_get k' d.
Proof.
  destruct (decide (k = k')) as [->|Hne];
    [apply dict_get_set_eq|by apply dict_get_set_ne].
Qed.

Lemma keys_dict_set_old k v d : k ∈ keys d → keys (dict_set k v d) = keys d.
Proof.
  unfold keys. induction d as [|[k' v'] d IH]; simpl.
  - by intros ?%elem_of_nil.
  - intros Hin. destruct (decide (k = k')) as [->|Hne]; simpl; [done|].
    f_equal. apply IH. apply elem_of_cons in Hin. naive_solver.
Qed.

Lemma keys_dict_set_new k v d : k ∉ keys d → keys (dict_set k v d) = keys d ++ [k].
Proof.
  unfold keys. induction d as [|[k' v'] d IH]; simpl; [done|].
  intros Hin. apply not_elem_of_cons in Hin as [Hne Hin].
  rewrite decide_False by done. simpl. f_equal. by apply IH.
Qed.

Lemma elem_of_keys_dict_set k k' v d :
  k' ∈ keys (dict_set k v d) ↔ k' = k ∨ k' ∈ keys d.
Proof.
  rewrite <-!dict_get_keys, dict_get_set.
  destruct (decide (k = k')) as [->|Hne]; [split; eauto|naive_solver].
Qed.
End dict_facts.

Section graph_facts.
Implicit Types (G : Graph) (u v n x y : value).

Lemma has_node_spec G n : has_node G n ↔ n ∈ keys (g_node G).
Proof. apply dict_in_keys. Qed.

Lemma has_edge_spec G u v :
  has_edge G u v ↔
  ∃ nbrs, dict_get u (g_adj G) = Some nbrs ∧ v ∈ keys nbrs.
Proof.
  unfold has_edge. destruct (dict_get u (g_adj G)) as [nbrs|].
  - rewrite dict_in_keys. naive_solver.
  - split; [done|]. by intros (? & ? & ?).
Qed.

Lemma has_edge_node_l G u v : graph_wf G → has_edge G u v → has_node G u.
Proof.
  intros [Hk _] (nbrs & Hu & _)%has_edge_spec.
  apply has_node_spec. rewrite <-Hk. apply dict_get_keys. eauto.
Qed.

Lemma has_edge_node_r G u v : graph_wf G → has_edge G u v → has_node G v.
Proof. intros HG Huv. eapply has_edge_node_l; [done|]. by apply HG. Qed.

Lemma has_node_adj G n :
  graph_wf G → has_node G n → is_Some (dict_get n (g_adj G)).
Proof.
  intros [Hk _] Hn%has_node_spec. apply dict_get_keys. by rewrite Hk.
Qed.

Lemma graph_wfb_sound G : graph_wfb G = true → graph_wf G.
Proof.
  unfold graph_wfb. intros [Hk Hs]%andb_true_iff.
  apply bool_decide_eq_true in Hk. split; [done|].
  intros u v (nbrs & Hu & Hv)%has_edge_spec.
  rewrite forallb_forall in Hs.
  assert (In (u, nbrs) (g_adj G)) as Hin.
  { clear -Hu. induction (g_adj G) as [|[k w] d IH]; simpl in *; [done|].
    destruct (decide (u = k)) as [->|]; [left; congruence|right; auto]. }
  specialize (Hs _ Hin). simpl in Hs. rewrite forallb_forall in Hs.
  apply Is_true_true, Hs. by apply list_elem_of_In.
Qed.

Lemma empty_graph_wf : graph_wf empty_graph.
Proof. split; [done|]. intros u v []. Qed.

(** ** [ensure_node] *)

Lemma has_node_ensure_node G n x :
  has_node (ensure_node n G) x ↔ x = n ∨ has_node G x.
Proof.
  unfold ensure_node. destruct (has_node G n) eqn:Hn.
  - split; [auto|]. intros [->|]; [|done]. by apply Is_true_true.
  - rewrite !has_node_spec. simpl. by rewrite elem_of_keys_dict_set.
Qed.

Lemma has_edge_ensure_node G n x y :
  graph_wf G → has_edge (ensure_node n G) x y ↔ has_edge G x y.
Proof.
  intros HG. unfold ensure_node. destruct (has_node G n) eqn:Hn; [done|].
  unfold has_edge. simpl. rewrite dict_get_set.
  destruct (decide (n = x)) as [->|]; [|done].
  assert (dict_get x (g_adj G) = None) as ->; [|done].
  apply dict_get_None_keys. rewrite (wf_keys _ HG), <-has_node_spec.
  rewrite Hn. by intros [].
Qed.

Lemma ensure_node_wf G n : graph_wf G → graph_wf (ensure_node n G).
Proof.
  intros HG. split.
  - unfold ensure_node. destruct (has_node G n) eqn:Hn; [apply HG|]. simpl.
    assert (n ∉ keys (g_node G)) by (rewrite <-has_node_spec, Hn; auto).
    rewrite !keys_dict_set_new, (wf_keys _ HG); [done..|].
    by rewrite (wf_keys _ HG).
  - intros u v. rewrite !has_edge_ensure_node by done. apply HG.
Qed.

(** ** [add_nodes_from] *)

Lemma has_node_add_node G attr n x :
  has_node (add_node attr G n) x ↔ x = n ∨ has_node G x.
Proof.
  unfold add_node. rewrite has_node_spec. simpl.
  rewrite elem_of_keys_dict_set, <-has_node_spec, has_node_ensure_node.
  naive_solver.
Qed.

Lemma has_edge_add_node G attr n x y :
  graph_wf G → has_edge (add_node attr G n) x y ↔ has_edge G x y.
Proof. intros HG. by rewrite <-(has_edge_ensure_node G n x y). Qed.

Lemma add_node_wf G attr n : graph_wf G → graph_wf (add_node attr G n).
Proof.
  intros HG. pose proof (ensure_node_wf G n HG) as H1. split.
  - unfold add_node. simpl. rewrite keys_dict_set_old; [apply H1|].
    apply has_node_spec, has_node_ensure_node. by left.
  - intros u v. rewrite !has_edge_add_node by done. apply HG.
Qed.

Lemma add_nodes_from_wf nodes attr G :
  graph_wf G → graph_wf (add_nodes_from nodes attr G).
Proof.
  unfold add_nodes_from. revert G.
  induction nodes as [|n nodes IH]; intros G HG; simpl; [done|].
  by apply IH, add_node_wf.
Qed.

Lemma has_node_add_nodes_from nodes attr G x :
  has_node (add_nodes_from nodes attr G) x ↔ x ∈ nodes ∨ has_node G x.
Proof.
  unfold add_nodes_from. revert G.
  induction nodes as [|n nodes IH]; intros G; simpl.
  - rewrite elem_of_nil. naive_solver.
  - rewrite IH, has_node_add_node, elem_of_cons. naive_solver.
Qed.

Lemma has_edge_add_nodes_from nodes attr G x y :
  graph_wf G → has_edge (add_nodes_from nodes attr G) x y ↔ has_edge G x y.
Proof.
  unfold add_nodes_from. revert G.
  induction nodes as [|n nodes IH]; intros G HG; simpl; [done|].
  rewrite IH by by apply add_node_wf. by apply has_edge_add_node.
Qed.
End graph_facts.

Section add_edge_facts.
Implicit Types (G : Graph) (u v n x y : value).

Lemma keys_default_get (adj : list (value * list (value * attrs))) x y :
  y ∈ keys (default [] (dict_get x adj)) ↔
  ∃ nbrs, dict_get x adj = Some nbrs ∧ y ∈ keys nbrs.
Proof.
  destruct (dict_get x adj) as [nbrs|]; simpl.
  - naive_solver.
  - split; [by intros ?%elem_of_nil|by intros (? & ? & ?)].
Qed.

Lemma has_node_add_edge G u v attr x :
  has_node (add_edge u v attr G) x ↔ x = u ∨ x = v ∨ has_node G x.
Proof.
  unfold add_edge. rewrite has_node_spec. simpl.
  rewrite <-has_node_spec, !has_node_ensure_node. naive_solver.
Qed.

Lemma has_edge_add_edge G u v attr x y :
  graph_wf G →
  has_edge (add_edge u v attr G) x y ↔
  has_edge G x y ∨ (x = u ∧ y = v) ∨ (x = v ∧ y = u).
Proof.
  intros HG.
  pose proof (ensure_node_wf _ v (ensure_node_wf _ u HG)) as HG1.
  assert (has_edge G x y ↔ has_edge (ensure_node v (ensure_node u G)) x y)
    as ->.
  { rewrite has_edge_ensure_node by by apply ensure_node_wf.
    by rewrite has_edge_ensure_node. }
  unfold add_edge.
  set (G1 := ensure_node v (ensure_node u G)) in *.
  rewrite !has_edge_spec. simpl.
  set (adj_u := default [] (dict_get u (g_adj G1))).
  set (datadict := attrs_update _ _).
  set (adj1 := dict_set u (dict_set v datadict adj_u) (g_adj G1)).
  assert (∀ z, z ∈ keys adj_u ↔ has_edge G1 u z) as Hadj_u.
  { intros z. unfold adj_u. by rewrite keys_default_get, has_edge_spec. }
  rewrite dict_get_set. destruct (decide (v = x)) as [<-|Hvx].
  - transitivity (y = u ∨ y ∈ keys (default [] (dict_get v adj1))).
    { split.
      - intros (nbrs & [= <-] & Hy). by apply elem_of_keys_dict_set in Hy.
      - intros Hy. eexists; split; [done|]. by apply elem_of_keys_dict_set. }
    unfold adj1 at 1. rewrite dict_get_set.
    destruct (decide (u = v)) as [->|Huv]; simpl.
    + rewrite elem_of_keys_dict_set, Hadj_u, has_edge_spec. naive_solver.
    + rewrite keys_default_get. naive_solver.
  - unfold adj1. rewrite dict_get_set.
    destruct (decide (u = x)) as [<-|Hux].
    + transitivity (y = v ∨ y ∈ keys adj_u).
      { split.
        - intros (nbrs & [= <-] & Hy). by apply elem_of_keys_dict_set in Hy.
        - intros Hy. eexists; split; [done|]. by apply elem_of_keys_dict_set. }
      rewrite Hadj_u, has_edge_spec. naive_solver.
    + naive_solver.
Qed.

Lemma add_edge_wf G u v attr : graph_wf G → graph_wf (add_edge u v attr G).
Proof.
  intros HG. split.
  - pose proof (ensure_node_wf _ v (ensure_node_wf _ u HG)) as HG1.
    unfold add_edge. simpl.
    set (G1 := ensure_node v (ensure_node u G)) in *.
    assert (u ∈ keys (g_adj G1)) as Hu.
    { rewrite (wf_keys _ HG1), <-has_node_spec. unfold G1.
      rewrite !has_node_ensure_node. auto. }
    assert (v ∈ keys (g_adj G1)) as Hv.
    { rewrite (wf_keys _ HG1), <-has_node_spec. unfold G1.
      rewrite !has_node_ensure_node. auto. }
    rewrite keys_dict_set_old.
    + rewrite keys_dict_set_old by done. apply HG1.
    + by rewrite keys_dict_set_old.
  - intros x y. rewrite !has_edge_add_edge by done.
    intros [Hxy|[[-> ->]|[-> ->]]]; [|auto..]. left. by apply HG.
Qed.
End add_edge_facts.

Section walk_facts.
Variable G : Graph.
Implicit Types (p l : list value) (x y w : value).

Lemma is_walk_cons x y l :
  is_walk G (x :: y :: l) ↔ has_edge G x y ∧ is_walk G (y :: l).
Proof. done. Qed.

Lemma is_walk_tail x l : is_walk G (x :: l) → is_walk G l.
Proof. destruct l; [done|]. by intros [_ ?]. Qed.

Lemma is_walk_join l1 w l2 :
  is_walk G (l1 ++ [w]) → is_walk G (w :: l2) → is_walk G (l1 ++ w :: l2).
Proof.
  induction l1 as [|x l1 IH]; [done|]. intros H1 H2.
  destruct l1 as [|y l1]; simpl in *.
  - split; [apply H1|done].
  - split; [apply H1|]. apply IH; [apply H1|done].
Qed.

Lemma is_walk_snoc l x y :
  is_walk G (l ++ [x]) → has_edge G x y → is_walk G ((l ++ [x]) ++ [y]).
Proof.
  intros Hl Hxy. rewrite <-app_assoc. simpl. by apply is_walk_join.
Qed.

Lemma is_walk_reverse l :
  (∀ u v, has_edge G u v → has_edge G v u) → is_walk G l → is_walk G (reverse l).
Proof.
  intros Hsym. induction l as [|x l IH]; [done|].
  intros Hl. rewrite reverse_cons. destruct l as [|y l]; [done|].
  destruct Hl as [Hxy Hl]. specialize (IH Hl).
  rewrite reverse_cons in *. apply is_walk_snoc; [done|]. by apply Hsym.
Qed.
End walk_facts.

Section chain_facts.
Implicit Types (m : gmap value (option value)) (l : list value) (w v : value).

Lemma chain_head m w l : chain m w l → head l = Some w.
Proof. by intros []. Qed.

Lemma chain_insert m w l w' o :
  m !! w' = None → chain m w l → chain (<[w' := o]> m) w l.
Proof.
  intros Hw'. induction 1 as [r Hr|w v l Hw _ IH].
  - apply chain_root. rewrite lookup_insert_ne; [done|congruence].
  - apply chain_step with v; [|done].
    rewrite lookup_insert_ne; [done|congruence].
Qed.

Lemma follow_chain m w l fuel :
  chain m w l → length l ≤ fuel → follow fuel m w = Return l.
Proof.
  intros Hc. revert fuel. induction Hc as [r Hr|w v l Hw _ IH]; intros fuel Hf.
  - destruct fuel as [|fuel]; simpl in *; [lia|]. by rewrite Hr.
  - destruct fuel as [|fuel]; simpl in *; [lia|]. rewrite Hw.
    rewrite IH by lia. done.
Qed.

Lemma NoDup_length_size (l : list value) (X : gset value) :
  NoDup l → (∀ x, x ∈ l → x ∈ X) → length l ≤ size X.
Proof.
  intros Hnd Hsub. rewrite <-(size_list_to_set (C:=gset value) l) by done.
  apply subseteq_size. intros x Hx. apply Hsub. by apply elem_of_list_to_set in Hx.
Qed.

Lemma NoDup_reverse (l : list value) : NoDup l → NoDup (reverse l).
Proof. by rewrite reverse_Permutation. Qed.

Lemma size_list_to_set_le (l : list value) :
  size (list_to_set l : gset value) ≤ length l.
Proof.
  induction l as [|x l IH].
  - by rewrite list_to_set_nil, size_empty.
  - rewrite list_to_set_cons, size_union_alt, size_singleton. simpl.
    pose proof (subseteq_size (list_to_set l ∖ {[x]}) (list_to_set l : gset value)
      ltac:(set_solver)). lia.
Qed.
End chain_facts.

(** * The invariants of the bidirectional search *)

Section search_facts.
Variable G : Graph.
Hypothesis HG : graph_wf G.
Implicit Types (m seen other pred succ : gmap value (option value)).
Implicit Types (l ws level fringe : list value) (r v w x : value).

Lemma tree_inv_singleton r : has_node G r → tree_inv G r {[r := None]}.
Proof.
  intros Hr w [o Hw]. apply lookup_singleton_Some in Hw as [<- <-].
  split; [done|]. exists [r]. split_and!.
  - apply chain_root, lookup_singleton_eq.
  - apply NoDup_singleton.
  - done.
  - intros x ->%list_elem_of_singleton. by rewrite lookup_singleton_eq.
  - done.
Qed.

Lemma tree_inv_insert r m v w :
  tree_inv G r m → is_Some (m !! v) → m !! w = None → has_edge G v w →
  tree_inv G r (<[w := Some v]> m).
Proof.
  intros Hinv Hv Hw Hvw x Hx. destruct (decide (x = w)) as [->|Hne].
  - split; [by eapply has_edge_node_r|].
    destruct (Hinv v Hv) as (_ & l & Hc & Hnd & Hlast & Hin & Hwalk).
    pose proof (chain_head _ _ _ Hc) as Hhd.
    destruct l as [|v' l]; simplify_eq/=.
    exists (w :: v :: l). split_and!.
    + apply chain_step with v; [apply lookup_insert_eq|by apply chain_insert].
    + apply NoDup_cons. split; [|done]. intros Hwl%Hin.
      rewrite Hw in Hwl. by destruct Hwl.
    + done.
    + intros y Hy. apply lookup_insert_is_Some.
      apply elem_of_cons in Hy as [->|Hy]; [by left|].
      right. split; [|by apply Hin]. intros ->. apply Hin in Hy.
      rewrite Hw in Hy. by destruct Hy.
    + split; [by apply HG|done].
  - rewrite lookup_insert_ne in Hx by done.
    destruct (Hinv x Hx) as (Hnode & l & Hc & Hnd & Hlast & Hin & Hwalk).
    split; [done|]. exists l. split_and!; [by apply chain_insert|done..| |done].
    intros y Hy%Hin. apply lookup_insert_is_Some'. by right.
Qed.

Lemma disjoint_keys_sym m1 m2 : disjoint_keys m1 m2 → disjoint_keys m2 m1.
Proof.
  intros H x Hx. destruct (m1 !! x) eqn:Hm; [|done].
  rewrite H in Hx by eauto. by destruct Hx.
Qed.

Lemma meet_at_sym m1 m2 w : meet_at m1 m2 w → meet_at m2 m1 w.
Proof. intros (? & ? & H). split_and!; [done..|]. intros x ??. by apply H. Qed.

(** The inner loop keeps the tree, and either meets the other search in a
    single node or keeps the two dictionaries apart; every node it puts
    into the dictionary it also appends to the fringe. *)
Lemma scan_nbrs_spec r v ws seen other fringe :
  tree_inv G r seen → disjoint_keys seen other → is_Some (seen !! v) →
  (∀ w, w ∈ ws → has_edge G v w) →
  (∀ x, x ∈ fringe → is_Some (seen !! x)) →
  match scan_nbrs v ws seen other fringe with
  | Found seen' w => tree_inv G r seen' ∧ meet_at seen' other w
  | Continue seen' fringe' =>
      tree_inv G r seen' ∧ disjoint_keys seen' other ∧
      (∀ x, is_Some (seen !! x) → is_Some (seen' !! x)) ∧
      (∀ x, x ∈ fringe' → is_Some (seen' !! x)) ∧
      size seen' + length fringe = size seen + length fringe'
  end.
Proof.
  revert seen fringe.
  induction ws as [|w ws IH]; intros seen fringe Hinv Hdisj Hv Hws Hfr; simpl.
  { done. }
  assert (has_edge G v w) as Hvw by (apply Hws; left).
  assert (∀ w', w' ∈ ws → has_edge G v w') as Hws' by (intros; apply Hws; by right).
  destruct (seen !! w) as [o|] eqn:Hw.
  - rewrite Hdisj by eauto. by apply IH.
  - assert (tree_inv G r (<[w:=Some v]> seen)) as Hinv'
      by by apply tree_inv_insert.
    destruct (other !! w) as [o|] eqn:How.
    + split; [done|]. split_and!; [by rewrite lookup_insert_eq|by rewrite How|].
      intros x Hx Hox. apply lookup_insert_is_Some in Hx as [Hx | [_ Hx] ]; [done|].
      rewrite Hdisj in Hox by done. by destruct Hox.
    + specialize (IH (<[w:=Some v]> seen) (fringe ++ [w]) Hinv').
      lapply IH.
      2:{ intros x Hx. apply lookup_insert_is_Some in Hx as [<-|[_ Hx]]; auto. }
      clear IH; intros IH. lapply IH.
      2:{ apply lookup_insert_is_Some'. by right. }
      clear IH; intros IH. specialize (IH Hws'). lapply IH.
      2:{ intros x Hx. apply lookup_insert_is_Some'.
          apply elem_of_app in Hx as [Hx|Hx]; [auto|].
          apply list_elem_of_singleton in Hx as ->. auto. }
      clear IH; intros IH.
      destruct (scan_nbrs v ws _ other _) as [seen' w'|seen' fringe']; [done|].
      destruct IH as (? & ? & Hmono & ? & Hsize). split_and!; [done..| |done|].
      * intros x Hx. apply Hmono, lookup_insert_is_Some'. by right.
      * rewrite map_size_insert_None, length_app in Hsize by done.
        simpl in Hsize. lia.
Qed.
(** The outer loop: the same, and no lookup of a neighbourhood fails. *)
Lemma scan_level_spec r level seen other fringe :
  tree_inv G r seen → disjoint_keys seen other →
  (∀ x, x ∈ level → is_Some (seen !! x)) →
  (∀ x, x ∈ fringe → is_Some (seen !! x)) →
  match scan_level (g_adj G) level seen other fringe with
  | Return (Found seen' w) => tree_inv G r seen' ∧ meet_at seen' other w
  | Return (Continue seen' fringe') =>
      tree_inv G r seen' ∧ disjoint_keys seen' other ∧
      (∀ x, is_Some (seen !! x) → is_Some (seen' !! x)) ∧
      (∀ x, x ∈ fringe' → is_Some (seen' !! x)) ∧
      size seen' + length fringe = size seen + length fringe'
  | _ => False
  end.
Proof.
  revert seen fringe.
  induction level as [|v level IH]; intros seen fringe Hinv Hdisj Hlev Hfr; simpl.
  { done. }
  assert (is_Some (seen !! v)) as Hv by (apply Hlev; left).
  destruct (has_node_adj G v HG (proj1 (Hinv v Hv))) as [nbrs Hnbrs].
  rewrite Hnbrs.
  pose proof (scan_nbrs_spec r v (keys nbrs) seen other fringe Hinv Hdisj Hv) as Hn.
  lapply Hn; [clear Hn; intros Hn|].
  2:{ intros w Hw. apply has_edge_spec. eauto. }
  specialize (Hn Hfr).
  destruct (scan_nbrs v (keys nbrs) seen other fringe) as [seen' w|seen' fringe'];
    [done|].
  destruct Hn as (Hinv' & Hdisj' & Hmono & Hfr' & Hsize).
  specialize (IH seen' fringe' Hinv' Hdisj').
  lapply IH; [clear IH; intros IH|].
  2:{ intros x Hx. apply Hmono, Hlev. by right. }
  specialize (IH Hfr').
  destruct (scan_level (g_adj G) level seen' other fringe') as [[s w|s f]| |];
    [done| |done..].
  destruct IH as (? & ? & Hmono' & ? & Hsize').
  split_and!; [done..|auto|done|lia].
Qed.

Lemma tree_inv_size r m : tree_inv G r m → size m ≤ length (g_adj G).
Proof.
  intros Hinv. rewrite <-size_dom.
  trans (size (list_to_set (keys (g_node G)) : gset value)).
  - apply subseteq_size. intros x Hx%elem_of_dom.
    apply elem_of_list_to_set, has_node_spec, Hinv, Hx.
  - etrans; [apply size_list_to_set_le|].
    rewrite <-(wf_keys _ HG). unfold keys. by rewrite length_fmap.
Qed.

(** The [while] loop ends with the trees of both directions meeting in one
    node, or with [NetworkXNoPath]; it runs out of fuel only when it was
    given too little. *)
Lemma search_loop_spec s t fuel pred succ ff rf :
  tree_inv G s pred → tree_inv G t succ → disjoint_keys pred succ →
  (∀ x, x ∈ ff → is_Some (pred !! x)) →
  (∀ x, x ∈ rf → is_Some (succ !! x)) →
  match search_loop fuel (g_adj G) pred succ ff rf with
  | Return (pred', succ', w) =>
      tree_inv G s pred' ∧ tree_inv G t succ' ∧ meet_at pred' succ' w
  | Raise e => e = NetworkXNoPath
  | OutOfFuel => size pred + size succ + fuel ≤ 2 * length (g_adj G)
  end.
Proof.
  revert pred succ ff rf.
  induction fuel as [|fuel IH]; intros pred succ ff rf Hp Hs Hdisj Hff Hrf.
  - pose proof (tree_inv_size _ _ Hp). pose proof (tree_inv_size _ _ Hs).
    destruct ff, rf; simpl; [done..|lia].
  - destruct ff as [|f0 ff]; [by destruct rf|].
    destruct rf as [|r0 rf]; [done|].
    cbn [search_loop].
    destruct (length (f0 :: ff) <=? length (r0 :: rf)).
    + pose proof (scan_level_spec s (f0 :: ff) pred succ [] Hp Hdisj Hff) as H.
      lapply H; [clear H; intros H|by intros ? ?%elem_of_nil].
      destruct (scan_level (g_adj G) (f0 :: ff) pred succ [])
        as [[pred' w|pred' ff']| |]; [| |done..].
      * simpl. by destruct H.
      * simpl. destruct H as (Hp' & Hdisj' & _ & Hff' & Hsize).
        specialize (IH pred' succ ff' (r0 :: rf) Hp' Hs Hdisj' Hff' Hrf).
        destruct ff' as [|f1 ff']; [by destruct fuel|].
        destruct (search_loop fuel _ _ _ _ _) as [[[??]?]| |]; [done..|].
        simpl in *. lia.
    + apply disjoint_keys_sym in Hdisj.
      pose proof (scan_level_spec t (r0 :: rf) succ pred [] Hs Hdisj Hrf) as H.
      lapply H; [clear H; intros H|by intros ? ?%elem_of_nil].
      destruct (scan_level (g_adj G) (r0 :: rf) succ pred [])
        as [[succ' w|succ' rf']| |]; [| |done..].
      * simpl. destruct H as [? ?%meet_at_sym]. done.
      * simpl. destruct H as (Hs' & Hdisj'%disjoint_keys_sym & _ & Hrf' & Hsize).
        specialize (IH pred succ' (f0 :: ff) rf' Hp Hs' Hdisj' Hff Hrf').
        destruct rf' as [|r1 rf']; [by destruct fuel|].
        destruct (search_loop fuel _ _ _ _ _) as [[[??]?]| |]; [done..|].
        simpl in *. lia.
Qed.
Lemma bidirectional_pred_succ_spec s t :
  has_node G s → has_node G t →
  match bidirectional_pred_succ G s t with
  | Return (pred, succ, w) =>
      tree_inv G s pred ∧ tree_inv G t succ ∧ meet_at pred succ w
  | Raise e => e = NetworkXNoPath
  | OutOfFuel => False
  end.
Proof.
  intros Hs Ht. unfold bidirectional_pred_succ.
  destruct (decide (t = s)) as [->|Hne].
  - split_and!; [by apply tree_inv_singleton..|].
    split_and!; [by rewrite lookup_singleton_eq..|].
    by intros x [? [<- _]%lookup_singleton_Some] _.
  - pose proof (search_loop_spec s t (search_fuel G) {[s := None]} {[t := None]}
      [s] [t] (tree_inv_singleton s Hs) (tree_inv_singleton t Ht)) as H.
    lapply H; [clear H; intros H|].
    2:{ intros x [? [<- _]%lookup_singleton_Some].
        by apply lookup_singleton_ne. }
    lapply H; [clear H; intros H|].
    2:{ intros x ->%list_elem_of_singleton. by rewrite lookup_singleton_eq. }
    lapply H; [clear H; intros H|].
    2:{ intros x ->%list_elem_of_singleton. by rewrite lookup_singleton_eq. }
    destruct (search_loop _ _ _ _ _ _) as [[[??]?]| |]; [done..|].
    rewrite !map_size_singleton in H. unfold search_fuel in H. lia.
Qed.

Local Arguments follow : simpl never.

Lemma tree_inv_follow r m w :
  tree_inv G r m → is_Some (m !! w) →
  ∃ l, follow (S (size m)) m w = Return l ∧ chain m w l ∧ NoDup l ∧
       last l = Some r ∧ (∀ x, x ∈ l → is_Some (m !! x)) ∧ is_walk G l.
Proof.
  intros Hinv Hw. destruct (Hinv w Hw) as (_ & l & Hc & Hnd & Hlast & Hin & Hwalk).
  exists l. split_and!; [|done..]. apply follow_chain; [done|].
  rewrite <-size_dom. etrans; [|apply Nat.le_succ_diag_r].
  apply NoDup_length_size; [done|]. intros x Hx. by apply elem_of_dom, Hin.
Qed.

(** [bidirectional_shortest_path] returns a path without repetition from
    [source] to [target], or raises [NodeNotFound] when one of the two is
    not in the graph, or raises [NetworkXNoPath]; nothing else happens. *)
Lemma bidirectional_shortest_path_spec s t :
  match bidirectional_shortest_path G s t with
  | Return p => has_node G s ∧ has_node G t ∧ simple_path G s t p
  | Raise NodeNotFound => ¬ (has_node G s ∧ has_node G t)
  | Raise NetworkXNoPath => has_node G s ∧ has_node G t
  | _ => False
  end.
Proof.
  unfold bidirectional_shortest_path.
  destruct (has_node G s) eqn:Hs; simpl; [|by intros [[] _]].
  destruct (has_node G t) eqn:Ht; simpl; [|by intros [_ []]].
  apply Is_true_true in Hs, Ht.
  pose proof (bidirectional_pred_succ_spec s t Hs Ht) as H.
  destruct (bidirectional_pred_succ G s t) as [[[pred succ] w]|e|]; simpl;
    [|by subst e|done].
  destruct H as (Hp & Hsu & Hwp & Hws & Hmeet).
  destruct (tree_inv_follow s pred w Hp Hwp)
    as (lf & -> & Hcf & Hndf & Hlastf & Hinf & Hwalkf).
  destruct (tree_inv_follow t succ w Hsu Hws)
    as (lb & _ & Hcb & Hndb & Hlastb & Hinb & Hwalkb).
  simpl. pose proof (chain_head _ _ _ Hcf) as Hhd.
  assert (is_walk G (reverse lf)) as Hrev
    by (apply is_walk_reverse; [apply HG|done]).
  inversion Hcb as [r Hr|w0 v lb' Hv Hcb']; subst.
  - rewrite Hr. split_and!; [done..|]. split_and!.
    + by rewrite head_reverse.
    + rewrite last_reverse, Hhd. simpl in Hlastb. congruence.
    + done.
    + by apply NoDup_reverse.
  - rewrite Hv.
    assert (follow (S (size succ)) succ v = Return lb') as ->.
    { apply follow_chain; [done|]. rewrite <-size_dom.
      etrans; [|apply Nat.le_succ_diag_r].
      apply NoDup_cons in Hndb as [_ Hndb].
      apply NoDup_length_size; [done|]. intros x Hx.
      apply elem_of_dom, Hinb. by right. }
    simpl. pose proof (chain_head _ _ _ Hcb') as Hhd'.
    destruct lf as [|w' lf']; simplify_eq/=.
    destruct lb' as [|v' lb']; simplify_eq/=.
    split_and!; [done..|]. split_and!.
    + rewrite reverse_cons, <-app_assoc. simpl.
      rewrite reverse_cons in Hrev.
      destruct (reverse lf') as [|x l] eqn:Hl; simpl.
      * apply (f_equal reverse) in Hl. rewrite reverse_involutive in Hl.
        by subst lf'.
      * rewrite <-(head_reverse (w :: lf')), reverse_cons, Hl in Hlastf. done.
    + rewrite last_app. simpl. by rewrite Hlastb.
    + rewrite reverse_cons, <-app_assoc. simpl.
      rewrite reverse_cons in Hrev. by apply is_walk_join.
    + apply NoDup_app. split_and!.
      * by apply NoDup_reverse.
      * intros x Hx Hx'. rewrite elem_of_reverse in Hx.
        assert (x = w) as ->.
        { apply Hmeet; [by apply Hinf|]. apply Hinb. by right. }
        by apply NoDup_cons in Hndb as [? _].
      * by apply NoDup_cons in Hndb as [_ ?].
Qed.
End search_facts.

(** * [calculate_dacus_number] *)

Example str_split_comma_blank :
  str_split ", " "a, b,, c,  d, " = ["a"; "b,"; "c"; " d"; ""].
Proof. reflexivity. Qed.

Example str_split_comma : str_split "," ",a,,b ," = [""; "a"; ""; "b "; ""].
Proof. reflexivity. Qed.

Example str_strip_blanks : str_strip "  Big Thief  " = "Big Thief".
Proof. reflexivity. Qed.

Example example_graph_julien :
  calculate_dacus_number (VStr "Julien Baker") example_graph
  = Return (Some 1%Z, Some [VStr "Julien Baker"; VStr "Lucy Dacus"]).
Proof. reflexivity. Qed.

(** On a well-formed graph that holds "Lucy Dacus" the call returns: it
    neither raises nor runs out of fuel. *)
Lemma calculate_dacus_number_returns (G : Graph) (a : value) :
  graph_wf G → has_node G reference →
  ∃ r, calculate_dacus_number a G = Return r.
Proof.
  intros HG Href. unfold calculate_dacus_number, shortest_path.
  destruct (has_node G a) eqn:Ha; simpl; [|eauto].
  destruct (decide (a = reference)) as [->|Hne]; simpl; [eauto|].
  pose proof (bidirectional_shortest_path_spec G HG a reference) as H.
  destruct (bidirectional_shortest_path G a reference) as [q|e|]; simpl;
    [eauto| |done].
  destruct e; simpl; [|eauto|done..].
  destruct H. split; [by apply Is_true_true|done].
Qed.

Lemma not_in_graph_null_pair (G : Graph) (a : value) :
  ¬ has_node G a → calculate_dacus_number a G = Return (None, None).
Proof.
  intros Ha. unfold calculate_dacus_number.
  destruct (has_node G a); [by destruct Ha|done].
Qed.

(** C1. Whenever [calculate_dacus_number a G] returns a distance [d] and a
    path [p] (neither of them [None]), the path has [d + 1] elements, its
    consecutive elements are joined by edges of [G], it starts in [a], ends
    in "Lucy Dacus" and repeats no node. *)
Theorem dacus_path_valid (G : Graph) (a : value) (d : Z) (p : list value) :
  graph_wf G →
  calculate_dacus_number a G = Return (Some d, Some p) →
  Z.of_nat (length p) = (d + 1)%Z ∧ is_walk G p ∧
  head p = Some a ∧ last p = Some reference ∧ NoDup p.
Proof.
  intros HG. unfold calculate_dacus_number, shortest_path.
  destruct (has_node G a) eqn:Ha; simpl; [|done].
  destruct (decide (a = reference)) as [->|Hne]; simpl.
  - intros [= <- <-]. split_and!; try done. apply NoDup_singleton.
  - pose proof (bidirectional_shortest_path_spec G HG a reference) as H.
    destruct (bidirectional_shortest_path G a reference) as [q|e|]; simpl.
    + intros [= <- <-]. destruct H as (_ & _ & Hhd & Hlast & Hwalk & Hnd).
      split_and!; [lia|done..].
    + by destruct e.
    + done.
Qed.

Lemma dacus_path_valid_witness :
  let p := [VStr "boygenius"; VStr "Julien Baker"; VStr "Lucy Dacus"] in
  Z.of_nat (length p) = (2 + 1)%Z ∧ is_walk example_graph p ∧
  head p = Some (VStr "boygenius") ∧ last p = Some reference ∧ NoDup p.
Proof.
  apply (dacus_path_valid example_graph (VStr "boygenius") 2).
  - apply graph_wfb_sound. reflexivity.
  - reflexivity.
Defined.

(** C2, as the code has it. A query for "Lucy Dacus" herself returns
    distance 0 and the path of that single name when she is a node of the
    graph. *)
Theorem dacus_reference_in_graph (G : Graph) :
  has_node G reference →
  calculate_dacus_number reference G = Return (Some 0%Z, Some [reference]).
Proof.
  intros Href%Is_true_true. unfold calculate_dacus_number.
  rewrite Href. reflexivity.
Qed.

Lemma dacus_reference_in_graph_witness :
  calculate_dacus_number reference example_graph
  = Return (Some 0%Z, Some [reference]).
Proof. apply dacus_reference_in_graph. exact I. Defined.

(** C2 as stated fails: the membership test comes first, so in a graph
    without "Lucy Dacus" the query for her returns the null pair. *)
Lemma dacus_reference_not_in_graph :
  calculate_dacus_number reference empty_graph = Return (None, None) ∧
  calculate_dacus_number reference empty_graph
  ≠ Return (Some 0%Z, Some [reference]).
Proof. split; [reflexivity|discriminate]. Qed.

(** C3. An artist that is not a node of the graph gets the null pair. *)
Theorem dacus_unknown_artist (G : Graph) (a : value) :
  ¬ has_node G a → calculate_dacus_number a G = Return (None, None).
Proof. apply not_in_graph_null_pair. Qed.

Lemma dacus_unknown_artist_witness :
  calculate_dacus_number (VStr "Phoebe Bridgers") example_graph
  = Return (None, None).
Proof. apply dacus_unknown_artist. intros []. Defined.

(** C4, as the code has it. In a graph that holds "Lucy Dacus", an artist
    that is a node but has no path to her gets the null pair: the call
    returns, it does not raise, and its value is the one an unknown artist
    gets. *)
Theorem dacus_disconnected_artist (G : Graph) (a : value) :
  graph_wf G → has_node G a → has_node G reference →
  ¬ connected G a reference →
  calculate_dacus_number a G = Return (None, None) ∧
  ∀ b, ¬ has_node G b →
    calculate_dacus_number b G = calculate_dacus_number a G.
Proof.
  intros HG Ha Href Hnc.
  assert (calculate_dacus_number a G = Return (None, None)) as Hret.
  { unfold calculate_dacus_number, shortest_path.
    rewrite (Is_true_true_1 _ Ha). simpl.
    destruct (decide (a = reference)) as [->|Hne].
    { destruct Hnc. by exists [reference]. }
    pose proof (bidirectional_shortest_path_spec G HG a reference) as H.
    destruct (bidirectional_shortest_path G a reference) as [q|e|]; simpl.
    - destruct H as (_ & _ & Hhd & Hlast & Hwalk & _).
      destruct Hnc. by exists q.
    - destruct e; [by destruct H|done..].
    - done. }
  split; [done|]. intros b Hb. by rewrite Hret, not_in_graph_null_pair.
Qed.

Lemma example_graph_mitski_alone : ¬ connected example_graph (VStr "Mitski") reference.
Proof.
  intros (p & Hhd & Hlast & Hwalk).
  destruct p as [|x [|y p]]; simplify_eq/=.
  by destruct Hwalk as [? _].
Qed.

Lemma dacus_disconnected_artist_witness :
  calculate_dacus_number (VStr "Mitski") example_graph = Return (None, None) ∧
  ∀ b, ¬ has_node example_graph b →
    calculate_dacus_number b example_graph
    = calculate_dacus_number (VStr "Mitski") example_graph.
Proof.
  apply dacus_disconnected_artist.
  - apply graph_wfb_sound. reflexivity.
  - exact I.
  - exact I.
  - exact example_graph_mitski_alone.
Defined.

(** C4 as stated fails when "Lucy Dacus" is no node of the graph: Mitski
    then is a node without a path to her, and the call raises. *)
Lemma dacus_disconnected_no_reference :
  graph_wf mitski_graph ∧ has_node mitski_graph (VStr "Mitski") ∧
  ¬ connected mitski_graph (VStr "Mitski") reference ∧
  calculate_dacus_number (VStr "Mitski") mitski_graph = Raise NodeNotFound ∧
  calculate_dacus_number (VStr "Mitski") mitski_graph ≠ Return (None, None).
Proof.
  split_and!.
  - apply graph_wfb_sound. reflexivity.
  - exact I.
  - intros (p & Hhd & Hlast & Hwalk).
    destruct p as [|x [|y p]]; simplify_eq/=.
    by destruct Hwalk as [? _].
  - reflexivity.
  - discriminate.
Qed.

(** C10. When the artist is a node other than "Lucy Dacus" and "Lucy
    Dacus" is not a node, the call raises [NodeNotFound]: the handler for
    [NetworkXNoPath] does not catch it, and no null pair is returned. *)
Theorem dacus_reference_missing_raises (G : Graph) (a : value) :
  has_node G a → a ≠ reference → ¬ has_node G reference →
  calculate_dacus_number a G = Raise NodeNotFound.
Proof.
  intros Ha Hne Href.
  unfold calculate_dacus_number, shortest_path, bidirectional_shortest_path.
  rewrite (Is_true_true_1 _ Ha). simpl. rewrite decide_False by done.
  destruct (has_node G reference); [by destruct Href|done].
Qed.

Lemma dacus_reference_missing_raises_witness :
  calculate_dacus_number (VStr "Mitski") mitski_graph = Raise NodeNotFound.
Proof.
  apply dacus_reference_missing_raises.
  - exact I.
  - discriminate.
  - intros [].
Defined.

(** * [build_graph] *)

(** Every graph built through networkx is well formed. *)
Lemma nx_graph_wf (G : Graph) : nx_graph G → graph_wf G.
Proof.
  induction 1; [apply empty_graph_wf|by apply add_node_wf|by apply add_edge_wf].
Qed.

Section add_edges_from_facts.
Implicit Types (G : Graph) (pairs : list (value * value)) (x y : value).

Lemma add_edges_from_app pairs1 pairs2 attr G :
  add_edges_from (pairs1 ++ pairs2) attr G
  = add_edges_from pairs2 attr (add_edges_from pairs1 attr G).
Proof. apply foldl_app. Qed.

Lemma add_edges_from_wf pairs attr G :
  graph_wf G → graph_wf (add_edges_from pairs attr G).
Proof.
  unfold add_edges_from. revert G.
  induction pairs as [|pr pairs IH]; intros G HG; simpl; [done|].
  by apply IH, add_edge_wf.
Qed.

Lemma has_node_add_edges_from pairs attr G x :
  has_node (add_edges_from pairs attr G) x ↔ has_node G x ∨ endpoint pairs x.
Proof.
  unfold add_edges_from, endpoint. revert G.
  induction pairs as [|pr pairs IH]; intros G; simpl.
  - split; [auto|]. intros [?|(? & ?%elem_of_nil & _)]; done.
  - rewrite IH, has_node_add_edge. split.
    + intros [[->|[->|?]]|(pr' & ? & ?)]; [right..|by left|right].
      * exists pr. split; [left|auto].
      * exists pr. split; [left|auto].
      * exists pr'. split; [by right|done].
    + intros [?|(pr' & [->|?]%elem_of_cons & Hx)]; [auto| |right; eauto].
      left. destruct Hx; auto.
Qed.

Lemma has_edge_add_edges_from pairs attr G x y :
  graph_wf G →
  has_edge (add_edges_from pairs attr G) x y ↔
  has_edge G x y ∨ (x, y) ∈ pairs ∨ (y, x) ∈ pairs.
Proof.
  unfold add_edges_from. revert G.
  induction pairs as [|[u v] pairs IH]; intros G HG; simpl.
  - rewrite !elem_of_nil. naive_solver.
  - rewrite IH by by apply add_edge_wf.
    rewrite has_edge_add_edge, !elem_of_cons by done. naive_solver.
Qed.
End add_edges_from_facts.

Section build_graph_facts.
Variable set_order : list value → list value.
Implicit Types (G : Graph) (df sim : DataFrame) (x y : value).

Lemma add_similar_edges_pairs artist similar G :
  add_similar_edges artist similar G
  = add_edges_from ((λ s, (artist, VStr s)) <$> similar)
      [("weight", ANum 1)] G.
Proof.
  unfold add_similar_edges, add_edges_from. revert G.
  induction similar as [|s similar IH]; intros G; simpl; [done|]. apply IH.
Qed.

Lemma add_row_edges_pairs sim G row :
  add_row_edges sim G row
  = add_edges_from (row_pairs sim row) [("weight", ANum 1)] G.
Proof.
  unfold add_row_edges, row_pairs.
  destruct (cell sim "Similar Artists" row); [|done].
  apply add_similar_edges_pairs.
Qed.

Lemma add_similarity_edges_pairs sim G :
  add_similarity_edges sim G
  = add_edges_from (similarity_pairs sim) [("weight", ANum 1)] G.
Proof.
  unfold add_similarity_edges, similarity_pairs.
  destruct (has_column "Artist" sim && has_column "Similar Artists" sim);
    [|done].
  revert G. induction (rows sim) as [|row rs IH]; intros G; simpl; [done|].
  by rewrite IH, add_edges_from_app, add_row_edges_pairs.
Qed.

Lemma build_graph_wf df sim include_nmf :
  graph_wf (build_graph set_order df sim include_nmf).
Proof.
  unfold build_graph.
  assert (graph_wf (add_similarity_edges sim
    (add_nodes_from (similar_artists_liked set_order sim)
       [("type", AStr "similar_liked")]
       (add_nodes_from (liked_artists set_order df) [("type", AStr "liked")]
          empty_graph)))) as HG.
  { rewrite add_similarity_edges_pairs.
    apply add_edges_from_wf, add_nodes_from_wf, add_nodes_from_wf,
      empty_graph_wf. }
  destruct (_ && _); [|done]. by do 2 apply add_nodes_from_wf.
Qed.

(** The edges of the graph are the pairs of the similarity table, whatever
    the flag and the order of iteration. *)
Lemma has_edge_build_graph df sim include_nmf x y :
  has_edge (build_graph set_order df sim include_nmf) x y ↔
  (x, y) ∈ similarity_pairs sim ∨ (y, x) ∈ similarity_pairs sim.
Proof.
  unfold build_graph.
  set (G1 := add_nodes_from (similar_artists_liked set_order sim) _ _).
  assert (graph_wf G1) as HG1
    by apply add_nodes_from_wf, add_nodes_from_wf, empty_graph_wf.
  assert (has_edge (add_similarity_edges sim G1) x y ↔
          (x, y) ∈ similarity_pairs sim ∨ (y, x) ∈ similarity_pairs sim) as H.
  { rewrite add_similarity_edges_pairs, has_edge_add_edges_from by done.
    unfold G1. rewrite !has_edge_add_nodes_from
      by (try apply add_nodes_from_wf; apply empty_graph_wf).
    split; [|auto]. by intros [[]|?]. }
  assert (graph_wf (add_similarity_edges sim G1)) as HG2.
  { rewrite add_similarity_edges_pairs. by apply add_edges_from_wf. }
  destruct (_ && _); [|done].
  rewrite !has_edge_add_nodes_from; [done..|by apply add_nodes_from_wf].
Qed.

(** The nodes of the graph. *)
Lemma has_node_build_graph df sim include_nmf x :
  has_node (build_graph set_order df sim include_nmf) x ↔
  x ∈ liked_artists set_order df ∨
  x ∈ similar_artists_liked set_order sim ∨
  endpoint (similarity_pairs sim) x ∨
  (include_nmf && has_rating_columns df ∧
   (x ∈ nmf_artists set_order df ∨ x ∈ not_liked_artists set_order df)).
Proof.
  unfold build_graph, has_rating_columns.
  set (G1 := add_nodes_from (similar_artists_liked set_order sim) _ _).
  assert (has_node (add_similarity_edges sim G1) x ↔
          x ∈ liked_artists set_order df ∨
          x ∈ similar_artists_liked set_order sim ∨
          endpoint (similarity_pairs sim) x) as H.
  { rewrite add_similarity_edges_pairs, has_node_add_edges_from.
    unfold G1. rewrite !has_node_add_nodes_from.
    split; [|naive_solver]. intros [[?|[?|[]]]|?]; auto. }
  rewrite andb_assoc.
  destruct (include_nmf && _ && _).
  - rewrite !has_node_add_nodes_from, H. naive_solver.
  - rewrite H. naive_solver.
Qed.
End build_graph_facts.

Section set_order_facts.
Variable set_order : list value → list value.
Hypothesis Hok : set_order_ok set_order.
Implicit Types (l : list value) (a b c : value).

Lemma set_order_perm l : NoDup l → set_order l ≡ₚ l.
Proof.
  intros Hl. destruct (Hok l) as [Hnd Hin]. by apply NoDup_Permutation.
Qed.

Lemma set_order_nil : set_order [] = [].
Proof. apply Permutation_nil_r, set_order_perm, NoDup_nil_2. Qed.

Lemma set_order_1 a : set_order [a] = [a].
Proof. apply Permutation_singleton_r, set_order_perm, NoDup_singleton. Qed.

Lemma set_order_2 a b :
  a ≠ b → set_order [a; b] = [a; b] ∨ set_order [a; b] = [b; a].
Proof.
  intros Hne. apply Permutation_length_2_inv. symmetry.
  apply set_order_perm. apply NoDup_cons. split; [|apply NoDup_singleton].
  by intros ->%list_elem_of_singleton.
Qed.

Lemma Permutation_length_3_inv a b c l :
  l ≡ₚ [a; b; c] →
  l = [a; b; c] ∨ l = [a; c; b] ∨ l = [b; a; c] ∨
  l = [b; c; a] ∨ l = [c; a; b] ∨ l = [c; b; a].
Proof.
  intros Hp. pose proof (Permutation_length Hp) as Hlen.
  destruct l as [|x [|y [|z [|? ?]]]]; simplify_eq/=.
  assert (x ∈ [a; b; c]) as Hx by (rewrite <-Hp; left).
  rewrite !elem_of_cons, elem_of_nil in Hx.
  destruct Hx as [->|[->|[->|[]]]].
  - apply Permutation_cons_inv, symmetry, Permutation_length_2_inv in Hp.
    naive_solver.
  - assert ([a; b; c] ≡ₚ [b; a; c]) as Hsw by apply Permutation_swap.
    rewrite Hsw in Hp.
    apply Permutation_cons_inv, symmetry, Permutation_length_2_inv in Hp.
    naive_solver.
  - assert ([a; b; c] ≡ₚ [c; a; b]) as Hrot.
    { exact (Permutation_app_comm [a; b] [c]). }
    rewrite Hrot in Hp.
    apply Permutation_cons_inv, symmetry, Permutation_length_2_inv in Hp.
    naive_solver.
Qed.

Lemma set_order_3 a b c :
  NoDup [a; b; c] →
  let l := set_order [a; b; c] in
  l = [a; b; c] ∨ l = [a; c; b] ∨ l = [b; a; c] ∨
  l = [b; c; a] ∨ l = [c; a; b] ∨ l = [c; b; a].
Proof. intros Hnd. by apply Permutation_length_3_inv, set_order_perm. Qed.
End set_order_facts.

Lemma first_occurrence_order_ok : set_order_ok first_occurrence_order.
Proof.
  intros l. split; [apply NoDup_remove_dups|]. intros x.
  apply elem_of_remove_dups.
Qed.

Lemma last_first_order_ok : set_order_ok last_first_order.
Proof.
  intros l. unfold last_first_order. split.
  - apply NoDup_reverse, NoDup_remove_dups.
  - intros x. by rewrite elem_of_reverse, elem_of_remove_dups.
Qed.

Section degree_facts.
Variable G : Graph.
Hypothesis HG : graph_wf G.

Lemma degree_no_edge x :
  has_node G x → (∀ y, ¬ has_edge G x y) → degree G x = Some 0.
Proof.
  intros Hx Hno. unfold degree.
  destruct (has_node_adj G x HG Hx) as [nbrs Hnbrs]. rewrite Hnbrs. simpl.
  destruct nbrs as [|[k a] nbrs]; [done|].
  destruct (Hno k). apply has_edge_spec. exists ((k, a) :: nbrs).
  split; [done|]. left.
Qed.

Lemma isolated_no_edge x :
  has_node G x → (∀ y, ¬ has_edge G x y) → isolated G x.
Proof.
  intros Hx Hno. split_and!; [done|by apply degree_no_edge|].
  intros y. split; [apply Hno|]. intros Hyx. by apply (Hno y), HG.
Qed.
End degree_facts.

(** C8. On the example of the specification, whatever the order in which
    the sets are iterated and whatever the flag: boygenius is at distance 2
    along boygenius, Julien Baker, Lucy Dacus, and Mitski, who is not in
    the graph, gets the null pair. *)
Theorem spec_example_distances (set_order : list value → list value)
    (include_nmf : bool) :
  set_order_ok set_order →
  let G := build_graph set_order spec_ratings spec_similar include_nmf in
  calculate_dacus_number (VStr "boygenius") G
  = Return (Some 2%Z,
            Some [VStr "boygenius"; VStr "Julien Baker"; VStr "Lucy Dacus"]) ∧
  calculate_dacus_number (VStr "Mitski") G = Return (None, None).
Proof.
  intros Hok. unfold build_graph.
  change (liked_artists set_order spec_ratings)
    with (set_order [VStr "Lucy Dacus"]).
  change (nmf_artists set_order spec_ratings) with (set_order []).
  change (not_liked_artists set_order spec_ratings) with (set_order []).
  change (similar_artists_liked set_order spec_similar)
    with (set_order
            [VStr "Julien Baker"; VStr "Phoebe Bridgers"; VStr "boygenius"]).
  rewrite (set_order_1 _ Hok), (set_order_nil _ Hok).
  assert (NoDup [VStr "Julien Baker"; VStr "Phoebe Bridgers"; VStr "boygenius"])
    as Hnd by (apply (bool_decide_unpack _); by vm_compute).
  destruct (set_order_3 _ Hok _ _ _ Hnd) as [->|[->|[->|[->|[->| ->]]]]];
    destruct include_nmf; split; vm_compute; reflexivity.
Qed.

Lemma spec_example_distances_witness :
  let G := build_graph first_occurrence_order spec_ratings spec_similar true in
  calculate_dacus_number (VStr "boygenius") G
  = Return (Some 2%Z,
            Some [VStr "boygenius"; VStr "Julien Baker"; VStr "Lucy Dacus"]) ∧
  calculate_dacus_number (VStr "Mitski") G = Return (None, None).
Proof.
  apply (spec_example_distances first_occurrence_order true).
  exact first_occurrence_order_ok.
Defined.

Section order_independence.
Variables set_order1 set_order2 : list value → list value.
Hypothesis Hok1 : set_order_ok set_order1.
Hypothesis Hok2 : set_order_ok set_order2.
Implicit Types (df sim : DataFrame) (x : value).

Lemma set_order_elem l x : x ∈ set_order1 l ↔ x ∈ set_order2 l.
Proof.
  destruct (Hok1 l) as [_ H1]. destruct (Hok2 l) as [_ H2].
  by rewrite H1, H2.
Qed.

Lemma liked_artists_elem df x :
  x ∈ liked_artists set_order1 df ↔ x ∈ liked_artists set_order2 df.
Proof.
  unfold liked_artists. destruct (_ && _); [apply set_order_elem|done].
Qed.

Lemma similar_artists_liked_elem sim x :
  x ∈ similar_artists_liked set_order1 sim
  ↔ x ∈ similar_artists_liked set_order2 sim.
Proof.
  unfold similar_artists_liked.
  destruct (has_column _ _); [apply set_order_elem|done].
Qed.

Lemma nmf_artists_elem df x :
  x ∈ nmf_artists set_order1 df ↔ x ∈ nmf_artists set_order2 df.
Proof. apply set_order_elem. Qed.

Lemma not_liked_artists_elem df x :
  x ∈ not_liked_artists set_order1 df ↔ x ∈ not_liked_artists set_order2 df.
Proof. apply set_order_elem. Qed.
End order_independence.

(** C9. Two calls of [build_graph] on the same tables and the same flag
    give the same set of nodes and the same set of edges, also when the
    two calls iterate their sets in different orders. *)
Theorem build_graph_deterministic
    (set_order1 set_order2 : list value → list value)
    (df df_liked_similar : DataFrame) (include_nmf : bool) :
  set_order_ok set_order1 → set_order_ok set_order2 →
  let G1 := build_graph set_order1 df df_liked_similar include_nmf in
  let G2 := build_graph set_order2 df df_liked_similar include_nmf in
  (∀ x, has_node G1 x ↔ has_node G2 x) ∧
  (∀ x y, has_edge G1 x y ↔ has_edge G2 x y).
Proof.
  intros Hok1 Hok2. split.
  - intros x. rewrite !has_node_build_graph.
    rewrite (liked_artists_elem _ _ Hok1 Hok2).
    rewrite (similar_artists_liked_elem _ _ Hok1 Hok2).
    rewrite (nmf_artists_elem _ _ Hok1 Hok2).
    by rewrite (not_liked_artists_elem _ _ Hok1 Hok2).
  - intros x y. by rewrite !has_edge_build_graph.
Qed.

Lemma build_graph_deterministic_witness :
  let G1 := build_graph first_occurrence_order nmf_ratings spec_similar true in
  let G2 := build_graph last_first_order nmf_ratings spec_similar true in
  (∀ x, has_node G1 x ↔ has_node G2 x) ∧
  (∀ x y, has_edge G1 x y ↔ has_edge G2 x y).
Proof.
  apply build_graph_deterministic.
  - exact first_occurrence_order_ok.
  - exact last_first_order_ok.
Defined.

(** C6, as the code has it. With the flag set and both rating columns
    present, every artist of the NMF playlist and every not-liked artist is
    a node of the graph, and it is isolated exactly when it is not an end
    of an edge of the similarity table: the step adds nodes and no edge. *)
Theorem nmf_artists_isolated (set_order : list value → list value)
    (df df_liked_similar : DataFrame) (x : value) :
  has_rating_columns df →
  x ∈ nmf_artists set_order df ∨ x ∈ not_liked_artists set_order df →
  let G := build_graph set_order df df_liked_similar true in
  has_node G x ∧
  (isolated G x ↔ ¬ endpoint (similarity_pairs df_liked_similar) x) ∧
  (∀ u v, has_edge G u v
          ↔ has_edge (build_graph set_order df df_liked_similar false) u v).
Proof.
  intros Hcols Hx G.
  assert (has_node G x) as Hnode.
  { apply has_node_build_graph. do 3 right. split; [|done].
    by apply Is_true_true in Hcols as ->. }
  split_and!; [done| |].
  - split.
    + intros (_ & _ & Hno) (pr & Hpr & Hend).
      destruct pr as [u v]. simpl in Hend. destruct Hend as [->| ->].
      * apply (proj1 (Hno v)), has_edge_build_graph. by left.
      * apply (proj1 (Hno u)), has_edge_build_graph. by right.
    + intros Hno. apply isolated_no_edge; [apply build_graph_wf|done|].
      intros y [Hxy|Hyx]%has_edge_build_graph; apply Hno.
      * exists (x, y). auto.
      * exists (y, x). auto.
  - intros u v. unfold G. by rewrite !has_edge_build_graph.
Qed.

Lemma nmf_artists_isolated_witness :
  let G := build_graph first_occurrence_order nmf_ratings nmf_similar true in
  has_node G (VStr "Mitski") ∧
  (isolated G (VStr "Mitski")
   ↔ ¬ endpoint (similarity_pairs nmf_similar) (VStr "Mitski")) ∧
  (∀ u v, has_edge G u v
     ↔ has_edge (build_graph first_occurrence_order nmf_ratings nmf_similar
                   false) u v).
Proof.
  apply (nmf_artists_isolated first_occurrence_order nmf_ratings nmf_similar
           (VStr "Mitski")).
  - exact I.
  - right. apply (bool_decide_unpack _). by vm_compute.
Defined.

(** C6 as stated fails: Phoebe Bridgers comes from the NMF playlist, the
    graph tags her [nmf], and she has degree 1, being similar to Lucy
    Dacus. *)
Lemma nmf_artist_with_edge :
  let G := build_graph first_occurrence_order nmf_ratings nmf_similar true in
  VStr "Phoebe Bridgers" ∈ nmf_artists first_occurrence_order nmf_ratings ∧
  node_type G (VStr "Phoebe Bridgers") = Some (AStr "nmf") ∧
  degree G (VStr "Phoebe Bridgers") = Some 1 ∧
  has_edge G (VStr "Phoebe Bridgers") (VStr "Lucy Dacus") ∧
  ¬ isolated G (VStr "Phoebe Bridgers").
Proof.
  split_and!.
  - apply (bool_decide_unpack _). by vm_compute.
  - reflexivity.
  - reflexivity.
  - exact I.
  - intros (_ & Hdeg & _). vm_compute in Hdeg. discriminate.
Qed.

Lemma blank_similar_nodes (set_order : list value → list value) :
  set_order_ok set_order →
  let G := build_graph set_order empty_table blank_similar false in
  has_node G (VStr "Mitski") ∧ node_type G (VStr "Mitski") = None ∧
  has_node G (VStr "Japanese Breakfast ") ∧
  node_type G (VStr "Japanese Breakfast ") = None.
Proof.
  intros Hok. unfold build_graph.
  change (liked_artists set_order empty_table) with (@nil value).
  change (similar_artists_liked set_order blank_similar)
    with (set_order [VStr "Japanese Breakfast"; VStr "Big Thief"]).
  assert (VStr "Japanese Breakfast" ≠ VStr "Big Thief") as Hne by discriminate.
  destruct (set_order_2 _ Hok _ _ Hne) as [-> | ->];
    (split_and!; [exact I|reflexivity|exact I|reflexivity]).
Qed.

Lemma trailing_blank_not_trimmed : ¬ trimmed_name (VStr "Japanese Breakfast ").
Proof. intros (s & [= <-] & Hs). vm_compute in Hs. discriminate. Qed.

(** C7 fails on the code. The nodes that [add_nodes_from] adds are
    stripped and tagged, but the loop over the rows of the similarity table
    adds the ends of its edges as [add_edge] finds them: pieces of a split
    on comma and blank that are not stripped, and the artist of the row,
    none of them with a tag. Here, whatever the order of iteration, Mitski
    is a node without a category tag, and so is the name "Japanese
    Breakfast " with its trailing blank. *)
Theorem build_graph_untagged_untrimmed (set_order : list value → list value) :
  set_order_ok set_order →
  let G := build_graph set_order empty_table blank_similar false in
  has_node G (VStr "Mitski") ∧ node_type G (VStr "Mitski") = None ∧
  has_node G (VStr "Japanese Breakfast ") ∧
  node_type G (VStr "Japanese Breakfast ") = None ∧
  ¬ trimmed_name (VStr "Japanese Breakfast ") ∧
  ¬ node_invariant G.
Proof.
  intros Hok G.
  destruct (blank_similar_nodes set_order Hok) as (Hm & Htm & Hj & Htj).
  refine (conj Hm (conj Htm (conj Hj (conj Htj
    (conj trailing_blank_not_trimmed _))))).
  intros Hinv. destruct (Hinv _ Hj) as [Ht _].
  exact (trailing_blank_not_trimmed Ht).
Qed.

Lemma build_graph_untagged_untrimmed_witness :
  let G := build_graph first_occurrence_order empty_table blank_similar false in
  has_node G (VStr "Mitski") ∧ node_type G (VStr "Mitski") = None ∧
  has_node G (VStr "Japanese Breakfast ") ∧
  node_type G (VStr "Japanese Breakfast ") = None ∧
  ¬ trimmed_name (VStr "Japanese Breakfast ") ∧
  ¬ node_invariant G.
Proof.
  apply (build_graph_untagged_untrimmed first_occurrence_order).
  exact first_occurrence_order_ok.
Defined.

Section degenerate_input.
Variable set_order : list value → list value.
Hypothesis Hok : set_order_ok set_order.
Implicit Types (df sim : DataFrame) (G : Graph).

Lemma build_graph_no_rating_columns df sim include_nmf :
  has_rating_columns df = false →
  build_graph set_order df sim include_nmf
  = build_graph set_order empty_table sim include_nmf.
Proof.
  unfold build_graph, liked_artists, has_rating_columns. intros Hcols.
  rewrite <-andb_assoc, Hcols, andb_false_r. by destruct include_nmf.
Qed.

Lemma build_graph_no_similar_column df sim include_nmf :
  has_column "Similar Artists" sim = false →
  build_graph set_order df sim include_nmf
  = build_graph set_order df empty_table include_nmf.
Proof.
  unfold build_graph, similar_artists_liked, add_similarity_edges.
  intros ->. by rewrite andb_false_r.
Qed.

Lemma add_similarity_edges_no_artist_column sim G :
  has_column "Artist" sim = false → add_similarity_edges sim G = G.
Proof. unfold add_similarity_edges. by intros ->. Qed.

Lemma build_graph_no_artist_column df sim include_nmf u v :
  has_column "Artist" sim = false →
  ¬ has_edge (build_graph set_order df sim include_nmf) u v.
Proof.
  intros Hcol. rewrite has_edge_build_graph. unfold similarity_pairs.
  rewrite Hcol. simpl. by intros [?%elem_of_nil|?%elem_of_nil].
Qed.

Lemma dropna_app l1 l2 : dropna (l1 ++ l2) = dropna l1 ++ dropna l2.
Proof. apply filter_app. Qed.

(** A row whose similar-artists field is not a string adds nothing. *)
Lemma build_graph_missing_field df sim rows1 row rows2 include_nmf :
  rows sim = rows1 ++ row :: rows2 →
  cell sim "Similar Artists" row = VNaN →
  build_graph set_order df sim include_nmf
  = build_graph set_order df (with_rows sim (rows1 ++ rows2)) include_nmf.
Proof.
  intros Hrows Hcell.
  assert (similar_artists_liked set_order sim
          = similar_artists_liked set_order (with_rows sim (rows1 ++ rows2)))
    as Hsim.
  { unfold similar_artists_liked, column, has_column. simpl.
    destruct (bool_decide _); [|done]. do 4 f_equal.
    rewrite Hrows, !fmap_app, fmap_cons, !dropna_app. f_equal.
    unfold dropna at 1. rewrite filter_cons_False; [done|].
    intros H. apply H. exact Hcell. }
  assert (∀ G, add_similarity_edges sim G
               = add_similarity_edges (with_rows sim (rows1 ++ rows2)) G)
    as Hedges.
  { intros G. unfold add_similarity_edges, has_column. simpl.
    destruct (_ && _); [|done].
    rewrite Hrows, !foldl_app. simpl.
    unfold add_row_edges at 2. by rewrite Hcell. }
  unfold build_graph. by rewrite Hsim, Hedges.
Qed.

(** Tables without rows give the graph without nodes and without edges. *)
Lemma build_graph_no_rows df sim include_nmf :
  rows df = [] → rows sim = [] →
  build_graph set_order df sim include_nmf = empty_graph.
Proof.
  destruct df as [cols1 rows1], sim as [cols2 rows2]. simpl.
  intros -> ->.
  unfold build_graph, liked_artists, similar_artists_liked, nmf_artists,
    not_liked_artists, add_similarity_edges, artist_names, column, df_mask.
  simpl.
  change (series_str_strip (explode (series_str_split "," []))) with (@nil value).
  change (series_str_strip (explode (series_str_split "," (dropna []))))
    with (@nil value).
  rewrite (set_order_nil _ Hok).
  by repeat (destruct (has_column _ _); simpl); destruct include_nmf.
Qed.
End degenerate_input.

(** The graph of degenerate tables, where [build_graph] returns one (see
    [Typed.build_graph] for when it does). A ratings table that lacks one
    of its two columns adds nothing; neither does a similarity table that
    lacks its column of similar artists; without the column of artists no
    edge is added; a row whose similar-artists field is missing, not a
    string, adds no node and no edge; and tables without rows give the
    graph with no node and no edge. *)
Theorem build_graph_degenerate (set_order : list value → list value) :
  set_order_ok set_order →
  (∀ df sim include_nmf, has_rating_columns df = false →
     build_graph set_order df sim include_nmf
     = build_graph set_order empty_table sim include_nmf) ∧
  (∀ df sim include_nmf, has_column "Similar Artists" sim = false →
     build_graph set_order df sim include_nmf
     = build_graph set_order df empty_table include_nmf) ∧
  (∀ df sim include_nmf, has_column "Artist" sim = false →
     (∀ G, add_similarity_edges sim G = G) ∧
     ∀ u v, ¬ has_edge (build_graph set_order df sim include_nmf) u v) ∧
  (∀ df sim rows1 row rows2 include_nmf,
     rows sim = rows1 ++ row :: rows2 →
     cell sim "Similar Artists" row = VNaN →
     build_graph set_order df sim include_nmf
     = build_graph set_order df (with_rows sim (rows1 ++ rows2)) include_nmf) ∧
  (∀ df sim include_nmf, rows df = [] → rows sim = [] →
     build_graph set_order df sim include_nmf = empty_graph) ∧
  (∀ include_nmf,
     let G := build_graph set_order empty_table empty_table include_nmf in
     g_node G = [] ∧ g_adj G = []).
Proof.
  intros Hok. split_and!.
  - apply build_graph_no_rating_columns.
  - apply build_graph_no_similar_column.
  - intros df sim include_nmf Hcol. split.
    + intros G. by apply add_similarity_edges_no_artist_column.
    + intros u v. by apply build_graph_no_artist_column.
  - apply build_graph_missing_field.
  - by apply build_graph_no_rows.
  - intros include_nmf. by rewrite build_graph_no_rows.
Qed.

Lemma build_graph_degenerate_witness :
  build_graph first_occurrence_order ratings_without_origin spec_similar true
  = build_graph first_occurrence_order empty_table spec_similar true ∧
  build_graph first_occurrence_order spec_ratings similar_without_list true
  = build_graph first_occurrence_order spec_ratings empty_table true ∧
  ¬ has_edge
      (build_graph first_occurrence_order spec_ratings similar_without_artist
         true)
      (VStr "Lucy Dacus") (VStr "Julien Baker") ∧
  build_graph first_occurrence_order spec_ratings similar_with_gap true
  = build_graph first_occurrence_order spec_ratings
      (with_rows similar_with_gap [[VStr "Lucy Dacus"; VStr "Julien Baker"]])
      true ∧
  build_graph first_occurrence_order
    (with_rows spec_ratings []) (with_rows spec_similar []) true
  = empty_graph.
Proof.
  destruct (build_graph_degenerate first_occurrence_order
              first_occurrence_order_ok) as (H1 & H2 & H3 & H4 & H5 & _).
  split_and!.
  - apply H1. reflexivity.
  - apply H2. reflexivity.
  - apply H3. reflexivity.
  - apply (H4 spec_ratings similar_with_gap
             [[VStr "Lucy Dacus"; VStr "Julien Baker"]] [VStr "Mitski"; VNaN] []);
      reflexivity.
  - apply H5; reflexivity.
Defined.

(** * [build_graph] and the dtype of the columns *)

Section typed_build_graph_facts.
Variable set_order : list value → list value.
Implicit Types (df sim : DataFrame) (floats : list string) (G : Graph).

Lemma str_accessor_object floats name series :
  name ∉ floats → str_accessor floats name series = Return series.
Proof. intros Hname. unfold str_accessor. by rewrite decide_False. Qed.

Lemma str_accessor_float floats name series :
  name ∈ floats → str_accessor floats name series = Raise AttributeError.
Proof. intros Hname. unfold str_accessor. by rewrite decide_True. Qed.

(** [Typed.build_graph] raises when a column on which it calls [.str] is
    of dtype [float64], and returns the graph of [build_graph] when
    none is. *)
Lemma typed_build_graph_spec df df_floats sim similar_floats include_nmf :
  Typed.build_graph set_order df df_floats sim similar_floats include_nmf
  = if decide (has_rating_columns df ∧ "Artist Name(s)" ∈ df_floats
               ∨ has_column "Similar Artists" sim
                 ∧ "Similar Artists" ∈ similar_floats)
    then Raise AttributeError
    else Return (build_graph set_order df sim include_nmf).
Proof.
  unfold Typed.build_graph, build_graph, Typed.artist_names, liked_artists,
    similar_artists_liked, nmf_artists, not_liked_artists, artist_names,
    has_rating_columns.
  rewrite <-!(andb_assoc include_nmf).
  destruct (has_column "playlist_origin" df && has_column "Artist Name(s)" df).
  - destruct (decide ("Artist Name(s)" ∈ df_floats)) as [Hf|Hf].
    { rewrite decide_True by by left.
      by rewrite !(str_accessor_float df_floats) by done. }
    rewrite !(str_accessor_object df_floats) by done.
    cbn [mbind outcome_bind].
    destruct (has_column "Similar Artists" sim).
    + destruct (decide ("Similar Artists" ∈ similar_floats)) as [Hs|Hs].
      { rewrite decide_True by by right.
        by rewrite !(str_accessor_float similar_floats) by done. }
      rewrite decide_False by naive_solver.
      rewrite str_accessor_object by done. cbn [mbind outcome_bind].
      by destruct include_nmf.
    + rewrite decide_False by naive_solver. cbn [mbind outcome_bind].
      by destruct include_nmf.
  - cbn [mbind outcome_bind]. rewrite andb_false_r.
    destruct (has_column "Similar Artists" sim).
    + destruct (decide ("Similar Artists" ∈ similar_floats)) as [Hs|Hs].
      { rewrite decide_True by by right.
        by rewrite !(str_accessor_float similar_floats) by done. }
      rewrite decide_False by naive_solver.
      by rewrite str_accessor_object by done.
    + by rewrite decide_False by naive_solver.
Qed.

Lemma elem_of_read_csv_floats df c :
  c ∈ read_csv_floats df ↔
  c ∈ columns df ∧ rows df ≠ []
  ∧ ∀ row, row ∈ rows df → cell df c row = VNaN.
Proof.
  unfold read_csv_floats. rewrite list_elem_of_filter, Forall_forall.
  unfold column. split.
  - intros ([Hrows Hall] & Hc). split_and!; [done..|].
    intros row Hrow. apply Hall, list_elem_of_fmap. by exists row.
  - intros (Hc & Hrows & Hall). split_and!; [done| |done].
    intros v (row & -> & Hrow)%list_elem_of_fmap. by apply Hall.
Qed.

(** The loop over the rows skips a row without a list. *)
Lemma add_similarity_edges_all_missing sim G :
  (∀ row, row ∈ rows sim → cell sim "Similar Artists" row = VNaN) →
  add_similarity_edges sim G = G.
Proof.
  intros Hall. unfold add_similarity_edges. destruct (_ && _); [|done].
  induction (rows sim) as [|row rs IH]; [done|]. cbn [foldl].
  unfold add_row_edges at 2. rewrite Hall by left.
  apply IH. intros row' Hrow'. apply Hall. by right.
Qed.
End typed_build_graph_facts.

(** C5. [build_graph] raises on a degenerate input: for a similarity
    table that is read from a file in which the column of similar artists
    is there and no row has a list, the column is of dtype [float64] and
    the call of [.str] on it raises [AttributeError], whatever the ratings
    table and the flag. The loop over the rows, which tests the same field
    with [isinstance], adds nothing for such a table. *)
Theorem build_graph_all_missing_raises (set_order : list value → list value)
    (df : DataFrame) (df_floats : list string) (df_liked_similar : DataFrame)
    (include_nmf : bool) :
  has_column "Similar Artists" df_liked_similar →
  rows df_liked_similar ≠ [] →
  (∀ row, row ∈ rows df_liked_similar →
     cell df_liked_similar "Similar Artists" row = VNaN) →
  Typed.build_graph set_order df df_floats df_liked_similar
    (read_csv_floats df_liked_similar) include_nmf
  = Raise AttributeError
  ∧ ∀ G, add_similarity_edges df_liked_similar G = G.
Proof.
  intros Hcol Hrows Hall. split.
  - rewrite typed_build_graph_spec. apply decide_True. right.
    split; [done|]. apply elem_of_read_csv_floats.
    split_and!; [|done..]. by apply bool_decide_unpack in Hcol.
  - intros G. by apply add_similarity_edges_all_missing.
Qed.

Lemma build_graph_all_missing_raises_witness :
  Typed.build_graph first_occurrence_order spec_ratings
    (read_csv_floats spec_ratings) similar_all_missing
    (read_csv_floats similar_all_missing) false
  = Raise AttributeError
  ∧ ∀ G, add_similarity_edges similar_all_missing G = G.
Proof.
  apply (build_graph_all_missing_raises first_occurrence_order spec_ratings
           (read_csv_floats spec_ratings) similar_all_missing false).
  - exact I.
  - discriminate.
  - intros row ->%list_elem_of_singleton. reflexivity.
Defined.

(** With one list in the column, the column is of dtype [object]: the
    call returns, and the row without a list adds nothing. *)
Example build_graph_gap_returns :
  Typed.build_graph first_occurrence_order spec_ratings
    (read_csv_floats spec_ratings) similar_with_gap
    (read_csv_floats similar_with_gap) false
  = Return (build_graph first_occurrence_order spec_ratings
              (with_rows similar_with_gap
                 [[VStr "Lucy Dacus"; VStr "Julien Baker"]]) false).
Proof. reflexivity. Qed.

(** * The search finds a shortest path *)

Section walk_distance.
Variable G : Graph.
Hypothesis HG : graph_wf G.
Implicit Types (p q l : list value) (x y a b : value) (n : nat).

Lemma is_walk_app_inv p x q :
  is_walk G (p ++ x :: q) → is_walk G (p ++ [x]) ∧ is_walk G (x :: q).
Proof.
  induction p as [|z p IH]; simpl; [done|].
  destruct p as [|z' p]; simpl in *.
  - intros [? ?]. done.
  - intros [? H]. destruct (IH H) as [? ?]. done.
Qed.

Lemma within_refl n a : within G n a a.
Proof. exists [a]. split_and!; [done..|simpl; lia]. Qed.

Lemma within_mono n n' a b : n ≤ n' → within G n a b → within G n' a b.
Proof. intros ? (p & ? & ? & ? & ?). exists p. split_and!; [done..|lia]. Qed.

Lemma within_step n a y b :
  within G n a y → has_edge G y b → within G (S n) a b.
Proof.
  intros (p & Hhd & Hlast & Hwalk & Hlen) Hyb.
  apply last_Some in Hlast as [p' ->].
  exists ((p' ++ [y]) ++ [b]). split_and!.
  - destruct p'; done.
  - by rewrite last_snoc.
  - by apply is_walk_snoc.
  - rewrite !length_app in *. simpl in *. lia.
Qed.

(** The last step of a walk that needs all its [S n] edges. *)
Lemma within_S_inv n a b :
  within G (S n) a b →
  within G n a b ∨ ∃ y, within G n a y ∧ has_edge G y b.
Proof.
  intros (p & Hhd & Hlast & Hwalk & Hlen).
  destruct (decide (length p ≤ S n)) as [Hle|Hgt].
  { left. by exists p. }
  right. assert (length p = S (S n)) as Hlen' by lia.
  apply last_Some in Hlast as [p' ->].
  rewrite length_app in Hlen'. simpl in Hlen'.
  destruct (last p') as [y|] eqn:Hy.
  2:{ apply last_None in Hy as ->. simpl in Hlen'. lia. }
  apply last_Some in Hy as [p'' ->].
  exists y. rewrite <-app_assoc in Hwalk, Hhd. simpl in Hwalk, Hhd.
  apply is_walk_app_inv in Hwalk as [Hw1 Hw2]. split.
  - exists (p'' ++ [y]). split_and!.
    + destruct p''; done.
    + by rewrite last_snoc.
    + done.
    + lia.
  - apply Hw2.
Qed.

Lemma within_sym n a b : within G n a b → within G n b a.
Proof.
  intros (p & Hhd & Hlast & Hwalk & Hlen). exists (reverse p). split_and!.
  - by rewrite head_reverse.
  - by rewrite last_reverse.
  - apply is_walk_reverse; [apply HG|done].
  - by rewrite length_reverse.
Qed.

(** A walk of at most [i + j] edges has a node within [i] of its start and
    within [j] of its end. *)
Lemma within_split i j a b :
  within G (i + j) a b → ∃ x, within G i a x ∧ within G j x b.
Proof.
  revert b. induction j as [|j IH]; intros b.
  - rewrite Nat.add_0_r. intros H. exists b. split; [done|apply within_refl].
  - rewrite Nat.add_succ_r. intros [H|(y & Hy & Hyb)]%within_S_inv.
    + destruct (IH b H) as (x & ? & ?). exists x. split; [done|].
      by apply within_mono with j; [lia|].
    + destruct (IH y Hy) as (x & ? & ?). exists x. split; [done|].
      by apply within_step with y.
Qed.

Lemma connected_within a b : connected G a b → ∃ n, within G n a b.
Proof.
  intros (p & ? & ? & ?). exists (length p). exists p.
  split_and!; [done..|lia].
Qed.
End walk_distance.

Section search_levels.
Variable G : Graph.
Hypothesis HG : graph_wf G.
Implicit Types (m seen other pred succ : gmap value (option value)).
Implicit Types (l ws level fringe : list value) (r v w x y : value).

Lemma chain_is_Some m x l : chain m x l → is_Some (m !! x).
Proof. intros []; eauto. Qed.

Lemma chain_unique m x l1 l2 : chain m x l1 → chain m x l2 → l1 = l2.
Proof.
  intros H1. revert l2.
  induction H1 as [r Hr|w v l Hw _ IH]; intros l2 H2; inversion H2; subst;
    simplify_eq; [done|]. f_equal. by apply IH.
Qed.

(** A key that was there before an insertion keeps its chain. *)
Lemma chain_insert_old r m w o x l :
  tree_inv G r m → m !! w = None → is_Some (m !! x) →
  chain (<[w := o]> m) x l → chain m x l.
Proof.
  intros Hinv Hw Hx Hc.
  destruct (Hinv x Hx) as (_ & l0 & Hc0 & _).
  by rewrite (chain_unique _ _ _ _ Hc (chain_insert m x l0 w o Hw Hc0)).
Qed.

Lemma depth_inv_mono m n n' : n ≤ n' → depth_inv m n → depth_inv m n'.
Proof. intros ? H x l Hc. specialize (H x l Hc). lia. Qed.

Lemma depth_inv_insert r m v w n :
  tree_inv G r m → m !! w = None → is_Some (m !! v) →
  (∀ l, chain m v l → length l ≤ S n) → depth_inv m (S n) →
  depth_inv (<[w := Some v]> m) (S n).
Proof.
  intros Hinv Hw Hv Hshallow Hdepth x l Hc.
  destruct (decide (x = w)) as [->|Hne].
  - inversion Hc as [? Hr|? v' l' Hv' Hc']; subst;
      rewrite lookup_insert_eq in *; simplify_eq.
    apply (chain_insert_old r) in Hc'; [|done..].
    specialize (Hshallow _ Hc'). simpl. lia.
  - apply (chain_insert_old r) in Hc; [by eapply Hdepth|done|done|].
    apply chain_is_Some in Hc. by rewrite lookup_insert_ne in Hc.
Qed.

(** The inner loop, seen from the levels: the nodes it adds hang one step
    below [v], they all enter the fringe, and in the end every neighbour
    of [v] is a key. *)
Lemma scan_nbrs_levels r v ws seen other fringe n :
  tree_inv G r seen → is_Some (seen !! v) →
  (∀ w, w ∈ ws → has_edge G v w) →
  (∀ l, chain seen v l → length l ≤ S n) → depth_inv seen (S n) →
  match scan_nbrs v ws seen other fringe with
  | Found seen' w => depth_inv seen' (S n)
  | Continue seen' fringe' =>
      depth_inv seen' (S n) ∧
      (∀ x, is_Some (seen !! x) → is_Some (seen' !! x)) ∧
      (∀ x, is_Some (seen' !! x) → is_Some (seen !! x) ∨ x ∈ fringe') ∧
      (∀ w, w ∈ ws → is_Some (seen' !! w)) ∧
      (∀ x l, is_Some (seen !! x) → chain seen' x l → chain seen x l) ∧
      (∀ x, x ∈ fringe → x ∈ fringe')
  end.
Proof.
  revert seen fringe.
  induction ws as [|w ws IH]; intros seen fringe Hinv Hv Hws Hshallow Hdepth;
    simpl.
  { split_and!; [done|done|auto|by intros ? ?%elem_of_nil|done..]. }
  assert (has_edge G v w) as Hvw by (apply Hws; left).
  assert (∀ w', w' ∈ ws → has_edge G v w') as Hws' by (intros; apply Hws; by right).
  destruct (seen !! w) as [o|] eqn:Hw.
  - destruct (other !! w); [done|].
    specialize (IH seen fringe Hinv Hv Hws' Hshallow Hdepth).
    destruct (scan_nbrs v ws seen other fringe) as [|seen' fringe']; [done|].
    destruct IH as (? & Hmono & ? & Hin & ? & ?).
    split_and!; [done..| |done|done].
    intros w' [->|?]%elem_of_cons; [|by apply Hin]. apply Hmono. eauto.
  - assert (depth_inv (<[w:=Some v]> seen) (S n)) as Hdepth'
      by by eapply depth_inv_insert.
    destruct (other !! w); [done|].
    assert (tree_inv G r (<[w:=Some v]> seen)) as Hinv'
      by by apply tree_inv_insert.
    specialize (IH (<[w:=Some v]> seen) (fringe ++ [w]) Hinv').
    lapply IH; [clear IH; intros IH|].
    2:{ apply lookup_insert_is_Some'. by right. }
    specialize (IH Hws'). lapply IH; [clear IH; intros IH|].
    2:{ intros l Hc. apply Hshallow. by eapply chain_insert_old. }
    specialize (IH Hdepth').
    destruct (scan_nbrs v ws _ other _) as [|seen' fringe']; [done|].
    destruct IH as (? & Hmono & Hnew & Hin & Hold & Hfr). split_and!.
    + done.
    + intros x Hx. apply Hmono, lookup_insert_is_Some'. by right.
    + intros x Hx. destruct (Hnew x Hx) as [Hx'|?]; [|by right].
      apply lookup_insert_is_Some in Hx' as [<- | [_ ?] ]; [|by left].
      right. apply Hfr, elem_of_app. right. left.
    + intros w' [->|?]%elem_of_cons; [|by apply Hin].
      apply Hmono. by rewrite lookup_insert_eq.
    + intros x l Hx Hc. eapply chain_insert_old; [done..|].
      apply Hold; [|done]. apply lookup_insert_is_Some'. by right.
    + intros x Hx. apply Hfr, elem_of_app. by left.
Qed.
(** The outer loop: after a level every neighbour of its nodes is a key. *)
Lemma scan_level_levels r level seen other fringe n :
  tree_inv G r seen → disjoint_keys seen other →
  (∀ x, x ∈ level → is_Some (seen !! x)) →
  (∀ x, x ∈ fringe → is_Some (seen !! x)) →
  (∀ x l, x ∈ level → chain seen x l → length l ≤ S n) →
  depth_inv seen (S n) →
  match scan_level (g_adj G) level seen other fringe with
  | Return (Found seen' w) => depth_inv seen' (S n)
  | Return (Continue seen' fringe') =>
      depth_inv seen' (S n) ∧
      (∀ x, is_Some (seen' !! x) → is_Some (seen !! x) ∨ x ∈ fringe') ∧
      (∀ v y, v ∈ level → has_edge G v y → is_Some (seen' !! y)) ∧
      (∀ x, x ∈ fringe → x ∈ fringe')
  | _ => True
  end.
Proof.
  revert seen fringe.
  induction level as [|v level IH];
    intros seen fringe Hinv Hdisj Hlev Hfr Hshallow Hdepth; simpl.
  { split_and!; [done|auto|by intros ?? ?%elem_of_nil|done]. }
  assert (is_Some (seen !! v)) as Hv by (apply Hlev; left).
  destruct (dict_get v (g_adj G)) as [nbrs|] eqn:Hnbrs; [|done].
  assert (∀ w, w ∈ keys nbrs → has_edge G v w) as Hedges.
  { intros w Hw. apply has_edge_spec. eauto. }
  pose proof (scan_nbrs_spec G HG r v (keys nbrs) seen other fringe
                Hinv Hdisj Hv Hedges Hfr) as Hspec.
  pose proof (scan_nbrs_levels r v (keys nbrs) seen other fringe n
                Hinv Hv Hedges) as Hlevels.
  lapply Hlevels; [clear Hlevels; intros Hlevels|].
  2:{ intros l. apply Hshallow. left. }
  specialize (Hlevels Hdepth).
  destruct (scan_nbrs v (keys nbrs) seen other fringe) as [seen1 w|seen1 fringe1];
    [done|].
  destruct Hspec as (Hinv1 & Hdisj1 & Hmono1 & Hfr1 & _).
  destruct Hlevels as (Hdepth1 & _ & Hnew1 & Hin1 & Hold1 & Hsub1).
  specialize (IH seen1 fringe1 Hinv1 Hdisj1).
  lapply IH; [clear IH; intros IH|].
  2:{ intros x Hx. apply Hmono1, Hlev. by right. }
  specialize (IH Hfr1). lapply IH; [clear IH; intros IH|].
  2:{ intros x l Hx Hc. apply (Hshallow x); [by right|].
      apply Hold1; [|done]. apply Hlev. by right. }
  specialize (IH Hdepth1).
  pose proof (scan_level_spec G HG r level seen1 other fringe1 Hinv1 Hdisj1)
    as Hspec2.
  lapply Hspec2; [clear Hspec2; intros Hspec2|].
  2:{ intros x Hx. apply Hmono1, Hlev. by right. }
  specialize (Hspec2 Hfr1).
  destruct (scan_level (g_adj G) level seen1 other fringe1)
    as [[seen' w|seen' fringe']| |]; [done| |done..].
  destruct IH as (Hdepth' & Hnew' & Hclosed' & Hsub').
  destruct Hspec2 as (_ & _ & Hmono' & _).
  split_and!.
  - done.
  - intros x Hx. destruct (Hnew' x Hx) as [Hx1|?]; [|by right].
    destruct (Hnew1 x Hx1) as [?|?]; [by left|]. right. by apply Hsub'.
  - intros v' y [->|Hv']%elem_of_cons Hy; [|by eapply Hclosed'].
    apply Hmono', Hin1. apply has_edge_spec in Hy as (nbrs' & ? & ?).
    by simplify_eq.
  - intros x Hx. by apply Hsub', Hsub1.
Qed.

(** Two balls that do not meet keep the two roots far apart. *)
Lemma disjoint_balls s t pred succ i j q :
  ball_inv G s pred i → ball_inv G t succ j → disjoint_keys pred succ →
  head q = Some s → last q = Some t → is_walk G q →
  i + j + 2 ≤ length q.
Proof.
  intros Hs Ht Hdisj Hhd Hlast Hwalk.
  destruct (decide (i + j + 2 ≤ length q)) as [|Hshort]; [done|].
  assert (within G (i + j) s t) as Hst.
  { exists q. split_and!; [done..|lia]. }
  apply within_split in Hst as (x & Hsx & Hxt).
  apply (within_sym G HG) in Hxt.
  specialize (Hdisj x (Hs x Hsx)). destruct (Ht x Hxt) as [? Hx]. congruence.
Qed.

(** A dictionary that is closed under the edges holds everything that is
    connected to one of its keys. *)
Lemma closed_inv_connected m a b :
  closed_inv G m [] → is_Some (m !! a) → connected G a b → is_Some (m !! b).
Proof.
  intros Hclosed Ha [n Hn]%connected_within. revert b Hn.
  induction n as [|n IH]; intros b.
  - intros (p & Hhd & Hlast & _ & Hlen).
    destruct p as [|x [|??]]; simpl in *; [done| |lia]. by simplify_eq.
  - intros [H|(y & Hy & Hyb)]%within_S_inv; [by apply IH|].
    destruct (Hclosed y (IH y Hy)) as [[]%elem_of_nil|Hc]. by apply Hc.
Qed.

Lemma ball_inv_step r m m' fringe n :
  ball_inv G r m n → closed_inv G m fringe →
  (∀ x, is_Some (m !! x) → is_Some (m' !! x)) →
  (∀ v y, v ∈ fringe → has_edge G v y → is_Some (m' !! y)) →
  ball_inv G r m' (S n).
Proof.
  intros Hball Hclosed Hmono Hlevel x [H|(y & Hy & Hyx)]%within_S_inv.
  - by apply Hmono, Hball.
  - destruct (Hclosed y (Hball y Hy)) as [Hfr|Hc].
    + by apply (Hlevel y).
    + by apply Hmono, Hc.
Qed.

Lemma closed_inv_step m m' fringe fringe' :
  closed_inv G m fringe →
  (∀ x, is_Some (m !! x) → is_Some (m' !! x)) →
  (∀ x, is_Some (m' !! x) → is_Some (m !! x) ∨ x ∈ fringe') →
  (∀ v y, v ∈ fringe → has_edge G v y → is_Some (m' !! y)) →
  closed_inv G m' fringe'.
Proof.
  intros Hclosed Hmono Hnew Hlevel x Hx.
  destruct (Hnew x Hx) as [Hold|?]; [|by left]. right. intros y Hxy.
  destruct (Hclosed x Hold) as [Hfr|Hc].
  - by apply (Hlevel x).
  - by apply Hmono, Hc.
Qed.
Lemma connected_sym a b : connected G a b → connected G b a.
Proof.
  intros (p & Hhd & Hlast & Hwalk). exists (reverse p). split_and!.
  - by rewrite head_reverse.
  - by rewrite last_reverse.
  - apply is_walk_reverse; [apply HG|done].
Qed.

(** The [while] loop, seen from the levels. When the two searches meet,
    the two chains from the meeting node together are no longer than any
    walk between the two roots; when a fringe runs empty, there is no such
    walk. *)
Lemma search_loop_levels s t fuel pred succ ff rf i j :
  tree_inv G s pred → tree_inv G t succ → disjoint_keys pred succ →
  (∀ x, x ∈ ff → is_Some (pred !! x)) →
  (∀ x, x ∈ rf → is_Some (succ !! x)) →
  ball_inv G s pred i → closed_inv G pred ff → depth_inv pred i →
  ball_inv G t succ j → closed_inv G succ rf → depth_inv succ j →
  match search_loop fuel (g_adj G) pred succ ff rf with
  | Return (pred', succ', w) =>
      ∀ lf lb q, chain pred' w lf → chain succ' w lb →
        head q = Some s → last q = Some t → is_walk G q →
        length lf + length lb ≤ length q + 1
  | Raise _ => ¬ connected G s t
  | OutOfFuel => True
  end.
Proof.
  revert pred succ ff rf i j.
  induction fuel as [|fuel IH];
    intros pred succ ff rf i j Hp Hs Hdisj Hff Hrf Hbp Hcp Hdp Hbs Hcs Hds.
  all: assert (is_Some (pred !! s)) as Hsp by apply Hbp, within_refl.
  all: assert (is_Some (succ !! t)) as Hts by apply Hbs, within_refl.
  all: assert (ff = [] → ¬ connected G s t) as Hno_f.
  1,3: intros -> Hst;
       pose proof (closed_inv_connected pred s t Hcp Hsp Hst) as Ht;
       rewrite (Hdisj t Ht) in Hts; by destruct Hts.
  all: assert (rf = [] → ¬ connected G s t) as Hno_r.
  1,3: intros -> Hst%connected_sym;
       pose proof (closed_inv_connected succ t s Hcs Hts Hst) as Hs';
       rewrite (Hdisj s Hsp) in Hs'; by destruct Hs'.
  - destruct ff, rf; simpl; auto.
  - destruct ff as [|f0 ff]; [destruct rf; simpl; auto|].
    destruct rf as [|r0 rf]; [simpl; auto|].
    cbn [search_loop].
    pose proof (disjoint_balls s t pred succ i j) as Hfar.
    destruct (length (f0 :: ff) <=? length (r0 :: rf)).
    + pose proof (scan_level_spec G HG s (f0 :: ff) pred succ [] Hp Hdisj Hff)
        as Hspec.
      lapply Hspec; [clear Hspec; intros Hspec|by intros ? ?%elem_of_nil].
      pose proof (scan_level_levels s (f0 :: ff) pred succ [] i Hp Hdisj Hff)
        as Hlev.
      lapply Hlev; [clear Hlev; intros Hlev|by intros ? ?%elem_of_nil].
      lapply Hlev; [clear Hlev; intros Hlev|by intros x l _; apply Hdp].
      specialize (Hlev (depth_inv_mono _ _ _ (Nat.le_succ_diag_r i) Hdp)).
      destruct (scan_level (g_adj G) (f0 :: ff) pred succ [])
        as [[pred' w|pred' ff']| |]; [| |done..]; simpl.
      * intros lf lb q Hlf Hlb Hhd Hlast Hwalk.
        specialize (Hlev _ _ Hlf). specialize (Hds _ _ Hlb).
        specialize (Hfar q Hbp Hbs Hdisj Hhd Hlast Hwalk). lia.
      * destruct Hspec as (Hp' & Hdisj' & Hmono & Hff' & _).
        destruct Hlev as (Hdp' & Hnew & Hclosed & _).
        apply (IH pred' succ ff' (r0 :: rf) (S i) j); try done.
        -- exact (ball_inv_step s pred pred' (f0 :: ff) i Hbp Hcp Hmono Hclosed).
        -- exact (closed_inv_step pred pred' (f0 :: ff) ff' Hcp Hmono Hnew
                    Hclosed).
    + apply disjoint_keys_sym in Hdisj as Hdisj_r.
      pose proof (scan_level_spec G HG t (r0 :: rf) succ pred [] Hs Hdisj_r Hrf)
        as Hspec.
      lapply Hspec; [clear Hspec; intros Hspec|by intros ? ?%elem_of_nil].
      pose proof (scan_level_levels t (r0 :: rf) succ pred [] j Hs Hdisj_r Hrf)
        as Hlev.
      lapply Hlev; [clear Hlev; intros Hlev|by intros ? ?%elem_of_nil].
      lapply Hlev; [clear Hlev; intros Hlev|by intros x l _; apply Hds].
      specialize (Hlev (depth_inv_mono _ _ _ (Nat.le_succ_diag_r j) Hds)).
      destruct (scan_level (g_adj G) (r0 :: rf) succ pred [])
        as [[succ' w|succ' rf']| |]; [| |done..]; simpl.
      * intros lf lb q Hlf Hlb Hhd Hlast Hwalk.
        specialize (Hlev _ _ Hlb). specialize (Hdp _ _ Hlf).
        specialize (Hfar q Hbp Hbs Hdisj Hhd Hlast Hwalk). lia.
      * destruct Hspec as (Hs' & Hdisj'%disjoint_keys_sym & Hmono & Hrf' & _).
        destruct Hlev as (Hds' & Hnew & Hclosed & _).
        apply (IH pred succ' (f0 :: ff) rf' i (S j)); try done.
        -- exact (ball_inv_step t succ succ' (r0 :: rf) j Hbs Hcs Hmono Hclosed).
        -- exact (closed_inv_step succ succ' (r0 :: rf) rf' Hcs Hmono Hnew
                    Hclosed).
Qed.
Lemma chain_singleton r x l :
  chain ({[r := None]} : gmap value (option value)) x l → x = r ∧ l = [r].
Proof.
  intros [r' Hr|w v l' Hw _].
  - by apply lookup_singleton_Some in Hr as [<- _].
  - by apply lookup_singleton_Some in Hw as [_ ?].
Qed.

Lemma within_0 a b : within G 0 a b → a = b.
Proof.
  intros (p & Hhd & Hlast & _ & Hlen).
  destruct p as [|x [|??]]; simpl in *; [done| |lia]. congruence.
Qed.

Lemma bidirectional_pred_succ_levels s t :
  has_node G s → has_node G t →
  match bidirectional_pred_succ G s t with
  | Return (pred, succ, w) =>
      ∀ lf lb q, chain pred w lf → chain succ w lb →
        head q = Some s → last q = Some t → is_walk G q →
        length lf + length lb ≤ length q + 1
  | Raise _ => ¬ connected G s t
  | OutOfFuel => True
  end.
Proof.
  intros Hs Ht. unfold bidirectional_pred_succ.
  destruct (decide (t = s)) as [->|Hne].
  - intros lf lb q [_ ->]%chain_singleton [_ ->]%chain_singleton Hhd _ _.
    destruct q; [done|]. simpl. lia.
  - apply (search_loop_levels s t _ _ _ _ _ 0 0).
    + by apply tree_inv_singleton.
    + by apply tree_inv_singleton.
    + intros x [? [<- _]%lookup_singleton_Some]. by apply lookup_singleton_ne.
    + intros x ->%list_elem_of_singleton. by rewrite lookup_singleton_eq.
    + intros x ->%list_elem_of_singleton. by rewrite lookup_singleton_eq.
    + intros x <-%within_0. by rewrite lookup_singleton_eq.
    + intros x [? [<- _]%lookup_singleton_Some]. left. left.
    + intros x l [_ ->]%chain_singleton. done.
    + intros x <-%within_0. by rewrite lookup_singleton_eq.
    + intros x [? [<- _]%lookup_singleton_Some]. left. left.
    + intros x l [_ ->]%chain_singleton. done.
Qed.

Local Arguments follow : simpl never.

(** The path that [bidirectional_shortest_path] returns is no longer than
    any walk from [source] to [target], and [NetworkXNoPath] is raised
    only when there is no such walk. *)
Lemma bidirectional_shortest_path_shortest s t :
  match bidirectional_shortest_path G s t with
  | Return p =>
      ∀ q, head q = Some s → last q = Some t → is_walk G q →
        length p ≤ length q
  | Raise NetworkXNoPath => ¬ connected G s t
  | _ => True
  end.
Proof.
  unfold bidirectional_shortest_path.
  destruct (has_node G s) eqn:Hs; simpl; [|done].
  destruct (has_node G t) eqn:Ht; simpl; [|done].
  apply Is_true_true in Hs, Ht.
  pose proof (bidirectional_pred_succ_spec G HG s t Hs Ht) as Hspec.
  pose proof (bidirectional_pred_succ_levels s t Hs Ht) as Hlev.
  destruct (bidirectional_pred_succ G s t) as [[[pred succ] w]|e|]; simpl;
    [|by subst e|done].
  destruct Hspec as (Hp & Hsu & Hwp & Hws & _).
  destruct (tree_inv_follow G s pred w Hp Hwp) as (lf & -> & Hcf & _).
  destruct (tree_inv_follow G t succ w Hsu Hws)
    as (lb & _ & Hcb & Hndb & _ & Hinb & _).
  simpl. inversion Hcb as [r Hr|w0 v lb' Hv Hcb']; subst.
  - rewrite Hr. intros q Hhd Hlast Hwalk.
    specialize (Hlev _ _ q Hcf Hcb Hhd Hlast Hwalk).
    rewrite length_reverse. simpl in Hlev. lia.
  - rewrite Hv.
    assert (follow (S (size succ)) succ v = Return lb') as ->.
    { apply follow_chain; [done|]. rewrite <-size_dom.
      etrans; [|apply Nat.le_succ_diag_r].
      apply NoDup_cons in Hndb as [_ Hndb].
      apply NoDup_length_size; [done|]. intros x Hx.
      apply elem_of_dom, Hinb. by right. }
    simpl. intros q Hhd Hlast Hwalk.
    specialize (Hlev _ _ q Hcf Hcb Hhd Hlast Hwalk).
    rewrite length_app, length_reverse. simpl in Hlev. lia.
Qed.

(** The end of a walk between two different nodes is a node of the graph. *)
Lemma connected_end_node a b :
  a ≠ b → connected G a b → has_node G b.
Proof.
  intros Hne (q & Hhd & [q' ->]%last_Some & Hwalk).
  destruct (last q') as [y|] eqn:Hy.
  2:{ apply last_None in Hy as ->. simpl in Hhd. congruence. }
  apply last_Some in Hy as [q'' ->].
  rewrite <-app_assoc in Hwalk. simpl in Hwalk.
  apply is_walk_app_inv in Hwalk as [_ [Hyb _]].
  by eapply has_edge_node_r.
Qed.
End search_levels.

(** X1. The Dacus number is a shortest distance: no walk from the artist
    to "Lucy Dacus" has fewer edges than the distance returned. *)
Theorem dacus_number_minimal (G : Graph) (a : value) (d : Z)
    (p q : list value) :
  graph_wf G →
  calculate_dacus_number a G = Return (Some d, Some p) →
  head q = Some a → last q = Some reference → is_walk G q →
  (d ≤ Z.of_nat (length q) - 1)%Z.
Proof.
  intros HG. unfold calculate_dacus_number, shortest_path.
  destruct (has_node G a) eqn:Ha; simpl; [|done].
  destruct (decide (a = reference)) as [->|Hne]; simpl.
  - intros [= <- <-] Hhd _ _. destruct q; [done|]. simpl. lia.
  - pose proof (bidirectional_shortest_path_shortest G HG a reference) as H.
    destruct (bidirectional_shortest_path G a reference) as [p'|e|]; simpl.
    + intros [= <- <-] Hhd Hlast Hwalk. specialize (H q Hhd Hlast Hwalk). lia.
    + by destruct e.
    + done.
Qed.

Lemma dacus_number_minimal_witness :
  (2 ≤ Z.of_nat
         (length [VStr "boygenius"; VStr "Julien Baker"; VStr "boygenius";
                  VStr "Julien Baker"; VStr "Lucy Dacus"]) - 1)%Z.
Proof.
  apply (dacus_number_minimal example_graph (VStr "boygenius") 2
           [VStr "boygenius"; VStr "Julien Baker"; VStr "Lucy Dacus"]).
  - apply graph_wfb_sound. reflexivity.
  - reflexivity.
  - reflexivity.
  - reflexivity.
  - simpl. repeat split; exact I.
Defined.

(** X2. For an artist that is a node of the graph, a distance and a path
    are returned exactly when the graph connects the artist to "Lucy
    Dacus": the null pair means that there is no connection. *)
Theorem dacus_found_iff_connected (G : Graph) (a : value) :
  graph_wf G → has_node G a →
  connected G a reference ↔
  ∃ d p, calculate_dacus_number a G = Return (Some d, Some p).
Proof.
  intros HG Ha. unfold calculate_dacus_number, shortest_path.
  rewrite (Is_true_true_1 _ Ha). simpl.
  destruct (decide (a = reference)) as [->|Hne]; simpl.
  { split; [eauto|]. intros _. by exists [reference]. }
  pose proof (bidirectional_shortest_path_spec G HG a reference) as Hspec.
  pose proof (bidirectional_shortest_path_shortest G HG a reference) as Hshort.
  destruct (bidirectional_shortest_path G a reference) as [p|e|]; simpl.
  - split; [eauto|]. intros _.
    destruct Hspec as (_ & _ & ? & ? & ? & _). by exists p.
  - destruct e; simpl.
    + split; [|by intros (? & ? & ?)]. intros Hc. destruct Hspec.
      split; [done|]. by apply (connected_end_node G HG a).
    + split; [done|]. by intros (? & ? & ?).
    + done.
    + done.
  - done.
Qed.

Lemma dacus_found_iff_connected_witness :
  connected example_graph (VStr "boygenius") reference ↔
  ∃ d p, calculate_dacus_number (VStr "boygenius") example_graph
         = Return (Some d, Some p).
Proof.
  apply dacus_found_iff_connected.
  - apply graph_wfb_sound. reflexivity.
  - exact I.
Defined.

(** * The neighbourhood of the path and its figure *)

Section filter_dict_facts.
Context {V : Type}.
Implicit Types (k : value) (d : list (value * V)) (nodes : gset value).

Lemma dict_get_filter_keys nodes k d :
  dict_get k (filter (λ kv, kv.1 ∈ nodes) d)
  = if decide (k ∈ nodes) then dict_get k d else None.
Proof.
  induction d as [|[k' v'] d IH]; simpl.
  - by destruct (decide (k ∈ nodes)).
  - rewrite filter_cons. simpl. destruct (decide (k' ∈ nodes)) as [Hk'|Hk']; simpl.
    + destruct (decide (k = k')) as [->|]; [by rewrite decide_True|apply IH].
    + rewrite IH. destruct (decide (k = k')) as [->|]; [|done].
      by destruct (decide (k' ∈ nodes)).
Qed.

Lemma keys_filter_keys nodes d :
  keys (filter (λ kv, kv.1 ∈ nodes) d) = filter (λ k, k ∈ nodes) (keys d).
Proof.
  unfold keys. induction d as [|[k' v'] d IH]; [done|].
  rewrite fmap_cons, !filter_cons. cbn [fst].
  destruct (decide (k' ∈ nodes)); [rewrite fmap_cons; cbn [fst]|]; by rewrite IH.
Qed.

Lemma dict_get_fmap_values {W} (f : V → W) k d :
  dict_get k ((λ kv, (kv.1, f kv.2)) <$> d) = f <$> dict_get k d.
Proof.
  induction d as [|[k' v'] d IH]; simpl; [done|].
  destruct (decide (k = k')) as [->|]; [done|apply IH].
Qed.

Lemma keys_fmap_values {W} (f : V → W) d :
  keys ((λ kv, (kv.1, f kv.2)) <$> d) = keys d.
Proof. unfold keys. rewrite <-list_fmap_compose. by apply list_fmap_ext. Qed.
End filter_dict_facts.

Section subgraph_facts.
Variable G : Graph.
Implicit Types (nodes : gset value) (n u v : value) (path : list value).

Lemma has_node_subgraph nodes n :
  has_node (subgraph G nodes) n ↔ has_node G n ∧ n ∈ nodes.
Proof.
  rewrite !has_node_spec. unfold subgraph. cbn [g_node].
  rewrite keys_filter_keys, list_elem_of_filter. naive_solver.
Qed.

Lemma has_edge_subgraph nodes u v :
  has_edge (subgraph G nodes) u v ↔ has_edge G u v ∧ u ∈ nodes ∧ v ∈ nodes.
Proof.
  rewrite !has_edge_spec. unfold subgraph. cbn [g_adj].
  rewrite (dict_get_fmap_values (filter (λ kv', kv'.1 ∈ nodes))).
  rewrite dict_get_filter_keys.
  destruct (decide (u ∈ nodes)) as [Hu|Hu].
  - destruct (dict_get u (g_adj G)) as [nbrs|]; simpl.
    + split.
      * intros (? & [= <-] & Hv).
        rewrite keys_filter_keys, list_elem_of_filter in Hv.
        naive_solver.
      * intros ((? & [= <-] & Hv) & _ & Hvn). eexists; split; [done|].
        by rewrite keys_filter_keys, list_elem_of_filter.
    + split; [by intros (? & ? & ?)|by intros ((? & ? & ?) & _)].
  - simpl. split; [by intros (? & ? & ?)|by intros (_ & ? & _)].
Qed.

(** The view is a well-formed graph again. *)
Lemma subgraph_wf nodes : graph_wf G → graph_wf (subgraph G nodes).
Proof.
  intros HG. split.
  - unfold subgraph. cbn [g_node g_adj].
    rewrite (keys_fmap_values (filter (λ kv', kv'.1 ∈ nodes))).
    by rewrite !keys_filter_keys, (wf_keys _ HG).
  - intros u v. rewrite !has_edge_subgraph. intros (? & ? & ?).
    split_and!; [by apply HG|done..].
Qed.

Lemma is_walk_subgraph nodes path :
  is_walk G path → (∀ x, x ∈ path → x ∈ nodes) →
  is_walk (subgraph G nodes) path.
Proof.
  induction path as [|x [|y path] IH]; [done..|].
  intros [Hxy Hwalk] Hin. split.
  - apply has_edge_subgraph. split_and!; [done|apply Hin..].
    + left.
    + right. left.
  - apply IH; [done|]. intros z Hz. apply Hin. by right.
Qed.
End subgraph_facts.

Section keys_unique_facts.
Implicit Types (G : Graph) (n u v : value).

Lemma dict_set_NoDup {K V} `{EqDecision K} (k : K) (v : V) (d : list (K * V)) :
  NoDup (keys d) → NoDup (keys (dict_set k v d)).
Proof.
  intros Hnd. destruct (decide (k ∈ keys d)) as [Hin|Hnin].
  - by rewrite keys_dict_set_old.
  - rewrite keys_dict_set_new by done. apply NoDup_app.
    split_and!; [done| |apply NoDup_singleton].
    by intros x ? ->%list_elem_of_singleton.
Qed.

Lemma dict_get_elem_of {K V} `{EqDecision K} (k : K) (v : V) (d : list (K * V)) :
  NoDup (keys d) → (k, v) ∈ d → dict_get k d = Some v.
Proof.
  unfold keys. induction d as [|[k' v'] d IH]; simpl.
  - by intros _ ?%elem_of_nil.
  - intros [Hk' Hnd]%NoDup_cons [[= -> ->]|Hin]%elem_of_cons.
    + by rewrite decide_True.
    + rewrite decide_False; [by apply IH|]. intros ->. apply Hk'.
      apply list_elem_of_fmap. by exists (k', v).
Qed.

Lemma ensure_node_keys_unique G n : keys_unique G → keys_unique (ensure_node n G).
Proof.
  unfold keys_unique, ensure_node. intros Hnd.
  destruct (has_node G n); [done|]. by apply dict_set_NoDup.
Qed.

Lemma add_node_keys_unique G attr n : keys_unique G → keys_unique (add_node attr G n).
Proof.
  intros Hnd%(ensure_node_keys_unique _ n). by apply dict_set_NoDup.
Qed.

Lemma add_edge_keys_unique G u v attr :
  keys_unique G → keys_unique (add_edge u v attr G).
Proof.
  intros Hnd. unfold keys_unique, add_edge. cbn [g_node].
  by do 2 apply ensure_node_keys_unique.
Qed.

Lemma nx_graph_keys_unique G : nx_graph G → keys_unique G.
Proof.
  induction 1; [apply NoDup_nil_2|by apply add_node_keys_unique|
                by apply add_edge_keys_unique].
Qed.

Lemma add_nodes_from_nx_graph nodes attr G :
  nx_graph G → nx_graph (add_nodes_from nodes attr G).
Proof.
  unfold add_nodes_from. revert G.
  induction nodes as [|n nodes IH]; intros G HG; simpl; [done|].
  by apply IH, nx_add_node.
Qed.

Lemma add_edges_from_nx_graph pairs attr G :
  nx_graph G → nx_graph (add_edges_from pairs attr G).
Proof.
  unfold add_edges_from. revert G.
  induction pairs as [|pr pairs IH]; intros G HG; simpl; [done|].
  by apply IH, nx_add_edge.
Qed.

(** [build_graph] builds its graph through the calls of networkx. *)
Lemma build_graph_nx_graph set_order df sim include_nmf :
  nx_graph (build_graph set_order df sim include_nmf).
Proof.
  unfold build_graph. rewrite add_similarity_edges_pairs.
  assert (nx_graph (add_edges_from (similarity_pairs sim) [("weight", ANum 1)]
    (add_nodes_from (similar_artists_liked set_order sim)
       [("type", AStr "similar_liked")]
       (add_nodes_from (liked_artists set_order df) [("type", AStr "liked")]
          empty_graph)))) as HG.
  { apply add_edges_from_nx_graph, add_nodes_from_nx_graph,
      add_nodes_from_nx_graph, nx_empty. }
  destruct (_ && _); [|done]. by do 2 apply add_nodes_from_nx_graph.
Qed.

Lemma subgraph_keys_unique G (nodes : gset value) :
  keys_unique G → keys_unique (subgraph G nodes).
Proof.
  unfold keys_unique, subgraph. cbn [g_node]. rewrite keys_filter_keys.
  apply NoDup_filter.
Qed.
End keys_unique_facts.

Lemma size_union_le (X Y : gset value) : size (X ∪ Y) ≤ size X + size Y.
Proof.
  rewrite size_union_alt.
  pose proof (subseteq_size (Y ∖ X) Y ltac:(set_solver)). lia.
Qed.

Section viz_nodes_facts.
Variable G : Graph.
Hypothesis HG : graph_wf G.
Implicit Types (path : list value) (acc ctx nodes : gset value) (n x : value).

Lemma neighbors_node n : has_node G n → is_Some (neighbors G n).
Proof.
  intros Hn. unfold neighbors.
  destruct (has_node_adj G n HG Hn) as [nbrs ->]. by eexists.
Qed.

Lemma neighbors_not_node n : ¬ has_node G n → neighbors G n = None.
Proof.
  intros Hn. unfold neighbors.
  assert (dict_get n (g_adj G) = None) as ->; [|done].
  apply dict_get_None_keys. by rewrite (wf_keys _ HG), <-has_node_spec.
Qed.

Lemma neighbors_edge n nbrs x :
  neighbors G n = Some nbrs → x ∈ nbrs → has_edge G n x.
Proof.
  unfold neighbors. intros Hn Hx.
  destruct (dict_get n (g_adj G)) as [d|] eqn:Hd; simplify_eq/=.
  apply has_edge_spec. eauto.
Qed.

Lemma context_nodes_spec path acc :
  (∀ x, x ∈ path → has_node G x) →
  ∃ ctx, context_nodes G path acc = Some ctx ∧
    (∀ n, n ∈ acc → n ∈ ctx) ∧
    (∀ n, n ∈ ctx → n ∈ acc ∨ ∃ x, x ∈ path ∧ has_edge G x n) ∧
    size ctx ≤ size acc + 3 * length path.
Proof.
  revert acc. induction path as [|node path IH]; intros acc Hpath; simpl.
  - exists acc. split_and!; [done|done|auto|lia].
  - destruct (neighbors_node node) as [nbrs Hnbrs]; [apply Hpath; left|].
    rewrite Hnbrs. simpl.
    destruct (IH (acc ∪ list_to_set (take 3 nbrs))) as (ctx & -> & Hsub & Hfrom & Hsize).
    { intros x Hx. apply Hpath. by right. }
    exists ctx. split_and!; [done| | |].
    + intros n Hn. apply Hsub. set_solver.
    + intros n Hn. destruct (Hfrom n Hn) as [[?|Hn']%elem_of_union|(x & ? & ?)].
      * by left.
      * right. exists node. split; [left|].
        apply elem_of_list_to_set in Hn'.
        apply (neighbors_edge node nbrs); [done|].
        by apply (subseteq_take 3 nbrs).
      * right. exists x. split; [by right|done].
    + pose proof (size_union_le acc (list_to_set (take 3 nbrs))).
      pose proof (size_list_to_set_le (take 3 nbrs)).
      pose proof (length_take nbrs 3).
      change (length (node :: path)) with (S (length path)). lia.
Qed.

Lemma context_nodes_None path acc x :
  x ∈ path → ¬ has_node G x → context_nodes G path acc = None.
Proof.
  revert acc. induction path as [|node path IH]; intros acc; simpl.
  - by intros ?%elem_of_nil.
  - intros [->|Hx]%elem_of_cons Hnode.
    + by rewrite neighbors_not_node.
    + destruct (neighbors G node); simpl; [by apply IH|done].
Qed.

Lemma all_viz_nodes_path path nodes x :
  all_viz_nodes G path = Some nodes → x ∈ path → x ∈ nodes.
Proof.
  unfold all_viz_nodes. destruct (context_nodes G path ∅); simpl; [|done].
  intros [= <-] Hx. apply elem_of_union. left. by apply elem_of_list_to_set.
Qed.

(** The end of a walk that starts in a node is a node, and so is every
    node on the way. *)
Lemma walk_nodes path a :
  head path = Some a → has_node G a → is_walk G path →
  ∀ x, x ∈ path → has_node G x.
Proof.
  revert a. induction path as [|y path IH]; intros a Hhd Ha Hwalk x Hx.
  { by apply elem_of_nil in Hx. }
  simpl in Hhd. simplify_eq. apply elem_of_cons in Hx as [->|Hx]; [done|].
  destruct path as [|z path]; [by apply elem_of_nil in Hx|].
  destruct Hwalk as [Haz Hwalk].
  apply (IH z); [done|by eapply has_edge_node_r|done..].
Qed.
End viz_nodes_facts.

Lemma all_viz_nodes_spec (G : Graph) (path : list value) :
  graph_wf G → (∀ x, x ∈ path → has_node G x) →
  ∃ nodes, all_viz_nodes G path = Some nodes ∧
    (∀ x, x ∈ path → x ∈ nodes) ∧
    (∀ n, n ∈ nodes → has_node G n) ∧
    size nodes ≤ 4 * length path.
Proof.
  intros HG Hpath. unfold all_viz_nodes.
  destruct (context_nodes_spec G HG path ∅ Hpath)
    as (ctx & -> & _ & Hfrom & Hsize).
  simpl. eexists. split_and!; [done| | |].
  - intros x Hx. apply elem_of_union. left. by apply elem_of_list_to_set.
  - intros n [Hn%elem_of_list_to_set|Hn]%elem_of_union; [by apply Hpath|].
    destruct (Hfrom n Hn) as [[]%not_elem_of_empty|(x & _ & Hxn)].
    by eapply has_edge_node_r.
  - pose proof (size_union_le (list_to_set path) ctx).
    pose proof (size_list_to_set_le path).
    rewrite size_empty in Hsize. lia.
Qed.

(** X3. For a path whose nodes are in the graph, the page collects the
    nodes to draw without an error: the nodes of the path are among them,
    all of them are nodes of the graph, and they are at most four times as
    many as the path is long. When a node of the path is not in the graph,
    the collection fails. *)
Theorem viz_nodes_bounded (G : Graph) (path : list value) :
  graph_wf G →
  ((∀ x, x ∈ path → has_node G x) →
   ∃ nodes, all_viz_nodes G path = Some nodes ∧
     (∀ x, x ∈ path → x ∈ nodes) ∧
     (∀ n, n ∈ nodes → has_node G n) ∧
     size nodes ≤ 4 * length path) ∧
  (∀ x, x ∈ path → ¬ has_node G x → all_viz_nodes G path = None).
Proof.
  intros HG. split.
  - by apply all_viz_nodes_spec.
  - intros x Hx Hnode. unfold all_viz_nodes.
    by rewrite (context_nodes_None G HG path ∅ x).
Qed.

Lemma viz_nodes_bounded_witness :
  let path := [VStr "boygenius"; VStr "Julien Baker"; VStr "Lucy Dacus"] in
  (∃ nodes, all_viz_nodes example_graph path = Some nodes ∧
     (∀ x, x ∈ path → x ∈ nodes) ∧
     (∀ n, n ∈ nodes → has_node example_graph n) ∧
     size nodes ≤ 4 * length path) ∧
  all_viz_nodes example_graph [VStr "Phoebe Bridgers"] = None.
Proof.
  destruct (viz_nodes_bounded example_graph
              [VStr "boygenius"; VStr "Julien Baker"; VStr "Lucy Dacus"])
    as [H1 _]; [apply graph_wfb_sound; reflexivity|].
  destruct (viz_nodes_bounded example_graph [VStr "Phoebe Bridgers"])
    as [_ H2]; [apply graph_wfb_sound; reflexivity|].
  split.
  - apply H1. intros x Hx.
    repeat (apply elem_of_cons in Hx as [->|Hx]; [exact I|]).
    by apply elem_of_nil in Hx.
  - apply (H2 (VStr "Phoebe Bridgers")); [left|intros []].
Defined.

(** X4. The graph that is drawn keeps the path: when the path is a walk
    in the graph, it is a walk in the subgraph of the collected nodes, all
    its nodes are nodes of that subgraph, and the subgraph has no edge
    that the graph does not have. *)
Theorem viz_subgraph_keeps_path (G : Graph) (path : list value)
    (nodes : gset value) :
  is_walk G path → (∀ x, x ∈ path → has_node G x) →
  all_viz_nodes G path = Some nodes →
  is_walk (subgraph G nodes) path ∧
  (∀ x, x ∈ path → has_node (subgraph G nodes) x) ∧
  (∀ u v, has_edge (subgraph G nodes) u v → has_edge G u v).
Proof.
  intros Hwalk Hpath Hnodes.
  pose proof (all_viz_nodes_path G path nodes) as Hin.
  split_and!.
  - apply is_walk_subgraph; [done|]. intros x Hx. by apply Hin.
  - intros x Hx. apply has_node_subgraph. split; [by apply Hpath|by apply Hin].
  - intros u v Huv. by apply has_edge_subgraph in Huv as [? _].
Qed.

Lemma viz_subgraph_keeps_path_witness :
  let path := [VStr "boygenius"; VStr "Julien Baker"; VStr "Lucy Dacus"] in
  let nodes : gset value := list_to_set path in
  is_walk (subgraph example_graph nodes) path ∧
  (∀ x, x ∈ path → has_node (subgraph example_graph nodes) x) ∧
  (∀ u v, has_edge (subgraph example_graph nodes) u v
          → has_edge example_graph u v).
Proof.
  apply viz_subgraph_keeps_path.
  - simpl. repeat split; exact I.
  - intros x Hx.
    repeat (apply elem_of_cons in Hx as [->|Hx]; [exact I|]).
    by apply elem_of_nil in Hx.
  - vm_compute. reflexivity.
Defined.

Section edges_facts.
Implicit Types (G : Graph) (u v : value) (path : list value).

Lemma elem_of_edges_go seen adj u v :
  (u, v) ∈ edges_go seen adj →
  ∃ nbrs : list (value * attrs), (u, nbrs) ∈ adj ∧ v ∈ keys nbrs.
Proof.
  revert seen. induction adj as [|[n nbrs] adj IH]; intros seen; simpl.
  - by intros ?%elem_of_nil.
  - intros [Hin|Hin]%elem_of_app.
    + unfold edges_of in Hin.
      apply list_elem_of_fmap in Hin as (nbr & [= -> ->] & Hnbr).
      apply list_elem_of_filter in Hnbr as [_ ?]. exists nbrs. split; [left|done].
    + destruct (IH _ Hin) as (nbrs' & ? & ?). exists nbrs'. split; [by right|done].
Qed.

(** What [G.edges()] reports are edges of the graph. *)
Lemma elem_of_edges G u v :
  graph_wf G → keys_unique G → (u, v) ∈ edges G → has_edge G u v.
Proof.
  intros HG Hnd (nbrs & Hin & Hv)%elem_of_edges_go.
  apply has_edge_spec. exists nbrs. split; [|done].
  apply dict_get_elem_of; [|done]. by rewrite (wf_keys _ HG).
Qed.

Lemma length_path_edges path : length (path_edges path) = length path - 1.
Proof.
  induction path as [|x [|y path] IH]; [done..|].
  change (path_edges (x :: y :: path)) with ((x, y) :: path_edges (y :: path)).
  simpl in *. lia.
Qed.

Lemma elem_of_path_edges path u v :
  (u, v) ∈ path_edges path → u ∈ path ∧ v ∈ path.
Proof.
  induction path as [|x [|y path] IH]; [by intros ?%elem_of_nil..|].
  change (path_edges (x :: y :: path)) with ((x, y) :: path_edges (y :: path)).
  intros [[= -> ->]|Hin]%elem_of_cons.
  - split; [left|right; left].
  - destruct (IH Hin). split; by right.
Qed.

(** Every node of a path of two nodes or more is an end of one of its
    edges. *)
Lemma path_edges_cover path x :
  2 ≤ length path → x ∈ path →
  ∃ e, e ∈ path_edges path ∧ (x = e.1 ∨ x = e.2).
Proof.
  induction path as [|y [|z path] IH]; simpl; [lia..|].
  intros _ [->|Hx]%elem_of_cons.
  - exists (y, z). split; [left|by left].
  - destruct path as [|z' path].
    + apply list_elem_of_singleton in Hx as ->.
      exists (y, z). split; [left|by right].
    + destruct IH as (e & ? & ?); [simpl; lia|done|].
      exists e. split; [by right|done].
Qed.
End edges_facts.

Local Arguments pos_get : simpl never.

Section visualize_facts.
Context {coord : Type}.
Variable spring_layout : Graph → list (value * (coord * coord)).
Hypothesis Hlayout : layout_ok spring_layout.
Implicit Types (G : Graph) (path : list value) (es : list (value * value)).
Implicit Types (pos : list (value * (coord * coord))).

Lemma pos_get_Some pos n :
  is_Some (dict_get n pos) → ∃ xy, pos_get coord pos n = Return xy.
Proof. intros [xy Hxy]. unfold pos_get. rewrite Hxy. eauto. Qed.

Lemma pos_get_None pos n :
  ¬ is_Some (dict_get n pos) → pos_get coord pos n = Raise KeyError.
Proof.
  intros Hn. unfold pos_get. destruct (dict_get n pos); [|done].
  destruct Hn. eauto.
Qed.

Lemma line_traces_ok line pos es :
  (∀ e, e ∈ es → is_Some (dict_get e.1 pos) ∧ is_Some (dict_get e.2 pos)) →
  ∃ ts, line_traces coord line pos es = Return ts ∧
        length ts = length es ∧ Forall (drawn_with line) ts.
Proof.
  induction es as [|e es IH]; intros Hes; simpl.
  - exists []. split_and!; [done..|]. apply Forall_nil_2.
  - destruct (Hes e) as [H1 H2]; [left|].
    destruct (pos_get_Some pos _ H1) as [[x0 y0] ->].
    destruct (pos_get_Some pos _ H2) as [[x1 y1] ->]. simpl.
    destruct IH as (ts & -> & Hlen & Hall); [intros; apply Hes; by right|].
    simpl. eexists. split_and!; [done|simpl; by rewrite Hlen|].
    apply Forall_cons. split; [|done]. by exists x0, y0, x1, y1.
Qed.

Lemma line_traces_KeyError line pos es e :
  e ∈ es → ¬ is_Some (dict_get e.1 pos) ∨ ¬ is_Some (dict_get e.2 pos) →
  line_traces coord line pos es = Raise KeyError.
Proof.
  induction es as [|e' es IH]; [by intros ?%elem_of_nil|].
  intros Hin Hbad. simpl.
  destruct (decide (is_Some (dict_get e'.1 pos))) as [H1|H1].
  2:{ by rewrite (pos_get_None pos e'.1). }
  destruct (pos_get_Some pos _ H1) as [[x0 y0] ->]. simpl.
  destruct (decide (is_Some (dict_get e'.2 pos))) as [H2|H2].
  2:{ by rewrite (pos_get_None pos e'.2). }
  destruct (pos_get_Some pos _ H2) as [[x1 y1] ->]. simpl.
  apply elem_of_cons in Hin as [->|Hin]; [by destruct Hbad|].
  by rewrite IH.
Qed.

Lemma node_trace_ok pos nodes x y text :
  (∀ n, n ∈ nodes → is_Some (dict_get n pos)) →
  ∃ x' y', node_trace coord pos nodes x y text
           = Return (NodeMarkers coord x' y' (text ++ nodes)) ∧
    length x' = length x + length nodes ∧
    length y' = length y + length nodes.
Proof.
  revert x y text. induction nodes as [|n nodes IH]; intros x y text Hn; simpl.
  - exists x, y. rewrite app_nil_r. split_and!; [done|lia..].
  - destruct (pos_get_Some pos n) as [[xn yn] ->]; [apply Hn; left|]. simpl.
    destruct (IH (x ++ [xn]) (y ++ [yn]) (text ++ [n])) as (x' & y' & -> & Hx & Hy).
    { intros; apply Hn; by right. }
    exists x', y'. rewrite <-app_assoc. rewrite !length_app in *. simpl in *.
    split_and!; [done|lia..].
Qed.

(** The figure of a path whose nodes are in the graph. *)
Lemma visualize_ok G path :
  graph_wf G → keys_unique G → (∀ x, x ∈ path → has_node G x) →
  ∃ edge_trace xs ys path_trace,
    visualize_artist_network coord spring_layout G path
    = Return (edge_trace ++ NodeMarkers coord xs ys (keys (g_node G))
                            :: path_trace) ∧
    length edge_trace = length (edges G) ∧
    Forall (drawn_with (EdgeLine coord)) edge_trace ∧
    length xs = length (g_node G) ∧ length ys = length (g_node G) ∧
    length path_trace = length path - 1 ∧
    Forall (drawn_with (PathLine coord)) path_trace.
Proof.
  intros HG Hnd Hpath. unfold visualize_artist_network.
  destruct (line_traces_ok (EdgeLine coord) (spring_layout G) (edges G))
    as (et & -> & Hlen_e & Hall_e).
  { intros [u v] Huv%elem_of_edges; [|done..]. simpl. split; apply Hlayout.
    - by eapply has_edge_node_l.
    - by eapply has_edge_node_r. }
  simpl.
  destruct (node_trace_ok (spring_layout G) (keys (g_node G)) [] [] [])
    as (xs & ys & -> & Hxs & Hys).
  { intros n Hn. by apply Hlayout, has_node_spec. }
  simpl.
  destruct (line_traces_ok (PathLine coord) (spring_layout G) (path_edges path))
    as (pt & -> & Hlen_p & Hall_p).
  { intros [u v] [Hu Hv]%elem_of_path_edges. simpl.
    split; apply Hlayout; by apply Hpath. }
  simpl. exists et, xs, ys, pt. unfold keys in Hxs, Hys.
  rewrite length_fmap in Hxs, Hys. rewrite length_path_edges in Hlen_p.
  split_and!; done.
Qed.
End visualize_facts.

Lemma flat_layout_ok : layout_ok flat_layout.
Proof.
  intros G n. unfold flat_layout. rewrite dict_get_keys, has_node_spec.
  unfold keys. rewrite <-list_fmap_compose.
  by rewrite (list_fmap_ext _ id (g_node G).*1 (λ _ _ _, eq_refl)), list_fmap_id.
Qed.

Lemma example_graph_keys_unique : keys_unique example_graph.
Proof. apply (bool_decide_unpack _). by vm_compute. Qed.

Lemma calculate_dacus_number_path (G : Graph) (a : value) (d : Z)
    (p : list value) :
  graph_wf G → calculate_dacus_number a G = Return (Some d, Some p) →
  has_node G a ∧ d = (Z.of_nat (length p) - 1)%Z ∧
  head p = Some a ∧ is_walk G p.
Proof.
  intros HG. unfold calculate_dacus_number, shortest_path.
  destruct (has_node G a) eqn:Ha; simpl; [|done].
  destruct (decide (a = reference)) as [->|Hne]; simpl.
  - intros [= <- <-]. split_and!; done.
  - pose proof (bidirectional_shortest_path_spec G HG a reference) as H.
    destruct (bidirectional_shortest_path G a reference) as [q|e|]; simpl.
    + intros [= <- <-]. destruct H as (? & _ & Hhd & _ & Hwalk & _).
      split_and!; done.
    + by destruct e.
    + done.
Qed.

(** X5. For a path whose nodes are in the graph,
    [visualize_artist_network] returns a figure: one grey line for every
    edge of the graph, then the markers that name every node of the graph,
    then one red line for every step of the path. *)
Theorem visualize_figure {coord : Type}
    (spring_layout : Graph → list (value * (coord * coord)))
    (G : Graph) (path : list value) :
  layout_ok spring_layout → graph_wf G → keys_unique G →
  (∀ x, x ∈ path → has_node G x) →
  ∃ edge_trace xs ys path_trace,
    visualize_artist_network coord spring_layout G path
    = Return (edge_trace ++ NodeMarkers coord xs ys (keys (g_node G))
                            :: path_trace) ∧
    length edge_trace = length (edges G) ∧
    Forall (drawn_with (EdgeLine coord)) edge_trace ∧
    length xs = length (g_node G) ∧ length ys = length (g_node G) ∧
    length path_trace = length path - 1 ∧
    Forall (drawn_with (PathLine coord)) path_trace.
Proof. intros Hlayout. by apply visualize_ok. Qed.

Lemma visualize_figure_witness :
  let path := [VStr "boygenius"; VStr "Julien Baker"; VStr "Lucy Dacus"] in
  ∃ edge_trace xs ys path_trace,
    visualize_artist_network Z flat_layout example_graph path
    = Return (edge_trace ++ NodeMarkers Z xs ys (keys (g_node example_graph))
                            :: path_trace) ∧
    length edge_trace = length (edges example_graph) ∧
    Forall (drawn_with (EdgeLine Z)) edge_trace ∧
    length xs = length (g_node example_graph) ∧
    length ys = length (g_node example_graph) ∧
    length path_trace = length path - 1 ∧
    Forall (drawn_with (PathLine Z)) path_trace.
Proof.
  apply visualize_figure.
  - exact flat_layout_ok.
  - apply graph_wfb_sound. reflexivity.
  - exact example_graph_keys_unique.
  - intros x Hx.
    repeat (apply elem_of_cons in Hx as [->|Hx]; [exact I|]).
    by apply elem_of_nil in Hx.
Defined.

(** X6. A path of two nodes or more with a node that is not in the graph
    makes [visualize_artist_network] raise [KeyError]: the layout has no
    position for that node. *)
Theorem visualize_missing_node {coord : Type}
    (spring_layout : Graph → list (value * (coord * coord)))
    (G : Graph) (path : list value) (x : value) :
  layout_ok spring_layout → graph_wf G → keys_unique G →
  2 ≤ length path → x ∈ path → ¬ has_node G x →
  visualize_artist_network coord spring_layout G path = Raise KeyError.
Proof.
  intros Hlayout HG Hnd Hlen Hx Hnode. unfold visualize_artist_network.
  destruct (line_traces_ok (EdgeLine coord) (spring_layout G) (edges G))
    as (et & -> & _).
  { intros [u v] Huv%elem_of_edges; [|done..]. simpl. split; apply Hlayout.
    - by eapply has_edge_node_l.
    - by eapply has_edge_node_r. }
  simpl.
  destruct (node_trace_ok (spring_layout G) (keys (g_node G)) [] [] [])
    as (xs & ys & -> & _).
  { intros n Hn. by apply Hlayout, has_node_spec. }
  simpl.
  destruct (path_edges_cover path x Hlen Hx) as (e & He & Hxe).
  rewrite (line_traces_KeyError (PathLine coord) (spring_layout G) _ e He);
    [done|].
  destruct Hxe as [->| ->]; [left|right]; by intros ?%Hlayout.
Qed.

Lemma visualize_missing_node_witness :
  visualize_artist_network Z flat_layout example_graph
    [VStr "Phoebe Bridgers"; VStr "Lucy Dacus"] = Raise KeyError.
Proof.
  apply (visualize_missing_node flat_layout example_graph _
           (VStr "Phoebe Bridgers")).
  - exact flat_layout_ok.
  - apply graph_wfb_sound. reflexivity.
  - exact example_graph_keys_unique.
  - simpl. lia.
  - left.
  - intros [].
Defined.

(** ** The view in the order of its iteration *)

Section filter_atlas_facts.
Context {V : Type}.
Variable set_iter : gset value → list value.
Hypothesis Hiter : set_iter_ok set_iter.
Implicit Types (n k : value) (atlas : list (value * V)) (nodes : gset value).

Lemma dict_get_omap_keys (l : list value) k atlas :
  dict_get k (omap (λ n, (λ v, (n, v)) <$> dict_get n atlas) l)
  = if decide (k ∈ l) then dict_get k atlas else None.
Proof.
  induction l as [|n l IH]; [done|].
  change (omap ?f (n :: l))
    with (match f n with Some y => y :: omap f l | None => omap f l end).
  cbn beta. destruct (decide (k = n)) as [->|Hne].
  - rewrite decide_True by left.
    destruct (dict_get n atlas) as [v|] eqn:Hn; cbn [fmap option_fmap option_map].
    + cbn [dict_get]. by rewrite decide_True.
    + rewrite IH. by destruct (decide (n ∈ l)).
  - destruct (dict_get n atlas) as [v|]; cbn [fmap option_fmap option_map].
    + cbn [dict_get]. rewrite decide_False by done. rewrite IH.
      destruct (decide (k ∈ l)) as [Hin|Hout].
      * by rewrite decide_True by by right.
      * rewrite decide_False; [done|]. by intros [?|?]%elem_of_cons.
    + rewrite IH. destruct (decide (k ∈ l)) as [Hin|Hout].
      * by rewrite decide_True by by right.
      * rewrite decide_False; [done|]. by intros [?|?]%elem_of_cons.
Qed.

Lemma keys_omap_keys (l : list value) atlas :
  keys (omap (λ n, (λ v, (n, v)) <$> dict_get n atlas) l)
  = filter (λ n, n ∈ keys atlas) l.
Proof.
  induction l as [|n l IH]; [done|].
  change (omap ?f (n :: l))
    with (match f n with Some y => y :: omap f l | None => omap f l end).
  cbn beta. rewrite filter_cons.
  destruct (dict_get n atlas) as [v|] eqn:Hn; cbn [fmap option_fmap option_map].
  - rewrite decide_True by (apply dict_get_keys; by exists v).
    unfold keys in *. by rewrite fmap_cons, IH.
  - rewrite decide_False; [done|].
    intros [v Hv]%dict_get_keys. congruence.
Qed.

Lemma dict_get_filter_atlas nodes k atlas :
  dict_get k (filter_atlas set_iter nodes atlas)
  = if decide (k ∈ nodes) then dict_get k atlas else None.
Proof.
  unfold filter_atlas. destruct (_ <? _).
  - rewrite dict_get_omap_keys.
    destruct (decide (k ∈ set_iter nodes)) as [Hin|Hout].
    + by rewrite decide_True by by apply Hiter.
    + rewrite decide_False; [done|]. by intros ?%Hiter.
  - apply dict_get_filter_keys.
Qed.

Lemma elem_of_keys_filter_atlas nodes k atlas :
  k ∈ keys (filter_atlas set_iter nodes atlas) ↔ k ∈ nodes ∧ k ∈ keys atlas.
Proof.
  rewrite <-!dict_get_keys, dict_get_filter_atlas.
  destruct (decide (k ∈ nodes)); [naive_solver|].
  split; [by intros [? ?]|by intros [? _]].
Qed.

Lemma NoDup_keys_filter_atlas nodes atlas :
  NoDup (keys atlas) → NoDup (keys (filter_atlas set_iter nodes atlas)).
Proof.
  intros Hnd. unfold filter_atlas. destruct (_ <? _).
  - rewrite keys_omap_keys. apply NoDup_filter, Hiter.
  - rewrite keys_filter_keys. by apply NoDup_filter.
Qed.
End filter_atlas_facts.

Section subgraph_view_facts.
Variable set_iter : gset value → list value.
Hypothesis Hiter : set_iter_ok set_iter.
Variable G : Graph.
Hypothesis HG : graph_wf G.
Implicit Types (nodes : gset value) (n u v : value) (path : list value).

Lemma elem_of_induced_nodes nodes n :
  n ∈ filter (λ n, Is_true (dict_in n (g_adj G))) nodes
  ↔ n ∈ nodes ∧ has_node G n.
Proof.
  rewrite elem_of_filter, has_node_spec, <-(wf_keys _ HG), dict_in_keys.
  naive_solver.
Qed.

(** The view has the nodes and the edges of [subgraph]. *)
Lemma has_node_subgraph_view nodes n :
  has_node (subgraph_view set_iter G nodes) n ↔ has_node G n ∧ n ∈ nodes.
Proof.
  rewrite !has_node_spec. unfold subgraph_view. cbn [g_node].
  rewrite (elem_of_keys_filter_atlas set_iter Hiter), elem_of_induced_nodes.
  rewrite has_node_spec. naive_solver.
Qed.

Lemma has_edge_subgraph_view nodes u v :
  has_edge (subgraph_view set_iter G nodes) u v
  ↔ has_edge G u v ∧ u ∈ nodes ∧ v ∈ nodes.
Proof.
  rewrite !has_edge_spec. unfold subgraph_view. cbn [g_adj].
  set (induced_nodes := filter _ nodes).
  rewrite (dict_get_fmap_values (filter (λ kv', kv'.1 ∈ induced_nodes))).
  rewrite (dict_get_filter_atlas set_iter Hiter).
  split.
  - destruct (decide (u ∈ induced_nodes)) as [Hu|Hu]; [|by intros (? & ? & ?)].
    intros (nbrs' & Hget & Hv).
    destruct (dict_get u (g_adj G)) as [nbrs|] eqn:Hnbrs; [|done].
    simpl in Hget. simplify_eq.
    rewrite keys_filter_keys, list_elem_of_filter in Hv.
    destruct Hv as [Hv Hvn].
    apply elem_of_induced_nodes in Hu as [Hu _].
    apply elem_of_induced_nodes in Hv as [Hv _].
    split_and!; [|done..]. by exists nbrs.
  - intros ((nbrs & Hget & Hv) & Hu & Hvn).
    assert (has_edge G u v) as Huv by (apply has_edge_spec; eauto).
    rewrite decide_True
      by (apply elem_of_induced_nodes; split;
          [done|by eapply has_edge_node_l]).
    rewrite Hget. eexists. split; [done|].
    rewrite keys_filter_keys, list_elem_of_filter. split; [|done].
    apply elem_of_induced_nodes. split; [done|by eapply has_edge_node_r].
Qed.

Lemma subgraph_view_wf nodes : graph_wf (subgraph_view set_iter G nodes).
Proof.
  split.
  - unfold subgraph_view. cbn [g_node g_adj].
    set (induced_nodes := filter _ nodes).
    rewrite (keys_fmap_values (filter (λ kv', kv'.1 ∈ induced_nodes))).
    unfold filter_atlas.
    assert (length (g_adj G) = length (g_node G)) as ->.
    { rewrite <-(length_fmap fst (g_adj G)), <-(length_fmap fst (g_node G)).
      fold (keys (g_adj G)). fold (keys (g_node G)). by rewrite (wf_keys _ HG). }
    destruct (_ <? _).
    + by rewrite !keys_omap_keys, (wf_keys _ HG).
    + by rewrite !keys_filter_keys, (wf_keys _ HG).
  - intros u v. rewrite !has_edge_subgraph_view. intros (? & ? & ?).
    split_and!; [by apply HG|done..].
Qed.

Lemma subgraph_view_keys_unique nodes :
  keys_unique G → keys_unique (subgraph_view set_iter G nodes).
Proof.
  unfold keys_unique, subgraph_view. cbn [g_node].
  by apply NoDup_keys_filter_atlas.
Qed.

(** The nodes of the view are the nodes of the set, each once, when the
    set holds nodes of the graph only. *)
Lemma subgraph_view_nodes nodes :
  keys_unique G → (∀ n, n ∈ nodes → has_node G n) →
  keys (g_node (subgraph_view set_iter G nodes)) ≡ₚ elements nodes.
Proof.
  intros Hnd Hin. apply NoDup_Permutation.
  - by apply subgraph_view_keys_unique.
  - apply NoDup_elements.
  - intros n. rewrite <-has_node_spec, has_node_subgraph_view, elem_of_elements.
    naive_solver.
Qed.
End subgraph_view_facts.

(** One order of iteration: the elements as the model lists them. *)
Lemma elements_set_iter_ok : set_iter_ok elements.
Proof. intros X. split; [apply NoDup_elements|]. intros x. apply elem_of_elements. Qed.

(** X7. On the page, whenever [calculate_dacus_number] returns a distance
    and a path, the nodes to draw are collected and the figure of their
    subgraph is drawn without an error, in whatever order the view is
    iterated. The markers of the figure are the collected nodes, each
    once and no other node, at most four for every node of the path; the
    grey lines are as many as [edges] reports for the view, all of them
    edges of the graph between collected nodes; and the red lines are as
    many as the Dacus number says. *)
Theorem dacus_page_figure {coord : Type}
    (spring_layout : Graph → list (value * (coord * coord)))
    (set_iter : gset value → list value)
    (G : Graph) (selected_artist : value) (dacus_number : Z)
    (path : list value) :
  layout_ok spring_layout → set_iter_ok set_iter →
  graph_wf G → keys_unique G →
  calculate_dacus_number selected_artist G
  = Return (Some dacus_number, Some path) →
  ∃ nodes edge_trace xs ys text path_trace,
    all_viz_nodes G path = Some nodes ∧
    visualize_artist_network coord spring_layout
      (subgraph_view set_iter G nodes) path
    = Return (edge_trace ++ NodeMarkers coord xs ys text :: path_trace) ∧
    text ≡ₚ elements nodes ∧
    length text ≤ 4 * length path ∧
    length edge_trace = length (edges (subgraph_view set_iter G nodes)) ∧
    Forall (drawn_with (EdgeLine coord)) edge_trace ∧
    (∀ u v, (u, v) ∈ edges (subgraph_view set_iter G nodes) →
            has_edge G u v ∧ u ∈ nodes ∧ v ∈ nodes) ∧
    Z.of_nat (length path_trace) = dacus_number ∧
    Forall (drawn_with (PathLine coord)) path_trace.
Proof.
  intros Hlayout Hiter HG Hnd Hcalc.
  destruct (calculate_dacus_number_path G _ _ _ HG Hcalc)
    as (Ha & -> & Hhd & Hwalk).
  pose proof (walk_nodes G HG path selected_artist Hhd Ha Hwalk) as Hpath.
  destruct (all_viz_nodes_spec G path HG Hpath)
    as (nodes & Hnodes & Hin & Hnode & Hsize).
  pose proof (subgraph_view_wf set_iter Hiter G HG nodes) as Hwf.
  pose proof (subgraph_view_keys_unique set_iter Hiter G nodes Hnd) as Hnd'.
  pose proof (subgraph_view_nodes set_iter Hiter G HG nodes Hnd Hnode) as Hperm.
  destruct (visualize_ok spring_layout Hlayout
              (subgraph_view set_iter G nodes) path Hwf Hnd')
    as (et & xs & ys & pt & Hfig & Hlen_e & Hall_e & _ & _ & Hlen_p & Hall_p).
  { intros x Hx. apply (has_node_subgraph_view set_iter Hiter G HG).
    split; [by apply Hpath|by apply Hin]. }
  exists nodes, et, xs, ys,
    (keys (g_node (subgraph_view set_iter G nodes))), pt.
  split_and!; try done.
  - rewrite Hperm. exact Hsize.
  - intros u v Huv%elem_of_edges; [|done..].
    by apply (has_edge_subgraph_view set_iter Hiter G HG) in Huv.
  - destruct path; [done|]. simpl in *. lia.
Qed.

Lemma dacus_page_figure_witness :
  let path := [VStr "boygenius"; VStr "Julien Baker"; VStr "Lucy Dacus"] in
  ∃ nodes edge_trace xs ys text path_trace,
    all_viz_nodes example_graph path = Some nodes ∧
    visualize_artist_network Z flat_layout
      (subgraph_view elements example_graph nodes) path
    = Return (edge_trace ++ NodeMarkers Z xs ys text :: path_trace) ∧
    text ≡ₚ elements nodes ∧
    length text ≤ 4 * length path ∧
    length edge_trace
    = length (edges (subgraph_view elements example_graph nodes)) ∧
    Forall (drawn_with (EdgeLine Z)) edge_trace ∧
    (∀ u v, (u, v) ∈ edges (subgraph_view elements example_graph nodes) →
            has_edge example_graph u v ∧ u ∈ nodes ∧ v ∈ nodes) ∧
    Z.of_nat (length path_trace) = 2%Z ∧
    Forall (drawn_with (PathLine Z)) path_trace.
Proof.
  apply (dacus_page_figure flat_layout elements example_graph
           (VStr "boygenius")).
  - exact flat_layout_ok.
  - exact elements_set_iter_ok.
  - apply graph_wfb_sound. reflexivity.
  - exact example_graph_keys_unique.
  - reflexivity.
Defined.

(** * The category tags of [build_graph] *)

Section node_type_facts.
Implicit Types (G : Graph) (n x u v : value) (t : attr_val).

Lemma node_type_ensure_node G n x :
  node_type (ensure_node n G) x = node_type G x.
Proof.
  unfold ensure_node. destruct (has_node G n) eqn:Hn; [done|].
  unfold node_type. cbn [g_node]. rewrite dict_get_set.
  destruct (decide (n = x)) as [->|]; [|done].
  assert (dict_get x (g_node G) = None) as ->; [|done].
  apply dict_get_None_keys. rewrite <-has_node_spec, Hn. by intros [].
Qed.

Lemma node_type_add_node G t n x :
  node_type (add_node [("type", t)] G n) x
  = if decide (x = n) then Some t else node_type G x.
Proof.
  unfold add_node, node_type at 1. cbn [g_node]. rewrite dict_get_set.
  destruct (decide (n = x)) as [->|Hne].
  - rewrite decide_True by done. simpl. unfold attrs_update. simpl.
    apply dict_get_set_eq.
  - rewrite decide_False by done. apply node_type_ensure_node.
Qed.

Lemma node_type_add_nodes_from nodes t G x :
  node_type (add_nodes_from nodes [("type", t)] G) x
  = if decide (x ∈ nodes) then Some t else node_type G x.
Proof.
  unfold add_nodes_from. revert G.
  induction nodes as [|n nodes IH]; intros G; cbn [foldl].
  - rewrite decide_False; [done|]. by intros ?%elem_of_nil.
  - rewrite IH, node_type_add_node.
    destruct (decide (x ∈ nodes)) as [Hin|Hnin].
    + rewrite decide_True; [done|by right].
    + destruct (decide (x = n)) as [->|Hne].
      * rewrite decide_True; [done|left].
      * rewrite decide_False; [done|]. by intros [?|?]%elem_of_cons.
Qed.

(** [add_edge] leaves the tags alone, and the nodes it creates have none. *)
Lemma node_type_add_edge G u v attr x :
  node_type (add_edge u v attr G) x = node_type G x.
Proof.
  unfold add_edge, node_type at 1. cbn [g_node].
  change (dict_get x (g_node (ensure_node v (ensure_node u G))) ≫= dict_get "type")
    with (node_type (ensure_node v (ensure_node u G)) x).
  by rewrite !node_type_ensure_node.
Qed.

Lemma node_type_add_edges_from pairs attr G x :
  node_type (add_edges_from pairs attr G) x = node_type G x.
Proof.
  unfold add_edges_from. revert G.
  induction pairs as [|pr pairs IH]; intros G; simpl; [done|].
  by rewrite IH, node_type_add_edge.
Qed.
End node_type_facts.

(** X8. The tag of a node is the category that added it last: not-liked
    before NMF (both only with the flag and the rating columns), then
    similar-to-liked, then liked; a node that is in none of the four sets,
    an end of an edge only, has no tag. *)
Theorem node_type_last_category (set_order : list value → list value)
    (df df_liked_similar : DataFrame) (include_nmf : bool) (x : value) :
  node_type (build_graph set_order df df_liked_similar include_nmf) x =
  if decide (include_nmf && has_rating_columns df
             ∧ x ∈ not_liked_artists set_order df) then Some (AStr "not_liked")
  else if decide (include_nmf && has_rating_columns df
                  ∧ x ∈ nmf_artists set_order df) then Some (AStr "nmf")
  else if decide (x ∈ similar_artists_liked set_order df_liked_similar)
       then Some (AStr "similar_liked")
  else if decide (x ∈ liked_artists set_order df) then Some (AStr "liked")
  else None.
Proof.
  unfold build_graph, has_rating_columns. rewrite andb_assoc.
  destruct (include_nmf && _ && _) eqn:Hflag.
  - rewrite !node_type_add_nodes_from.
    destruct (decide (x ∈ not_liked_artists set_order df)).
    { by rewrite decide_True. }
    rewrite (decide_False (P := _ ∧ x ∈ not_liked_artists _ _)) by tauto.
    destruct (decide (x ∈ nmf_artists set_order df)).
    { by rewrite decide_True. }
    rewrite (decide_False (P := _ ∧ x ∈ nmf_artists _ _)) by tauto.
    by rewrite add_similarity_edges_pairs, node_type_add_edges_from,
      !node_type_add_nodes_from.
  - rewrite (decide_False (P := _ ∧ x ∈ not_liked_artists _ _)) by tauto.
    rewrite (decide_False (P := _ ∧ x ∈ nmf_artists _ _)) by tauto.
    by rewrite add_similarity_edges_pairs, node_type_add_edges_from,
      !node_type_add_nodes_from.
Qed.

(** * The feedback files *)

Section frame_facts.
Implicit Types (df a b : DataFrame) (c name : string) (row : list value).
Implicit Types (cols : list string).

Lemma column_index_Some c cols i :
  column_index c cols = Some i → cols !! i = Some c.
Proof.
  revert i. induction cols as [|c' cols IH]; intros i; simpl; [done|].
  destruct (decide (c = c')) as [->|Hne].
  - by intros [= <-].
  - destruct (column_index c cols) as [j|]; simpl; [|done].
    intros [= <-]. by apply IH.
Qed.

Lemma column_index_None c cols : column_index c cols = None ↔ c ∉ cols.
Proof.
  induction cols as [|c' cols IH]; simpl.
  - split; [by intros _ ?%elem_of_nil|done].
  - destruct (decide (c = c')) as [->|Hne].
    + split; [done|]. intros H. destruct H. left.
    + rewrite fmap_None, IH, not_elem_of_cons. naive_solver.
Qed.

Lemma cell_not_column df c row : c ∉ columns df → cell df c row = VNaN.
Proof. intros Hc%column_index_None. unfold cell. by rewrite Hc. Qed.

(** A realigned row has under every column name the cell it had. *)
Lemma cell_realign df cols rs c row :
  (∀ c', c' ∈ columns df → c' ∈ cols) →
  cell {| columns := cols; rows := rs |} c (realign df cols row) = cell df c row.
Proof.
  intros Hsub. unfold cell at 1. cbn [columns].
  destruct (column_index c cols) as [i|] eqn:Hi.
  - apply column_index_Some in Hi. unfold realign.
    by rewrite list_lookup_fmap, Hi.
  - apply column_index_None in Hi. symmetry. apply cell_not_column. auto.
Qed.

Lemma columns_concat_l a b c : c ∈ columns a → c ∈ columns (df_concat a b).
Proof. intros Hc. apply elem_of_app. by left. Qed.

Lemma columns_concat_r a b c : c ∈ columns b → c ∈ columns (df_concat a b).
Proof.
  intros Hc. apply elem_of_app. destruct (decide (c ∈ columns a)); [by left|].
  right. by apply list_elem_of_filter.
Qed.

Lemma column_concat a b c :
  column c (df_concat a b) = column c a ++ column c b.
Proof.
  unfold column, df_concat. cbn [rows]. rewrite fmap_app, <-!list_fmap_compose.
  f_equal; apply list_fmap_ext; intros _ row _; simpl; apply cell_realign.
  - intros c' Hc'. by apply (columns_concat_l a b).
  - intros c' Hc'. by apply (columns_concat_r a b).
Qed.

Lemma length_rows_concat a b :
  length (rows (df_concat a b)) = length (rows a) + length (rows b).
Proof. unfold df_concat. cbn [rows]. by rewrite length_app, !length_fmap. Qed.

(** A mask that is computed row by row selects the rows that pass. *)
Lemma df_mask_rows df (p : list value → bool) :
  rows (df_mask df (p <$> rows df)) = filter (λ row, p row) (rows df).
Proof.
  unfold df_mask. cbn [rows]. induction (rows df) as [|row rs IH]; [done|].
  rewrite fmap_cons. cbn [zip zip_with]. rewrite !filter_cons. cbn [snd].
  destruct (decide (p row)); [rewrite fmap_cons|]; cbn [fst]; by rewrite IH.
Qed.

Lemma cell_df_mask df mask c row : cell (df_mask df mask) c row = cell df c row.
Proof. done. Qed.

Lemma getitem_Return name df series :
  getitem name df = Return series ↔ has_column name df ∧ series = column name df.
Proof.
  unfold getitem. destruct (has_column name df); naive_solver.
Qed.
End frame_facts.

Section album_mask_facts.
Implicit Types (df : DataFrame) (album artist : value) (row : list value).

Lemma album_mask_Return df album artist mask :
  album_mask df album artist = Return mask →
  mask = key_test df album artist <$> rows df.
Proof.
  unfold album_mask, getitem.
  destruct (has_column "Album Name" df); simpl; [|done].
  destruct (has_column "Artist" df); simpl; [|done].
  intros [= <-]. unfold mask_and, series_eq_value, column, key_test.
  induction (rows df) as [|row rs IH]; [done|].
  rewrite !fmap_cons. cbn [zip_with]. by rewrite IH.
Qed.

Lemma album_mask_columns df album artist :
  has_column "Album Name" df → has_column "Artist" df →
  album_mask df album artist = Return (key_test df album artist <$> rows df).
Proof.
  intros H1 H2.
  destruct (album_mask df album artist) as [mask| |] eqn:Hmask.
  - by rewrite (album_mask_Return _ _ _ _ Hmask).
  - unfold album_mask, getitem in Hmask.
    by rewrite (Is_true_true_1 _ H1), (Is_true_true_1 _ H2) in Hmask.
  - unfold album_mask, getitem in Hmask.
    by rewrite (Is_true_true_1 _ H1), (Is_true_true_1 _ H2) in Hmask.
Qed.

Lemma album_mask_no_column df album artist :
  ¬ (has_column "Album Name" df ∧ has_column "Artist" df) →
  album_mask df album artist = Raise KeyError.
Proof.
  unfold album_mask, getitem. intros H.
  destruct (has_column "Album Name" df); simpl; [|done].
  destruct (has_column "Artist" df); simpl; [|done]. by destruct H.
Qed.

Lemma key_test_has_key df a b row :
  key_test df (VStr a) (VStr b) row ↔ has_key df a b row.
Proof.
  unfold key_test, has_key.
  destruct (cell df "Album Name" row) as [a'|],
           (cell df "Artist" row) as [b'|]; simpl;
    rewrite ?andb_True, ?bool_decide_spec; naive_solver.
Qed.

(** A missing value as the name of the album or of the artist selects no
    row. *)
Lemma key_test_NaN df album artist row :
  album = VNaN ∨ artist = VNaN → key_test df album artist row = false.
Proof.
  unfold key_test. intros [-> | ->].
  - by destruct (cell df "Album Name" row).
  - destruct (cell df "Album Name" row), album, (cell df "Artist" row);
      simpl; by rewrite ?andb_false_r.
Qed.
End album_mask_facts.

Section save_feedback_facts.
Implicit Types (file : csv_file) (existing df : DataFrame) (a b c : string).
Implicit Types (album artist : value) (row : list value).

Lemma mask_not_fmap {A} (p : A → bool) (l : list A) :
  mask_not (p <$> l) = (λ x, negb (p x)) <$> l.
Proof. unfold mask_not. by rewrite <-list_fmap_compose. Qed.

(** What [save_feedback] writes when the file has both key columns. *)
Lemma save_feedback_Readable existing album artist feedback review :
  has_column "Album Name" existing → has_column "Artist" existing →
  save_feedback (Readable existing) album artist feedback review
  = df_concat
      (with_rows existing
         (filter (λ row, negb (key_test existing album artist row))
            (rows existing)))
      (save_feedback NoFile album artist feedback review).
Proof.
  intros H1 H2. unfold save_feedback.
  rewrite album_mask_columns by done.
  rewrite mask_not_fmap. f_equal. unfold with_rows.
  rewrite <-(df_mask_rows existing
               (λ row, negb (key_test existing album artist row))).
  done.
Qed.

(** What it writes otherwise: the new row alone. *)
Lemma save_feedback_fallback file album artist feedback review :
  (∀ existing, file = Readable existing →
     ¬ (has_column "Album Name" existing ∧ has_column "Artist" existing)) →
  save_feedback file album artist feedback review
  = save_feedback NoFile album artist feedback review.
Proof.
  intros Hfile. destruct file as [|existing|]; [done| |done].
  unfold save_feedback. by rewrite album_mask_no_column by by apply Hfile.
Qed.

Lemma filter_none {A} (P : A → Prop) `{!∀ x, Decision (P x)} (l : list A) :
  (∀ x, x ∈ l → ¬ P x) → filter P l = [].
Proof.
  induction l as [|x l IH]; intros Hl; [done|].
  rewrite filter_cons_False by (apply Hl; left).
  apply IH. intros y Hy. apply Hl. by right.
Qed.

Lemma filter_realign_none kept new a b :
  (∀ row, row ∈ rows kept → ¬ has_key kept a b row) →
  filter (has_key (df_concat kept new) a b)
    (realign kept (columns (df_concat kept new)) <$> rows kept) = [].
Proof.
  intros Hnone. apply filter_none.
  intros r' (row & -> & Hrow)%list_elem_of_fmap [Hk1 Hk2].
  apply (Hnone row Hrow). unfold df_concat in Hk1, Hk2.
  rewrite cell_realign in Hk1, Hk2; [done|..];
    intros c' Hc'; by apply (columns_concat_l kept new).
Qed.
End save_feedback_facts.

Section concat_facts.
Implicit Types (a b df : DataFrame) (c : string) (row : list value).

Lemma filter_fmap {A B} (f : A → B) (P : B → Prop) `{!∀ x, Decision (P x)}
    (l : list A) :
  filter P (f <$> l) = f <$> filter (λ x, P (f x)) l.
Proof.
  induction l as [|x l IH]; [done|].
  rewrite fmap_cons, !filter_cons. destruct (decide (P (f x))).
  - by rewrite fmap_cons, IH.
  - done.
Qed.

Lemma cell_concat_l a b c row :
  cell (df_concat a b) c (realign a (columns (df_concat a b)) row) = cell a c row.
Proof.
  unfold df_concat at 1. apply cell_realign.
  intros c' Hc'. by apply (columns_concat_l a b).
Qed.

Lemma cell_concat_r a b c row :
  cell (df_concat a b) c (realign b (columns (df_concat a b)) row) = cell b c row.
Proof.
  unfold df_concat at 1. apply cell_realign.
  intros c' Hc'. by apply (columns_concat_r a b).
Qed.

Lemma rows_concat a b :
  rows (df_concat a b)
  = (realign a (columns (df_concat a b)) <$> rows a)
    ++ (realign b (columns (df_concat a b)) <$> rows b).
Proof. done. Qed.

Lemma has_column_elem_of c df : has_column c df ↔ c ∈ columns df.
Proof.
  unfold has_column. rewrite bool_decide_spec. done.
Qed.

(** The rows of a concatenation that carry a key: those of the first
    frame, then those of the second. *)
Lemma key_rows_concat a b x y :
  filter (has_key (df_concat a b) x y) (rows (df_concat a b))
  = (realign a (columns (df_concat a b)) <$> filter (has_key a x y) (rows a))
    ++ (realign b (columns (df_concat a b)) <$> filter (has_key b x y) (rows b)).
Proof.
  rewrite rows_concat, filter_app, !filter_fmap. f_equal.
  - f_equal. apply list_filter_iff. intros row. unfold has_key.
    by rewrite !cell_concat_l.
  - f_equal. apply list_filter_iff. intros row. unfold has_key.
    by rewrite !cell_concat_r.
Qed.
End concat_facts.

(** ** [save_feedback] *)

Lemma save_feedback_cases (file : csv_file) (album artist : value)
    (feedback : string) (review : option value) :
  let new_feedback := save_feedback NoFile album artist feedback review in
  save_feedback file album artist feedback review = new_feedback
  ∨ ∃ existing,
      file = Readable existing
      ∧ has_column "Album Name" existing ∧ has_column "Artist" existing
      ∧ save_feedback file album artist feedback review
        = df_concat
            (with_rows existing
               (filter (λ row, negb (key_test existing album artist row))
                  (rows existing)))
            new_feedback.
Proof.
  intros new_feedback. destruct file as [|existing|]; [by left| |by left].
  destruct (decide (has_column "Album Name" existing
                    ∧ has_column "Artist" existing)) as [[H1 H2]|Hno].
  - right. exists existing. split_and!; [done..|].
    by apply save_feedback_Readable.
  - left. apply save_feedback_fallback. by intros ? [= <-].
Qed.

(** X9. For a feedback file that is missing, that cannot be read, or
    that [read_csv] returns as a frame of strings and missing values, the
    frame that [save_feedback] writes for an album and an artist given as
    strings has exactly one row whose album name and artist are these
    strings: it is the last row, and it carries the new feedback and the
    new review. A column that [read_csv] types as numbers, as it does when
    every album name of the file is a number, is not among these frames:
    none of its cells equals a string, and the save keeps the old row. *)
Theorem save_feedback_upsert (file : csv_file) (a b feedback : string)
    (review : option value) :
  let written := save_feedback file (VStr a) (VStr b) feedback review in
  ∃ row,
    filter (has_key written a b) (rows written) = [row]
    ∧ last (rows written) = Some row
    ∧ cell written "Feedback" row = VStr feedback
    ∧ cell written "Review" row = review_cell review.
Proof.
  intros written. subst written.
  destruct (save_feedback_cases file (VStr a) (VStr b) feedback review)
    as [->|(existing & -> & H1 & H2 & ->)].
  - exists [VStr a; VStr b; VStr feedback; review_cell review].
    split_and!; try done.
    cbn [save_feedback rows]. by rewrite filter_cons_True, filter_nil.
  - set (new_feedback := save_feedback NoFile _ _ _ _).
    set (kept := with_rows existing _).
    exists (realign new_feedback (columns (df_concat kept new_feedback))
              [VStr a; VStr b; VStr feedback; review_cell review]).
    split_and!.
    + rewrite key_rows_concat.
      rewrite (filter_none (has_key kept a b)); cycle 1.
      { intros row [Hno _]%list_elem_of_filter Hkey.
        apply key_test_has_key in Hkey. by destruct (key_test _ _ _ _). }
      cbn [new_feedback save_feedback rows].
      by rewrite filter_cons_True, filter_nil.
    + rewrite rows_concat. cbn [new_feedback save_feedback rows].
      by rewrite fmap_cons, fmap_nil, last_snoc.
    + by rewrite cell_concat_r.
    + by rewrite cell_concat_r.
Qed.

(** X10. When the feedback file has the columns [Album Name] and
    [Artist], [save_feedback] keeps, under every column name and in the
    order of the file, the cells of all rows for other albums and artists,
    and puts the new row after them. *)
Theorem save_feedback_keeps_others (existing : DataFrame)
    (a b feedback : string) (review : option value) (c : string) :
  has_column "Album Name" existing → has_column "Artist" existing →
  column c (save_feedback (Readable existing) (VStr a) (VStr b) feedback review)
  = (cell existing c
       <$> filter (λ row, ¬ has_key existing a b row) (rows existing))
    ++ column c (save_feedback NoFile (VStr a) (VStr b) feedback review).
Proof.
  intros H1 H2. rewrite save_feedback_Readable, column_concat by done.
  f_equal. unfold column, with_rows. cbn [rows]. f_equal.
  apply list_filter_iff. intros row.
  by rewrite <-key_test_has_key, negb_True.
Qed.

Lemma save_feedback_keeps_others_witness :
  column "Feedback"
    (save_feedback (Readable example_feedback) (VStr "Punisher")
       (VStr "Phoebe Bridgers") "like" None)
  = [VStr "like"; VStr "like"].
Proof.
  rewrite (save_feedback_keeps_others example_feedback "Punisher"
             "Phoebe Bridgers" "like" None "Feedback"); [|done..].
  reflexivity.
Defined.

(** X11. A missing value as the album name or as the artist equals no
    cell, so with such a key [save_feedback] removes nothing: every row of
    the file is kept and the new row is added to them, also when a row with
    a missing name is there already. *)
Theorem save_feedback_missing_key (existing : DataFrame)
    (album artist : value) (feedback : string) (review : option value)
    (c : string) :
  has_column "Album Name" existing → has_column "Artist" existing →
  album = VNaN ∨ artist = VNaN →
  column c (save_feedback (Readable existing) album artist feedback review)
  = column c existing
    ++ column c (save_feedback NoFile album artist feedback review).
Proof.
  intros H1 H2 Hnan. rewrite save_feedback_Readable, column_concat by done.
  f_equal. unfold column, with_rows. cbn [rows]. f_equal.
  induction (rows existing) as [|row rs IH]; [done|].
  rewrite filter_cons_True; [by rewrite IH|].
  by rewrite key_test_NaN.
Qed.

Lemma save_feedback_missing_key_witness :
  column "Artist"
    (save_feedback
       (Readable (with_rows example_feedback
                    [[VNaN; VStr "Lucy Dacus"; VStr "mid"; VNaN]]))
       VNaN (VStr "Lucy Dacus") "like" None)
  = [VStr "Lucy Dacus"; VStr "Lucy Dacus"].
Proof.
  rewrite (save_feedback_missing_key _ VNaN (VStr "Lucy Dacus") "like" None
             "Artist"); [reflexivity|done|done|by left].
Defined.

(** ** [get_public_feedback_stats] *)

Section stats_facts.
Implicit Types (file : csv_file) (df : DataFrame) (a b s : string).
Implicit Types (album artist : value) (series : list value).

(** The three counts are counts of different values of one series. *)
Lemma value_count_bound series :
  value_count "like" series + value_count "mid" series
  + value_count "dislike" series ≤ length series.
Proof.
  unfold value_count. induction series as [|v series IH]; [done|].
  rewrite !filter_cons. cbn [length].
  destruct (decide (v = VStr "like")) as [->|?].
  - rewrite !decide_False by done. cbn [length]. lia.
  - destruct (decide (v = VStr "mid")) as [->|?].
    + rewrite !decide_False by done. cbn [length]. lia.
    + destruct (decide (v = VStr "dislike")); cbn [length]; lia.
Qed.

Lemma public_stats_load file album artist :
  get_public_feedback_stats file album artist
  = get_public_feedback_stats (Readable (load_public_feedback file)) album artist.
Proof. done. Qed.

Lemma public_stats_no_columns df album artist :
  ¬ (has_column "Album Name" df ∧ has_column "Artist" df) →
  get_public_feedback_stats (Readable df) album artist = Raise KeyError.
Proof.
  intros Hno. unfold get_public_feedback_stats. cbn [load_public_feedback].
  by rewrite album_mask_no_column.
Qed.

(** What the function computes on a frame with both key columns, in terms
    of the rows that pass the test of the mask. *)
Lemma public_stats_columns df album artist :
  has_column "Album Name" df → has_column "Artist" df →
  let feedback :=
    cell df "Feedback" <$> filter (λ row, key_test df album artist row) (rows df) in
  get_public_feedback_stats (Readable df) album artist
  = if decide (feedback = [] ∨ has_column "Feedback" df) then
      Return {| stat_like := value_count "like" feedback;
                stat_mid := value_count "mid" feedback;
                stat_dislike := value_count "dislike" feedback;
                stat_total := length feedback |}
    else Raise KeyError.
Proof.
  intros H1 H2 feedback. unfold get_public_feedback_stats.
  cbn [load_public_feedback]. rewrite album_mask_columns by done.
  cbn [mbind outcome_bind]. unfold df_empty, getitem.
  rewrite df_mask_rows. fold (with_rows df []).
  assert (columns df ≠ []) as Hcols.
  { apply has_column_elem_of in H1. intros Heq. rewrite Heq in H1.
    by apply elem_of_nil in H1. }
  change (columns (df_mask df _)) with (columns df).
  rewrite (bool_decide_eq_false_2 _ Hcols), orb_false_r.
  subst feedback.
  destruct (filter _ (rows df)) as [|row kr] eqn:Hkr.
  - rewrite bool_decide_eq_true_2 by done. rewrite decide_True by by left.
    done.
  - rewrite bool_decide_eq_false_2 by done.
    change (has_column "Feedback" (df_mask df _))
      with (has_column "Feedback" df).
    destruct (has_column "Feedback" df) eqn:Hfb.
    + rewrite decide_True by by right. cbn [mbind outcome_bind].
      unfold column. rewrite df_mask_rows, Hkr.
      by rewrite length_fmap.
    + rewrite decide_False; [done|]. by intros [?|?].
Qed.
End stats_facts.

(** X12. Whenever [get_public_feedback_stats] returns, the counts of
    [like], [mid] and [dislike] together are at most the total: the total
    counts every entry for the album, also one whose feedback is another
    string or is missing. *)
Theorem public_stats_bound (file : csv_file) (album artist : value)
    (stats : feedback_stats) :
  get_public_feedback_stats file album artist = Return stats →
  stat_like stats + stat_mid stats + stat_dislike stats ≤ stat_total stats.
Proof.
  rewrite public_stats_load. set (df := load_public_feedback file).
  destruct (decide (has_column "Album Name" df ∧ has_column "Artist" df))
    as [[H1 H2]|Hno]; [|by rewrite public_stats_no_columns].
  rewrite public_stats_columns by done.
  destruct (decide _); [|done]. intros [= <-]. cbn [stat_like stat_mid
    stat_dislike stat_total]. apply value_count_bound.
Qed.

Lemma public_stats_bound_witness :
  get_public_feedback_stats (Readable example_public_feedback)
    (VStr "Historian") (VStr "Lucy Dacus")
  = Return {| stat_like := 1; stat_mid := 0; stat_dislike := 0;
              stat_total := 2 |}
  ∧ 1 + 0 + 0 ≤ 2.
Proof.
  split; [reflexivity|].
  exact (public_stats_bound (Readable example_public_feedback)
           (VStr "Historian") (VStr "Lucy Dacus") _ eq_refl).
Defined.

(** X13. [save_public_feedback] removes nothing. For a readable file the
    frame that it writes has, under every column name, the cells of the
    file in their order and then the cell of the new entry, one row more
    than the file, also when the file holds an entry for the same album
    and artist already: unlike [save_feedback] it does not replace. For a
    file that cannot be read the new entry is written alone. *)
Theorem public_save_appends (existing : DataFrame) (album artist : value)
    (feedback username timestamp : string) (review : option value) :
  let new_feedback :=
    save_public_feedback NoFile album artist feedback username timestamp
      review in
  let written :=
    save_public_feedback (Readable existing) album artist feedback username
      timestamp review in
  (∀ c, column c written = column c existing ++ column c new_feedback)
  ∧ length (rows written) = S (length (rows existing))
  ∧ (∀ c, c ∈ columns existing → c ∈ columns written)
  ∧ rows new_feedback
    = [[album; artist; VStr feedback; VStr username; VStr timestamp;
        review_cell review]]
  ∧ ∀ recovered,
      save_public_feedback (Unreadable recovered) album artist feedback
        username timestamp review = new_feedback.
Proof.
  intros new_feedback written. split_and!.
  - intros c. apply column_concat.
  - unfold written, save_public_feedback.
    rewrite length_rows_concat. cbn [rows length]. lia.
  - intros c Hc. by apply columns_concat_l.
  - done.
  - done.
Qed.

(** * The prediction files *)

Section sort_facts.
Implicit Types (x y : file_date) (l : list file_date) (date : Z).

Lemma insert_newest_perm x l : insert_newest x l ≡ₚ x :: l.
Proof.
  induction l as [|y l IH]; [done|]. cbn [insert_newest].
  destruct (decide _); [done|]. by rewrite IH, Permutation_swap.
Qed.

Lemma sort_newest_first_perm l : sort_newest_first l ≡ₚ l.
Proof.
  induction l as [|x l IH]; [done|]. cbn [sort_newest_first foldr].
  fold (sort_newest_first l). by rewrite insert_newest_perm, IH.
Qed.

Lemma insert_newest_sorted x l :
  StronglySorted (λ x y, (y.1.2 ≤ x.1.2)%Z) l →
  StronglySorted (λ x y, (y.1.2 ≤ x.1.2)%Z) (insert_newest x l).
Proof.
  induction 1 as [|y l Hl IH Hy]; cbn [insert_newest].
  - repeat constructor.
  - destruct (decide _) as [Hle|Hgt].
    + constructor; [by constructor|]. constructor; [done|].
      eapply Forall_impl; [exact Hy|]. intros z Hz. simpl in *. lia.
    + constructor; [done|]. rewrite insert_newest_perm.
      constructor; [lia|done].
Qed.

Lemma sort_newest_first_sorted l :
  StronglySorted (λ x y, (y.1.2 ≤ x.1.2)%Z) (sort_newest_first l).
Proof.
  induction l as [|x l IH]; [constructor|].
  cbn [sort_newest_first foldr]. by apply insert_newest_sorted.
Qed.

(** The sort is stable: the entries of one date keep their order. *)
Lemma insert_newest_stable x l date :
  filter (λ y, y.1.2 = date) (insert_newest x l)
  = filter (λ y, y.1.2 = date) (x :: l).
Proof.
  induction l as [|y l IH]; [done|]. cbn [insert_newest].
  destruct (decide _) as [Hle|Hgt]; [done|].
  rewrite filter_cons, IH, !(filter_cons _ x), (filter_cons _ y).
  destruct (decide (x.1.2 = date)), (decide (y.1.2 = date)); try done.
  lia.
Qed.

Lemma sort_newest_first_stable l date :
  filter (λ y, y.1.2 = date) (sort_newest_first l)
  = filter (λ y, y.1.2 = date) l.
Proof.
  induction l as [|x l IH]; [done|]. cbn [sort_newest_first foldr].
  fold (sort_newest_first l).
  by rewrite insert_newest_stable, !filter_cons, IH.
Qed.
End sort_facts.

Section prediction_files_facts.
Variable strptime : string → option Z.
Variable strftime_long strftime_iso : Z → string.
Variable read_csv : string → option DataFrame.
Implicit Types (file path : string) (date : Z) (files : list string).

(** The entries that the loop of [get_all_prediction_files] collects. *)
Lemma file_dates_loop files (acc : list file_date) :
  foldl (λ file_dates file,
           match strptime (date_str file) with
           | Some date_obj =>
               file_dates ++ [(file, date_obj, strftime_long date_obj)]
           | None => file_dates
           end) acc files
  = acc ++ omap (λ file, date_obj ← strptime (date_str file);
                         Some (file, date_obj, strftime_long date_obj)) files.
Proof.
  revert acc. induction files as [|file files IH]; intros acc; simpl.
  - by rewrite app_nil_r.
  - rewrite IH. destruct (strptime (date_str file)) as [date|]; simpl; [|done].
    by rewrite <-app_assoc.
Qed.

Lemma get_all_prediction_files_sort files :
  get_all_prediction_files strptime strftime_long files
  = sort_newest_first
      (omap (λ file, date_obj ← strptime (date_str file);
                     Some (file, date_obj, strftime_long date_obj)) files).
Proof.
  unfold get_all_prediction_files. destruct files as [|file files]; [done|].
  by rewrite file_dates_loop.
Qed.

Lemma files_of_date files date :
  (filter (λ y : file_date, y.1.2 = date)
     (omap (λ file, date_obj ← strptime (date_str file);
                    Some (file, date_obj, strftime_long date_obj)) files)).*1.*1
  = filter (λ file, strptime (date_str file) = Some date) files.
Proof.
  induction files as [|file files IH]; [done|].
  rewrite (filter_cons _ file), <-IH. clear IH.
  change (omap ?f (file :: files))
    with (match f file with Some y => y :: omap f files | None => omap f files end).
  cbn beta.
  destruct (strptime (date_str file)) as [d|] eqn:Hd; cbn [mbind option_bind].
  - rewrite filter_cons. cbn [fst snd].
    destruct (decide (d = date)) as [->|Hne].
    + by rewrite decide_True by done.
    + by rewrite decide_False by (by intros [= ?]).
  - by rewrite decide_False by done.
Qed.

Lemma elem_of_get_all_prediction_files files file date formatted :
  (file, date, formatted) ∈ get_all_prediction_files strptime strftime_long files
  ↔ file ∈ files ∧ strptime (date_str file) = Some date
    ∧ formatted = strftime_long date.
Proof.
  rewrite get_all_prediction_files_sort, sort_newest_first_perm,
    list_elem_of_omap. split.
  - intros (file' & Hfile & Hsome).
    destruct (strptime (date_str file')) as [d|] eqn:Hd; simplify_eq/=.
    done.
  - intros (Hfile & Hd & ->). exists file. by rewrite Hd.
Qed.

(** X15. [get_all_prediction_files] lists exactly the files whose name
    starts with a date that [strptime] accepts, each with its date and the
    formatted date; the list goes from the newest date to the oldest; and
    the files of one date come in the order, and as often, as [glob] gave
    them. *)
Theorem prediction_files_newest_first files :
  let file_dates := get_all_prediction_files strptime strftime_long files in
  (∀ file date formatted,
     (file, date, formatted) ∈ file_dates ↔
     file ∈ files ∧ strptime (date_str file) = Some date
     ∧ formatted = strftime_long date)
  ∧ StronglySorted (λ x y, (y.1.2 ≤ x.1.2)%Z) file_dates
  ∧ (∀ date,
       (filter (λ x : file_date, x.1.2 = date) file_dates).*1.*1
       = filter (λ file, strptime (date_str file) = Some date) files).
Proof.
  intros file_dates. subst file_dates. split_and!.
  - apply elem_of_get_all_prediction_files.
  - rewrite get_all_prediction_files_sort. apply sort_newest_first_sorted.
  - intros date.
    by rewrite get_all_prediction_files_sort, sort_newest_first_stable,
      files_of_date.
Qed.

Lemma str_max_elem_of files file : str_max files = Some file → file ∈ files.
Proof.
  destruct files as [|m files]; [done|]. cbn [str_max]. intros [= <-].
  revert m. induction files as [|file' files IH]; intros m; cbn [foldl].
  - left.
  - destruct (String.ltb m file').
    + right. apply IH.
    + specialize (IH m). apply elem_of_cons in IH as [Heq|Hin].
      * rewrite Heq. left.
      * right. by right.
Qed.

Lemma str_max_Some files : files ≠ [] → is_Some (str_max files).
Proof. by destruct files. Qed.

(** What [load_predictions] does once it has a path. *)
Lemma load_predictions_path files file_path path :
  match file_path with
  | Some file_path => Some file_path
  | None => str_max files
  end = Some path →
  load_predictions strptime strftime_iso read_csv files file_path
  = load_predictions strptime strftime_iso read_csv files (Some path).
Proof. unfold load_predictions. by intros ->. Qed.

Lemma load_predictions_raises files path :
  strptime (date_str path) = None →
  ∃ e, load_predictions strptime strftime_iso read_csv files (Some path)
       = LoadRaise e.
Proof.
  intros Hdate. unfold load_predictions. rewrite Hdate.
  destruct (read_csv path); [|by eexists].
  destruct (drop_duplicates _ _); by eexists.
Qed.

Lemma load_predictions_date files path date :
  strptime (date_str path) = Some date →
  load_predictions strptime strftime_iso read_csv files (Some path)
    ≠ LoadRaise ValueError
  ∧ ∀ df analysis_date,
      load_predictions strptime strftime_iso read_csv files (Some path)
        = Loaded df analysis_date →
      analysis_date = strftime_iso date.
Proof.
  intros Hdate. unfold load_predictions. rewrite Hdate.
  destruct (read_csv path); [|done].
  destruct (drop_duplicates _ _); [|done..].
  split; [done|]. by intros ?? [= _ <-].
Qed.

(** X16. When some file has a valid date, the file that [main] hands to
    [load_predictions] for the graph is a file of the folder with the
    newest of the valid dates; the date in its name is parsed again
    without a [ValueError], and the analysis date that is returned is this
    newest date. *)
Theorem latest_file_is_newest files :
  let file_dates := get_all_prediction_files strptime strftime_long files in
  file_dates ≠ [] →
  ∃ file date,
    latest_file file_dates = Some file
    ∧ file ∈ files ∧ strptime (date_str file) = Some date
    ∧ (∀ file' date',
         file' ∈ files → strptime (date_str file') = Some date' →
         (date' ≤ date)%Z)
    ∧ load_predictions strptime strftime_iso read_csv files (Some file)
        ≠ LoadRaise ValueError
    ∧ ∀ df analysis_date,
        load_predictions strptime strftime_iso read_csv files (Some file)
          = Loaded df analysis_date →
        analysis_date = strftime_iso date.
Proof.
  intros file_dates Hne.
  pose proof (sort_newest_first_sorted
    (omap (λ file, date_obj ← strptime (date_str file);
                   Some (file, date_obj, strftime_long date_obj)) files))
    as Hsorted.
  rewrite <-get_all_prediction_files_sort in Hsorted.
  assert (∀ file date formatted,
    (file, date, formatted) ∈ file_dates ↔
    file ∈ files ∧ strptime (date_str file) = Some date
    ∧ formatted = strftime_long date) as Helem
    by apply elem_of_get_all_prediction_files.
  fold file_dates in Hsorted. clearbody file_dates.
  destruct file_dates as [|[[file date] formatted] rest]; [done|].
  destruct (Helem file date formatted) as [(Hfile & Hdate & ->) _]; [left|].
  exists file, date. split_and!; [done..| | |].
  - intros file' date' Hfile' Hdate'.
    assert ((file', date', strftime_long date')
            ∈ (file, date, strftime_long date) :: rest) as Hin'
      by by apply Helem.
    apply StronglySorted_inv in Hsorted as [_ Hall].
    apply elem_of_cons in Hin' as [[= -> ->]|Hin']; [done|].
    rewrite Forall_forall in Hall. exact (Hall _ Hin').
  - by apply (load_predictions_date files file date).
  - by apply (load_predictions_date files file date).
Qed.

(** X17. When the folder holds files but none with a valid date, [main]
    hands [None] to [load_predictions], which then takes the greatest
    file name and raises: it returns neither data nor [None], so the
    message for missing predictions is not reached. *)
Theorem no_valid_date_raises files :
  files ≠ [] →
  get_all_prediction_files strptime strftime_long files = [] →
  ∃ e,
    load_predictions strptime strftime_iso read_csv files
      (latest_file (get_all_prediction_files strptime strftime_long files))
    = LoadRaise e.
Proof.
  intros Hfiles Hnone. rewrite Hnone. cbn [latest_file].
  destruct (str_max_Some files Hfiles) as [path Hpath].
  rewrite (load_predictions_path files None path Hpath).
  apply load_predictions_raises.
  destruct (strptime (date_str path)) as [date|] eqn:Hdate; [|done].
  assert ((path, date, strftime_long date)
          ∈ get_all_prediction_files strptime strftime_long files) as Hin.
  { apply elem_of_get_all_prediction_files. split_and!; [|done..].
    by apply str_max_elem_of. }
  rewrite Hnone in Hin. by apply elem_of_nil in Hin.
Qed.
End prediction_files_facts.

Lemma latest_file_is_newest_witness :
  ∃ file date,
    latest_file
      (get_all_prediction_files example_strptime (λ _, "") example_folder)
    = Some file
    ∧ file ∈ example_folder ∧ example_strptime (date_str file) = Some date
    ∧ (∀ file' date',
         file' ∈ example_folder →
         example_strptime (date_str file') = Some date' → (date' ≤ date)%Z)
    ∧ load_predictions example_strptime (λ _, "") example_read_csv
        example_folder (Some file) ≠ LoadRaise ValueError
    ∧ ∀ df analysis_date,
        load_predictions example_strptime (λ _, "") example_read_csv
          example_folder (Some file) = Loaded df analysis_date →
        analysis_date = "".
Proof.
  apply (latest_file_is_newest example_strptime (λ _, "") (λ _, "")
           example_read_csv example_folder).
  by vm_compute.
Defined.

Lemma no_valid_date_raises_witness :
  ∃ e,
    load_predictions example_strptime (λ _, "") example_read_csv
      ["predictions/notes_Album_Recommendations.csv"]
      (latest_file
         (get_all_prediction_files example_strptime (λ _, "")
            ["predictions/notes_Album_Recommendations.csv"]))
    = LoadRaise e.
Proof.
  apply (no_valid_date_raises example_strptime (λ _, "") (λ _, "")
           example_read_csv ["predictions/notes_Album_Recommendations.csv"]);
    [done|reflexivity].
Defined.

(** ** The frame of [load_predictions] *)

Section drop_seen_facts.
Variable key : list value → list value.
Implicit Types (seen : list (list value)) (rs : list (list value)).
Implicit Types (k row : list value).

Lemma elem_of_drop_seen seen rs row :
  row ∈ drop_seen key seen rs → row ∈ rs ∧ key row ∉ seen.
Proof.
  revert seen. induction rs as [|r rs IH]; intros seen; cbn [drop_seen].
  - by intros ?%elem_of_nil.
  - destruct (decide (key r ∈ seen)) as [Hin|Hout].
    + intros [? ?]%IH. split; [by right|done].
    + intros [->|[? Hnot]%IH]%elem_of_cons.
      * split; [left|done].
      * split; [by right|]. by apply not_elem_of_cons in Hnot as [_ ?].
Qed.

Lemma drop_seen_NoDup seen rs : NoDup (key <$> drop_seen key seen rs).
Proof.
  revert seen. induction rs as [|r rs IH]; intros seen; cbn [drop_seen].
  - constructor.
  - destruct (decide (key r ∈ seen)) as [Hin|Hout]; [apply IH|].
    rewrite fmap_cons. constructor; [|apply IH].
    intros (row & Hkey & [_ Hnot]%elem_of_drop_seen)%list_elem_of_fmap.
    apply Hnot. rewrite Hkey. left.
Qed.

Lemma drop_seen_keys seen rs k :
  k ∈ key <$> drop_seen key seen rs ↔ k ∈ key <$> rs ∧ k ∉ seen.
Proof.
  revert seen. induction rs as [|r rs IH]; intros seen; cbn [drop_seen].
  - rewrite fmap_nil. split; [by intros ?%elem_of_nil|].
    by intros [?%elem_of_nil _].
  - rewrite (fmap_cons key r rs), (elem_of_cons _ k (key r)).
    destruct (decide (key r ∈ seen)) as [Hin|Hout].
    + rewrite IH. split; [naive_solver|]. intros [[->|?] ?]; done.
    + rewrite fmap_cons, elem_of_cons, IH, not_elem_of_cons.
      destruct (decide (k = key r)) as [->|?]; naive_solver.
Qed.

(** The first row with a key is kept. *)
Lemma drop_seen_first seen rs k :
  k ∉ seen →
  head (filter (λ row, key row = k) (drop_seen key seen rs))
  = head (filter (λ row, key row = k) rs).
Proof.
  revert seen. induction rs as [|r rs IH]; intros seen Hk; cbn [drop_seen].
  - done.
  - rewrite (filter_cons _ r rs).
    destruct (decide (key r ∈ seen)) as [Hin|Hout].
    + rewrite decide_False by (by intros <-). by apply IH.
    + rewrite filter_cons. destruct (decide (key r = k)); [done|].
      apply IH. rewrite not_elem_of_cons. split; [done|done].
Qed.
End drop_seen_facts.

Section assign_column_facts.
Implicit Types (df : DataFrame) (name c : string) (v : value).
Implicit Types (row : list value).

Lemma column_index_lt c cols i :
  column_index c cols = Some i → i < length cols.
Proof. intros ?%column_index_Some. by eapply lookup_lt_Some. Qed.

Lemma column_index_app c cols cols' i :
  column_index c cols = Some i → column_index c (cols ++ cols') = Some i.
Proof.
  revert i. induction cols as [|c' cols IH]; intros i; simpl; [done|].
  destruct (decide (c = c')); [done|].
  destruct (column_index c cols) as [j|]; simpl; [|done].
  intros [= <-]. by rewrite (IH j).
Qed.

Lemma cell_assign_column df name v c row :
  c ∈ columns df →
  cell (assign_column name v df) c (realign df (columns df) row ++ [v])
  = cell df c row.
Proof.
  intros Hc. unfold cell at 1. cbn [assign_column columns].
  destruct (column_index c (columns df)) as [i|] eqn:Hi.
  - rewrite (column_index_app _ _ _ _ Hi).
    pose proof (column_index_lt _ _ _ Hi) as Hlt.
    apply column_index_Some in Hi.
    rewrite lookup_app_l by (unfold realign; by rewrite length_fmap).
    unfold realign. by rewrite list_lookup_fmap, Hi.
  - by apply column_index_None in Hi.
Qed.

Lemma column_index_last c cols :
  c ∉ cols → column_index c (cols ++ [c]) = Some (length cols).
Proof.
  induction cols as [|c' cols IH]; simpl.
  - intros _. by rewrite decide_True.
  - intros [Hne Hc]%not_elem_of_cons. rewrite decide_False by done.
    by rewrite IH.
Qed.

Lemma cell_assign_column_new df name v row :
  name ∉ columns df →
  cell (assign_column name v df) name (realign df (columns df) row ++ [v]) = v.
Proof.
  intros Hname. unfold cell. cbn [assign_column columns].
  rewrite column_index_last by done.
  rewrite lookup_app_r by (unfold realign; by rewrite length_fmap).
  unfold realign. by rewrite length_fmap, Nat.sub_diag.
Qed.

(** One step [if name not in df.columns: df[name] = v]: the rows are
    carried over one by one, with the cells they had, and with [v] under
    a new column. *)
Lemma ensure_column_rows df name v :
  let wide := if has_column name df then df else assign_column name v df in
  ∃ f : list value → list value,
    rows wide = f <$> rows df
    ∧ (∀ c, c ∈ columns df →
         c ∈ columns wide ∧ ∀ row, cell wide c (f row) = cell df c row)
    ∧ (∀ c, c ∈ columns wide → c ∈ columns df ∨ c = name)
    ∧ name ∈ columns wide
    ∧ (name ∉ columns df → ∀ row, cell wide name (f row) = v).
Proof.
  intros wide. subst wide.
  destruct (has_column name df) eqn:Hname.
  - assert (name ∈ columns df) as Hin
      by (apply has_column_elem_of; by rewrite Hname).
    exists id. split_and!.
    + by rewrite list_fmap_id.
    + done.
    + by left.
    + done.
    + done.
  - exists (λ row, realign df (columns df) row ++ [v]). split_and!.
    + done.
    + intros c Hc. split; [apply elem_of_app; by left|].
      intros row. by apply cell_assign_column.
    + intros c [?| ->%list_elem_of_singleton]%elem_of_app; [by left|by right].
    + apply elem_of_app. right. left.
    + intros Hnew row. by apply cell_assign_column_new.
Qed.
End assign_column_facts.

Section load_predictions_facts.
Variable strptime : string → option Z.
Variable strftime_iso : Z → string.
Variable read_csv : string → option DataFrame.
Implicit Types (files : list string) (file_path : option string).
Implicit Types (path : string) (df raw : DataFrame) (k row : list value).

(** The frame that is returned, seen from the frame that was read. *)
Lemma load_predictions_Loaded files path df analysis_date :
  load_predictions strptime strftime_iso read_csv files (Some path)
  = Loaded df analysis_date →
  ∃ raw wide (f : list value → list value),
    read_csv path = Some raw
    ∧ rows wide = f <$> rows raw
    ∧ (∀ c, c ∈ columns raw →
         c ∈ columns wide ∧ ∀ row, cell wide c (f row) = cell raw c row)
    ∧ "Artist" ∈ columns raw ∧ "Album Name" ∈ columns raw
    ∧ "playlist_origin" ∈ columns wide ∧ "Artist Name(s)" ∈ columns wide
    ∧ ("playlist_origin" ∉ columns raw →
         ∀ row, cell wide "playlist_origin" (f row) = VStr "unknown")
    ∧ ("Artist Name(s)" ∉ columns raw →
         ∀ row, cell wide "Artist Name(s)" (f row) = VStr "Unknown Artist")
    ∧ df = with_rows wide (drop_seen (album_key wide) [] (rows wide)).
Proof.
  unfold load_predictions.
  destruct (read_csv path) as [raw|] eqn:Hread; [|done].
  set (wide1 := if has_column "playlist_origin" raw then raw else _).
  set (wide := if has_column "Artist Name(s)" wide1 then wide1 else _).
  destruct (ensure_column_rows raw "playlist_origin" (VStr "unknown"))
    as (f1 & Hrows1 & Hcells1 & Hcols1 & Hname1 & Hnew1).
  fold wide1 in Hrows1, Hcells1, Hcols1, Hname1, Hnew1.
  destruct (ensure_column_rows wide1 "Artist Name(s)" (VStr "Unknown Artist"))
    as (f2 & Hrows2 & Hcells2 & Hcols2 & Hname2 & Hnew2).
  fold wide in Hrows2, Hcells2, Hcols2, Hname2, Hnew2.
  unfold drop_duplicates. cbn [forallb].
  destruct (has_column "Artist" wide) eqn:HA; [|done].
  destruct (has_column "Album Name" wide) eqn:HB; [|done].
  cbn [andb]. destruct (strptime (date_str path)); [|done].
  intros [= <- _]. exists raw, wide, (f2 ∘ f1).
  assert (∀ c, c ∈ columns wide → c ≠ "playlist_origin" →
            c ≠ "Artist Name(s)" → c ∈ columns raw) as Hback.
  { intros c [Hc| ->]%Hcols2 ??; [|done].
    by apply Hcols1 in Hc as [?| ->]. }
  split_and!.
  - done.
  - by rewrite Hrows2, Hrows1, <-list_fmap_compose.
  - intros c Hc. destruct (Hcells1 c Hc) as [Hc1 Hcell1].
    destruct (Hcells2 c Hc1) as [Hc2 Hcell2]. split; [done|].
    intros row. cbn [compose]. by rewrite Hcell2, Hcell1.
  - apply Hback; [|done..]. apply has_column_elem_of. by rewrite HA.
  - apply Hback; [|done..]. apply has_column_elem_of. by rewrite HB.
  - by apply Hcells2.
  - done.
  - intros Hnew row. cbn [compose].
    destruct (Hcells2 _ Hname1) as [_ ->]. by apply Hnew1.
  - intros Hnew row. cbn [compose]. apply Hnew2.
    by intros [?|[=]]%Hcols1.
  - done.
Qed.

(** X18. The frame that [load_predictions] returns holds every album of
    the file once: no two of its rows have the same artist and album name
    (two missing values counting as the same), every pair of artist and
    album name of the file is there, and the row of a pair has, under
    every column of the file, the cells of the first row of the file with
    this pair. The two columns that [build_graph] reads are there. *)
Theorem load_predictions_first_rows files file_path df analysis_date :
  load_predictions strptime strftime_iso read_csv files file_path
  = Loaded df analysis_date →
  ∃ path raw,
    default (str_max files) (Some <$> file_path) = Some path
    ∧ read_csv path = Some raw
    ∧ NoDup (album_key df <$> rows df)
    ∧ (∀ k, k ∈ album_key df <$> rows df ↔ k ∈ album_key raw <$> rows raw)
    ∧ (∀ k c, c ∈ columns raw →
         cell df c <$> first_with_key df k
         = cell raw c <$> first_with_key raw k)
    ∧ has_rating_columns df.
Proof.
  intros Hloaded.
  assert (∃ path, default (str_max files) (Some <$> file_path) = Some path)
    as [path Hpath].
  { destruct file_path as [path|]; [by exists path|].
    unfold load_predictions in Hloaded. cbn [fmap option_fmap option_map default].
    destruct (str_max files) as [path|]; [by exists path|done]. }
  rewrite (load_predictions_path _ _ _ files file_path path) in Hloaded
    by by destruct file_path.
  apply load_predictions_Loaded in Hloaded
    as (raw & wide & f & Hread & Hrows & Hcells & HA & HB & HO & HN
        & _ & _ & ->).
  exists path, raw.
  assert (∀ row, album_key wide (f row) = album_key raw row) as Hkey.
  { intros row. unfold album_key.
    destruct (Hcells _ HA) as [_ ->]. by destruct (Hcells _ HB) as [_ ->]. }
  change (album_key (with_rows wide ?rs)) with (album_key wide).
  unfold first_with_key. cbn [with_rows rows].
  assert (album_key wide <$> rows wide = album_key raw <$> rows raw) as Hkeys.
  { rewrite Hrows, <-list_fmap_compose. apply list_fmap_ext.
    intros _ row _. apply Hkey. }
  split_and!.
  - done.
  - done.
  - apply drop_seen_NoDup.
  - intros k. rewrite drop_seen_keys, Hkeys. split; [by intros [? _]|].
    intros ?. split; [done|]. by intros ?%elem_of_nil.
  - intros k c Hc.
    change (album_key (with_rows wide ?rs)) with (album_key wide).
    change (cell (with_rows wide ?rs)) with (cell wide).
    rewrite drop_seen_first by (by intros ?%elem_of_nil).
    rewrite Hrows, filter_fmap.
    rewrite (list_filter_iff _ (λ row, album_key raw row = k))
      by (intros row; by rewrite Hkey).
    destruct (filter _ (rows raw)) as [|row rs]; [done|].
    cbn. f_equal. by apply Hcells.
  - unfold has_rating_columns.
    change (columns (with_rows wide ?rs)) with (columns wide).
    apply andb_True. by rewrite !has_column_elem_of.
Qed.
End load_predictions_facts.

Lemma load_predictions_first_rows_witness :
  let df :=
    {| columns := ["Artist"; "Album Name"; "playlist_origin"; "Artist Name(s)"];
       rows := [[VStr "Lucy Dacus"; VStr "Historian"; VStr "df_liked";
                 VStr "Unknown Artist"];
                [VStr "Mitski"; VStr "Puberty 2"; VStr "df_nmf";
                 VStr "Unknown Artist"]] |} in
  ∃ path raw,
    Some "predictions/01-03-25_Album_Recommendations.csv" = Some path
    ∧ example_read_csv path = Some raw
    ∧ NoDup (album_key df <$> rows df)
    ∧ (∀ k, k ∈ album_key df <$> rows df ↔ k ∈ album_key raw <$> rows raw)
    ∧ (∀ k c, c ∈ columns raw →
         cell df c <$> first_with_key df k
         = cell raw c <$> first_with_key raw k)
    ∧ has_rating_columns df.
Proof.
  exact (load_predictions_first_rows example_strptime (λ _, "")
           example_read_csv example_folder
           (Some "predictions/01-03-25_Album_Recommendations.csv")
           _ "" eq_refl).
Defined.

(** ** The graph of a file with default columns *)

Section default_columns_facts.
Variable set_order : list value → list value.
Hypothesis Hok : set_order_ok set_order.
Implicit Types (df wide raw : DataFrame) (row : list value) (x : value).








End default_columns_facts.

Section default_columns_graph.
Variable strptime : string → option Z.
Variable strftime_iso : Z → string.
Variable read_csv : string → option DataFrame.

End default_columns_graph.

